(** * TrendyWear: the contact-form validation engine of [main.js]

    A shallow embedding of the form-validation code of [src/main.js]
    ([isValidEmail], [isFieldValid], [showFieldError], [clearFieldError],
    [initializeContactForm]) and the properties of its specification,
    followed by an embedding of the other features of the script (module
    [Site]: navigation, in-page links, the two observers, accessibility,
    the colour scheme and the listener of [DOMContentLoaded]) with their
    properties (module [SiteFacts]).

    Conventions of the embedding.
    - A JavaScript string is a sequence of UTF-16 code units; a control's
      value is a [list N] of code units.  Identifiers, class names, fixed
      messages and the [type] and [style.display] properties are ASCII
      constants of the script and are kept as [string].
    - The document is a finite map from element ids to elements; an element
      reference held by a closure is the id of the element, so that every
      holder of the reference sees the same, mutable, element.
    - Code that reads or writes the page runs in the monad [M]: a state
      monad over [world] with exceptions, where the state reached before a
      [throw] is kept, as in JavaScript. *)

From Stdlib Require Import NArith List Bool Lia Ascii.
From stdpp Require Import gmap strings list fin_maps.

Open Scope string_scope.
Open Scope list_scope.
Open Scope N_scope.

(** ** JavaScript strings *)

Module JsString.

(** The code units of an ASCII literal of the script. *)
Definition js (s : string) : list N :=
  map N_of_ascii (String.list_ascii_of_string s).

(** ECMAScript's WhiteSpace and LineTerminator code units: what the [\s]
    class of a regular expression matches and what [trim] strips. *)
Definition isWhiteSpace (c : N) : bool :=
  (c =? 0x09) || (c =? 0x0A) || (c =? 0x0B) || (c =? 0x0C) || (c =? 0x0D)
  || (c =? 0x20) || (c =? 0xA0) || (c =? 0x1680)
  || ((0x2000 <=? c) && (c <=? 0x200A))
  || (c =? 0x2028) || (c =? 0x2029) || (c =? 0x202F) || (c =? 0x205F)
  || (c =? 0x3000) || (c =? 0xFEFF).

Fixpoint trimStart (s : list N) : list N :=
  match s with
  | [] => []
  | c :: s' => if isWhiteSpace c then trimStart s' else s
  end.

Definition trimEnd (s : list N) : list N := rev (trimStart (rev s)).

(** [String.prototype.trim] *)
Definition trim (s : list N) : list N := trimEnd (trimStart s).

End JsString.

(** ** Regular expressions

    The fragment of the regular-expression language that [emailRegex] is
    written in, with a matcher by derivatives.  The pattern of the script is
    anchored at both ends ([^] ... [$], no flags), so [test] is a match of
    the whole string. *)

Module RegExp.

Inductive regex : Type :=
| Void                       (* matches nothing *)
| Eps                        (* the empty string *)
| Class (p : N -> bool)      (* one code unit of a class *)
| Seq (r1 r2 : regex)
| Alt (r1 r2 : regex)
| Star (r : regex).

(** [r+] *)
Definition Plus (r : regex) : regex := Seq r (Star r).

(** a literal code unit *)
Definition Chr (c : N) : regex := Class (N.eqb c).

Inductive Matches : regex -> list N -> Prop :=
| MEps : Matches Eps []
| MClass p c : p c = true -> Matches (Class p) [c]
| MSeq r1 r2 s1 s2 : Matches r1 s1 -> Matches r2 s2 -> Matches (Seq r1 r2) (s1 ++ s2)
| MAltL r1 r2 s : Matches r1 s -> Matches (Alt r1 r2) s
| MAltR r1 r2 s : Matches r2 s -> Matches (Alt r1 r2) s
| MStarNil r : Matches (Star r) []
| MStarApp r s1 s2 : Matches r s1 -> Matches (Star r) s2 -> Matches (Star r) (s1 ++ s2).

Fixpoint nullable (r : regex) : bool :=
  match r with
  | Void => false
  | Eps => true
  | Class _ => false
  | Seq r1 r2 => nullable r1 && nullable r2
  | Alt r1 r2 => nullable r1 || nullable r2
  | Star _ => true
  end.

Fixpoint deriv (c : N) (r : regex) : regex :=
  match r with
  | Void => Void
  | Eps => Void
  | Class p => if p c then Eps else Void
  | Seq r1 r2 =>
      if nullable r1 then Alt (Seq (deriv c r1) r2) (deriv c r2)
      else Seq (deriv c r1) r2
  | Alt r1 r2 => Alt (deriv c r1) (deriv c r2)
  | Star r1 => Seq (deriv c r1) (Star r1)
  end.

(** [r.test(s)] for an anchored pattern [r] without flags. *)
Fixpoint test (r : regex) (s : list N) : bool :=
  match s with
  | [] => nullable r
  | c :: s' => test (deriv c r) s'
  end.

End RegExp.

(** ** Values, exceptions and the two pure predicates *)

(** The arguments the validation predicates receive: a control's [value]
    (a string) or its [checked] state (a boolean). *)
Inductive value : Type :=
| VStr (s : list N)
| VBool (b : bool).

Inductive exn : Type :=
| TypeError.

(** The completion of a call: a normal return or a thrown exception. *)
Inductive res (A : Type) : Type :=
| Ok (a : A)
| Throw (e : exn).
Arguments Ok {A} a.
Arguments Throw {A} e.

(** [ToString] on the values above. *)
Definition toString (v : value) : list N :=
  match v with
  | VStr s => s
  | VBool true => JsString.js "true"
  | VBool false => JsString.js "false"
  end.

(** The class [[^\s@]]. *)
Definition notSpaceAt (c : N) : bool :=
  negb (JsString.isWhiteSpace c || (c =? 0x40)).

(** [/^[^\s@]+@[^\s@]+\.[^\s@]+$/] *)
Definition emailRegex : RegExp.regex :=
  RegExp.Seq (RegExp.Plus (RegExp.Class notSpaceAt))
    (RegExp.Seq (RegExp.Chr 0x40)
       (RegExp.Seq (RegExp.Plus (RegExp.Class notSpaceAt))
          (RegExp.Seq (RegExp.Chr 0x2E)
             (RegExp.Plus (RegExp.Class notSpaceAt))))).

(** [function isValidEmail(email)]: [RegExp.prototype.test] converts its
    argument with [ToString]. *)
Definition isValidEmail (email : value) : res bool :=
  Ok (RegExp.test emailRegex (toString email)).

(** [function isFieldValid(value)]: [value.trim().length > 0].  A boolean
    has no [trim] method, so the call [value.trim()] throws a TypeError. *)
Definition isFieldValid (v : value) : res bool :=
  match v with
  | VStr s => Ok (0 <? length (JsString.trim s))%nat
  | VBool _ => Throw TypeError
  end.

(** ** The page: elements, the document, the console and the timers *)

(** An element, with the properties the script reads or writes.  [el_form]
    is the [form] property of a control (the id of the form that owns it),
    and [el_defaultValue], [el_defaultChecked] the state [form.reset()]
    returns the control to. *)
Record htmlElement : Type := HtmlElement {
  el_type : string;
  el_value : list N;
  el_checked : bool;
  el_defaultValue : list N;
  el_defaultChecked : bool;
  el_form : option string;
  el_textContent : string;
  el_classList : gset string;
  el_display : string
}.

Definition set_value (v : list N) (e : htmlElement) : htmlElement :=
  HtmlElement (el_type e) v (el_checked e) (el_defaultValue e) (el_defaultChecked e)
    (el_form e) (el_textContent e) (el_classList e) (el_display e).
Definition set_checked (b : bool) (e : htmlElement) : htmlElement :=
  HtmlElement (el_type e) (el_value e) b (el_defaultValue e) (el_defaultChecked e)
    (el_form e) (el_textContent e) (el_classList e) (el_display e).
Definition set_textContent (t : string) (e : htmlElement) : htmlElement :=
  HtmlElement (el_type e) (el_value e) (el_checked e) (el_defaultValue e)
    (el_defaultChecked e) (el_form e) t (el_classList e) (el_display e).
Definition set_classList (c : gset string) (e : htmlElement) : htmlElement :=
  HtmlElement (el_type e) (el_value e) (el_checked e) (el_defaultValue e)
    (el_defaultChecked e) (el_form e) (el_textContent e) c (el_display e).
Definition set_display (d : string) (e : htmlElement) : htmlElement :=
  HtmlElement (el_type e) (el_value e) (el_checked e) (el_defaultValue e)
    (el_defaultChecked e) (el_form e) (el_textContent e) (el_classList e) d.

(** The object logged in place of a network submission. *)
Record payload : Type := Payload {
  p_name : list N;
  p_email : list N;
  p_subject : list N;
  p_category : list N;
  p_message : list N
}.

Inductive log_entry : Type :=
| LogText (s : string)
| LogPayload (p : payload).

(** The closure handed to [setTimeout]: it hides the success message it
    captured (a reference, or null). *)
Inductive callback : Type :=
| HideSuccess (successMessage : option string).

(** A pending timer: the time left before it fires, and its callback. *)
Record timer : Type := Timer {
  t_delay : N;
  t_callback : callback
}.

(** [defaultPrevented] is the flag of the event being dispatched. *)
Record world : Type := World {
  document : gmap string htmlElement;
  console : list log_entry;
  timers : list timer;
  defaultPrevented : bool
}.

Definition set_document (d : gmap string htmlElement) (w : world) : world :=
  World d (console w) (timers w) (defaultPrevented w).
Definition set_console (c : list log_entry) (w : world) : world :=
  World (document w) c (timers w) (defaultPrevented w).
Definition set_timers (t : list timer) (w : world) : world :=
  World (document w) (console w) t (defaultPrevented w).
Definition set_defaultPrevented (b : bool) (w : world) : world :=
  World (document w) (console w) (timers w) b.

(** ** The monad of page code *)

Definition M (A : Type) : Type := world -> world * res A.

Definition ret {A} (a : A) : M A := fun w => (w, Ok a).

Definition bind {A B} (m : M A) (k : A -> M B) : M B :=
  fun w =>
    match m w with
    | (w', Ok a) => k a w'
    | (w', Throw e) => (w', Throw e)
    end.

Definition lift {A} (r : res A) : M A := fun w => (w, r).

Notation "x <- m ;; k" := (bind m (fun x => k))
  (at level 100, m at next level, right associativity).
Notation "m ;; k" := (bind m (fun _ => k))
  (at level 100, right associativity).

(** A loop over a list that threads the variable the loop body assigns. *)
Fixpoint foldM {A S} (f : A -> S -> M S) (l : list A) (s : S) : M S :=
  match l with
  | [] => ret s
  | a :: l' => s' <- f a s ;; foldM f l' s'
  end.

(** *** The host's operations *)

(** [document.getElementById(id)]: a reference to the element, or null. *)
Definition getElementById (id : string) : M (option string) :=
  fun w => (w, Ok (match document w !! id with Some _ => Some id | None => None end)).

(** Reading a property of [o]: a TypeError when [o] is null. *)
Definition prop {A} (o : option string) (f : htmlElement -> A) : M A :=
  fun w =>
    match o ≫= (document w !!.) with
    | Some e => (w, Ok (f e))
    | None => (w, Throw TypeError)
    end.

(** Writing to the element behind a reference. *)
Definition update (r : string) (f : htmlElement -> htmlElement) : M unit :=
  fun w => (set_document (alter f r (document w)) w, Ok tt).

(** [e.preventDefault()] *)
Definition preventDefault : M unit :=
  fun w => (set_defaultPrevented true w, Ok tt).

(** [console.log(x)] *)
Definition console_log (x : log_entry) : M unit :=
  fun w => (set_console (console w ++ [x]) w, Ok tt).

(** [setTimeout(cb, ms)] *)
Definition setTimeout (cb : callback) (ms : N) : M unit :=
  fun w => (set_timers (timers w ++ [Timer ms cb]) w, Ok tt).

(** [form.reset()]: every control owned by the form returns to its default
    value and checkedness. *)
Definition reset_element (form : string) (e : htmlElement) : htmlElement :=
  if bool_decide (el_form e = Some form)
  then set_checked (el_defaultChecked e) (set_value (el_defaultValue e) e)
  else e.

Definition reset (form : string) : M unit :=
  fun w => (set_document (reset_element form <$> document w) w, Ok tt).

(** ** The script *)

(** [function showFieldError(fieldId, message)] *)
Definition showFieldError (fieldId message : string) : M unit :=
  errorElement <- getElementById (fieldId +:+ "Error") ;;
  match errorElement with
  | Some errorElement =>
      update errorElement (set_textContent message) ;;
      update errorElement (fun e => set_classList (el_classList e ∪ {["show"]}) e)
  | None => ret tt
  end.

(** [function clearFieldError(fieldId)] *)
Definition clearFieldError (fieldId : string) : M unit :=
  errorElement <- getElementById (fieldId +:+ "Error") ;;
  match errorElement with
  | Some errorElement =>
      update errorElement (set_textContent "") ;;
      update errorElement (fun e => set_classList (el_classList e ∖ {["show"]}) e)
  | None => ret tt
  end.

(** An entry of the [fields] table. *)
Record fieldData : Type := FieldData {
  element : option string;
  validate : value -> M bool;
  errorMsg : string
}.

(** The [fields] object literal of [initializeContactForm]. *)
Record fields : Type := Fields {
  name : fieldData;
  email : fieldData;
  subject : fieldData;
  category : fieldData;
  message : fieldData;
  consent : fieldData
}.

(** [Object.entries(fields)], in the order the keys were written. *)
Definition entries (fs : fields) : list (string * fieldData) :=
  [ ("name", name fs); ("email", email fs); ("subject", subject fs);
    ("category", category fs); ("message", message fs); ("consent", consent fs) ].

(** [(val) => document.getElementById('consent').checked] *)
Definition consentChecked (val : value) : M bool :=
  c <- getElementById "consent" ;; prop c el_checked.

Definition makeFields : M fields :=
  e_name <- getElementById "name" ;;
  e_email <- getElementById "email" ;;
  e_subject <- getElementById "subject" ;;
  e_category <- getElementById "category" ;;
  e_message <- getElementById "message" ;;
  e_consent <- getElementById "consent" ;;
  ret (Fields
    (FieldData e_name (fun v => lift (isFieldValid v)) "Please enter your full name")
    (FieldData e_email (fun v => lift (isValidEmail v)) "Please enter a valid email address")
    (FieldData e_subject (fun v => lift (isFieldValid v)) "Please enter a subject")
    (FieldData e_category (fun v => lift (isFieldValid v)) "Please select a category")
    (FieldData e_message (fun v => lift (isFieldValid v)) "Please enter a message")
    (FieldData e_consent consentChecked "You must agree to the Privacy Policy")).

(** [fieldData.element.value ||
     (fieldData.element.type === 'checkbox' ? fieldData.element.checked : '')]:
    a non-empty string is truthy, the empty string is not. *)
Definition currentValue (fieldData : fieldData) : M value :=
  v <- prop (element fieldData) el_value ;;
  match v with
  | _ :: _ => ret (VStr v)
  | [] =>
      t <- prop (element fieldData) el_type ;;
      if bool_decide (t = "checkbox")
      then c <- prop (element fieldData) el_checked ;; ret (VBool c)
      else ret (VStr [])
  end.

(** The blur listener of a field. *)
Definition onBlur (fieldId : string) (fieldData : fieldData) : M unit :=
  value <- currentValue fieldData ;;
  ok <- validate fieldData value ;;
  if negb ok
  then showFieldError fieldId (errorMsg fieldData)
  else clearFieldError fieldId.

(** The input and the change listeners of a field. *)
Definition onInput (fieldId : string) : M unit := clearFieldError fieldId.
Definition onChange (fieldId : string) : M unit := clearFieldError fieldId.

(** The loop of the submit listener; the variable [isFormValid] that its
    body assigns is threaded through the iterations. *)
Definition validateAll (fs : fields) : M bool :=
  foldM (fun '(fieldId, fieldData) (isFormValid : bool) =>
           value <- currentValue fieldData ;;
           ok <- validate fieldData value ;;
           if negb ok
           then showFieldError fieldId (errorMsg fieldData) ;; ret false
           else clearFieldError fieldId ;; ret isFormValid)
        (entries fs) true.

(** The branch [if (isFormValid) { ... }] of the submit listener. *)
Definition successPath (form : string) (fs : fields) : M unit :=
  successMessage <- getElementById "successMessage" ;;
  match successMessage with
  | Some s => update s (set_display "block")
  | None => ret tt
  end ;;
  reset form ;;
  setTimeout (HideSuccess successMessage) 5000 ;;
  console_log (LogText "Form submitted successfully") ;;
  p_n <- prop (element (name fs)) el_value ;;
  p_e <- prop (element (email fs)) el_value ;;
  p_s <- prop (element (subject fs)) el_value ;;
  p_c <- prop (element (category fs)) el_value ;;
  p_m <- prop (element (message fs)) el_value ;;
  console_log (LogPayload (Payload p_n p_e p_s p_c p_m)).

(** The submit listener. *)
Definition onSubmit (form : string) (fs : fields) : M unit :=
  preventDefault ;;
  isFormValid <- validateAll fs ;;
  if isFormValid then successPath form fs else ret tt.

(** The timer callback. *)
Definition runCallback (cb : callback) : M unit :=
  match cb with
  | HideSuccess (Some s) => update s (set_display "none")
  | HideSuccess None => ret tt
  end.

(** A registered listener. *)
Record listener : Type := Listener {
  l_target : string;
  l_type : string;
  l_handler : M unit
}.

(** [function initializeContactForm()]: the listeners it registers. *)
Definition initializeContactForm : M (list listener) :=
  form <- getElementById "contactForm" ;;
  match form with
  | None => ret []
  | Some form =>
      fs <- makeFields ;;
      ls <- foldM (fun '(fieldId, fieldData) (ls : list listener) =>
                     match element fieldData with
                     | Some el =>
                         ret (ls ++ [ Listener el "blur" (onBlur fieldId fieldData);
                                      Listener el "input" (onInput fieldId);
                                      Listener el "change" (onChange fieldId) ])
                     | None => ret ls
                     end)
                  (entries fs) [] ;;
      ret (ls ++ [ Listener form "submit" (onSubmit form fs) ])
  end.

(** *** The host's event loop *)

(** Dispatching an event of a type at a target runs the listeners
    registered for them, in order, on a fresh event object. *)
Definition listens (target type : string) (l : listener) : bool :=
  bool_decide (l_target l = target) && bool_decide (l_type l = type).

Definition dispatchEvent (ls : list listener) (target type : string) : M unit :=
  (fun w => (set_defaultPrevented false w, Ok tt)) ;;
  foldM (fun l _ => l_handler l) (filter (fun l => listens target type l = true) ls) tt.

(** The passage of [ms] milliseconds: the timers that are due fire, in the
    order they were set (every timer of the script is set with the same
    delay, so that order is the order they fall due in). *)
Definition elapse (ms : N) : M unit :=
  fun w =>
    let due := filter (fun t => (t_delay t <=? ms) = true) (timers w) in
    let pending :=
      map (fun t => Timer (t_delay t - ms) (t_callback t))
          (filter (fun t => (t_delay t <=? ms) = false) (timers w)) in
    foldM (fun t _ => runCallback (t_callback t)) due tt (set_timers pending w).

(** ** The specification's reading of a valid email address

    [local-part@domain.part]: the local part and the domain (the whole of
    what follows the "@") exclude whitespace and "@", and the domain holds a
    "." that has something before it and something after it. *)

Definition excludesSpaceAt (s : list N) : Prop :=
  Forall (fun c => JsString.isWhiteSpace c = false /\ c <> 0x40) s.

Definition emailShape (s : list N) : Prop :=
  exists localPart domain part : list N,
    s = localPart ++ [0x40] ++ domain ++ [0x2E] ++ part
    /\ localPart <> [] /\ domain <> [] /\ part <> []
    /\ excludesSpaceAt localPart
    /\ excludesSpaceAt (domain ++ [0x2E] ++ part).

(** ** Vocabulary of the statements *)

(** The reference [getElementById] returns on page [w]. *)
Definition ref (w : world) (id : string) : option string :=
  match document w !! id with Some _ => Some id | None => None end.

(** The [fields] table that [initializeContactForm] builds on page [w]. *)
Definition fieldsOf (w : world) : fields :=
  Fields
    (FieldData (ref w "name") (fun v => lift (isFieldValid v)) "Please enter your full name")
    (FieldData (ref w "email") (fun v => lift (isValidEmail v)) "Please enter a valid email address")
    (FieldData (ref w "subject") (fun v => lift (isFieldValid v)) "Please enter a subject")
    (FieldData (ref w "category") (fun v => lift (isFieldValid v)) "Please select a category")
    (FieldData (ref w "message") (fun v => lift (isFieldValid v)) "Please enter a message")
    (FieldData (ref w "consent") consentChecked "You must agree to the Privacy Policy").

(** The outcome of a field's predicate on the current values of page [w]. *)
Definition passes (fd : fieldData) (w : world) : res bool :=
  snd ((value <- currentValue fd ;; validate fd value) w).

(** The error annotation of a field: the text of its error element and
    whether the element is shown. *)
Definition annotation (w : world) (fieldId : string) : option (string * bool) :=
  (fun e => (el_textContent e, bool_decide ("show" ∈ el_classList e)))
    <$> document w !! (fieldId +:+ "Error").

(** The two updates the script makes to an error element, and an update
    of the error element of a field. *)
Definition shown (message : string) (e : htmlElement) : htmlElement :=
  set_classList (el_classList e ∪ {["show"]}) (set_textContent message e).

Definition cleared (e : htmlElement) : htmlElement :=
  set_classList (el_classList e ∖ {["show"]}) (set_textContent "" e).

Definition annotate (f : htmlElement -> htmlElement) (fieldId : string) (w : world) : world :=
  set_document (alter f (fieldId +:+ "Error") (document w)) w.

(** The update a validation pass makes for a field that passed or not. *)
Definition verdict (fd : fieldData) (ok : bool) : htmlElement -> htmlElement :=
  if ok then cleared else shown (errorMsg fd).

(** The properties of a control that the predicates read. *)
Definition controlView (e : htmlElement) : string * list N * bool :=
  (el_type e, el_value e, el_checked e).

(** Two pages whose elements show the same control properties. *)
Definition sameControls (w w' : world) : Prop :=
  forall id, controlView <$> document w' !! id = controlView <$> document w !! id.

(** The value a listener reads from a control (null when it is absent). *)
Definition valueOf (o : option htmlElement) : res value :=
  match o with
  | None => Throw TypeError
  | Some e =>
      match el_value e with
      | _ :: _ => Ok (VStr (el_value e))
      | [] => if bool_decide (el_type e = "checkbox")
              then Ok (VBool (el_checked e)) else Ok (VStr [])
      end
  end.

(** The predicates of the rule table. *)
Definition tableValidator (val : value -> M bool) : Prop :=
  val = (fun v => lift (isFieldValid v))
  \/ val = (fun v => lift (isValidEmail v))
  \/ val = consentChecked.

(** Entries whose predicates are predicates of the rule table. *)
Definition tableEntries (l : list (string * fieldData)) : Prop :=
  Forall (fun entry => tableValidator (validate entry.2)) l.

(** The body of the loop of [validateAll]. *)
Definition validateStep (entry : string * fieldData) (isFormValid : bool) : M bool :=
  let '(fieldId, fieldData) := entry in
  value <- currentValue fieldData ;;
  ok <- validate fieldData value ;;
  if negb ok
  then showFieldError fieldId (errorMsg fieldData) ;; ret false
  else clearFieldError fieldId ;; ret isFormValid.

(** What an update of error annotations leaves alone: every element keeps
    its control properties, its defaults, its owner and its display. *)
Definition sameButAnnotation (e e' : htmlElement) : Prop :=
  el_type e' = el_type e /\ el_value e' = el_value e /\ el_checked e' = el_checked e
  /\ el_defaultValue e' = el_defaultValue e
  /\ el_defaultChecked e' = el_defaultChecked e
  /\ el_form e' = el_form e /\ el_display e' = el_display e.

(** Between [w] and [w'] only error annotations of the fields [ids] were
    updated. *)
Definition annotationsOnly (ids : list string) (w w' : world) : Prop :=
  console w' = console w /\ timers w' = timers w
  /\ defaultPrevented w' = defaultPrevented w
  /\ forall k,
       (k ∉ (fun id => id +:+ "Error") <$> ids -> document w' !! k = document w !! k)
       /\ option_Forall2 sameButAnnotation (document w !! k) (document w' !! k).

(** The annotation a validation pass leaves on a field that passed or not. *)
Definition annotationAfter (fd : fieldData) (ok : bool) : string * bool :=
  if ok then ("", false) else (errorMsg fd, true).

(** Two pages with the same elements. *)
Definition sameElements (w w' : world) : Prop :=
  forall k, is_Some (document w !! k) <-> is_Some (document w' !! k).

(** The ids of the six fields, in the order of the table. *)
Definition fieldIds : list string :=
  ["name"; "email"; "subject"; "category"; "message"; "consent"].

(** The page has the six controls, and the four required text controls
    hold strings (none of them is a checkbox without a value). *)
Definition textControl (w : world) (id : string) : Prop :=
  exists e, document w !! id = Some e /\ (el_value e <> [] \/ el_type e <> "checkbox").

Definition wellFormed (w : world) : Prop :=
  textControl w "name" /\ is_Some (document w !! "email")
  /\ textControl w "subject" /\ textControl w "category"
  /\ textControl w "message" /\ is_Some (document w !! "consent").


(** The document after the success path: the success message is displayed
    and the form is reset. *)
Definition documentAfterSuccess (form : string) (w : world) : gmap string htmlElement :=
  reset_element form <$> alter (set_display "block") "successMessage" (document w).

(** The payload holds the values the five controls have in document [d]. *)
Definition payloadRead (d : gmap string htmlElement) (p : payload) : Prop :=
  el_value <$> d !! "name" = Some (p_name p)
  /\ el_value <$> d !! "email" = Some (p_email p)
  /\ el_value <$> d !! "subject" = Some (p_subject p)
  /\ el_value <$> d !! "category" = Some (p_category p)
  /\ el_value <$> d !! "message" = Some (p_message p).

(** The success path was taken between [w] and [w']: its two log entries
    and its timer were added. *)
Definition successTaken (w w' : world) : Prop :=
  exists p, console w' = console w ++ [LogText "Form submitted successfully"; LogPayload p]
            /\ timers w' = timers w ++ [Timer 5000 (HideSuccess (ref w "successMessage"))].

(** The listeners the wiring loop registers for an entry of the table. *)
Definition fieldListeners (entry : string * fieldData) : list listener :=
  match element entry.2 with
  | Some el => [ Listener el "blur" (onBlur entry.1 entry.2);
                 Listener el "input" (onInput entry.1);
                 Listener el "change" (onChange entry.1) ]
  | None => []
  end.

(** The listeners [initializeContactForm] registers on page [w]. *)
Definition listenersOf (w : world) : list listener :=
  match ref w "contactForm" with
  | None => []
  | Some form =>
      concat (map fieldListeners (entries (fieldsOf w)))
      ++ [ Listener form "submit" (onSubmit form (fieldsOf w)) ]
  end.

(** *** Sample pages *)

Definition plainElement (display : string) : htmlElement :=
  HtmlElement "" [] false [] false None "" ∅ display.

Definition control (type : string) (value : list N) (checked : bool)
    (defaultValue : list N) : htmlElement :=
  HtmlElement type value checked defaultValue false (Some "contactForm") "" ∅ "".

(** A contact page as the markup supplies it: the form, the six controls
    with blank defaults, their error elements and the success message. *)
Definition contactPage (n e s c m : list N) (agree : bool) : world :=
  World
    (list_to_map
       [ ("contactForm", plainElement "");
         ("name", control "text" n false []);
         ("email", control "email" e false []);
         ("subject", control "text" s false []);
         ("category", control "select-one" c false []);
         ("message", control "textarea" m false []);
         ("consent", control "checkbox" (JsString.js "on") agree (JsString.js "on"));
         ("nameError", plainElement ""); ("emailError", plainElement "");
         ("subjectError", plainElement ""); ("categoryError", plainElement "");
         ("messageError", plainElement ""); ("consentError", plainElement "");
         ("successMessage", plainElement "none") ])
    [] [] false.

(** A page filled in with valid values and consent given. *)
Definition filledPage : world :=
  contactPage (JsString.js "Ada") (JsString.js "user@example.com")
    (JsString.js "Order") (JsString.js "support") (JsString.js "Hello") true.

(** A page the markup of which has no subject control: the name and the
    message are empty and consent is not given. *)
Definition missingSubjectPage : world :=
  let w := contactPage [] (JsString.js "user@example.com") []
             (JsString.js "support") [] false in
  set_document (delete "subject" (document w)) w.

(** A page with three invalid fields: the email address has no ".", the
    subject is empty and consent is not given. *)
Definition partlyFilledPage : world :=
  contactPage (JsString.js "Ada") (JsString.js "user@example") []
    (JsString.js "support") (JsString.js "Hello") false.

(** A page with a stale error.  The email field is left (blur) with an
    address that has no ".", which shows its error; the address is then
    replaced by a valid one without an input event (a script or a password
    manager assigning [value]).  The subject is empty. *)
Definition staleErrorPage : world :=
  let w0 := contactPage (JsString.js "Ada") (JsString.js "user@example") []
              (JsString.js "support") (JsString.js "Hello") true in
  let w1 := fst (dispatchEvent (listenersOf w0) "email" "blur" w0) in
  set_document
    (alter (set_value (JsString.js "user@example.com")) "email" (document w1)) w1.

(** A page whose markup supplies valid default values and a checked consent
    box (a form filled in ahead for a known visitor), so that the form is
    valid again after a reset. *)
Definition prefilled (type : string) (value : list N) (checked : bool) : htmlElement :=
  HtmlElement type value checked value checked (Some "contactForm") "" ∅ "".

Definition prefilledPage : world :=
  World
    (list_to_map
       [ ("contactForm", plainElement "");
         ("name", prefilled "text" (JsString.js "Ada") false);
         ("email", prefilled "email" (JsString.js "user@example.com") false);
         ("subject", prefilled "text" (JsString.js "Order") false);
         ("category", prefilled "select-one" (JsString.js "support") false);
         ("message", prefilled "textarea" (JsString.js "Hello") false);
         ("consent", prefilled "checkbox" (JsString.js "on") true);
         ("nameError", plainElement ""); ("emailError", plainElement "");
         ("subjectError", plainElement ""); ("categoryError", plainElement "");
         ("messageError", plainElement ""); ("consentError", plainElement "");
         ("successMessage", plainElement "none") ])
    [] [] false.

(** The prefilled page 3000 ms after a first, valid submit: the success
    message is displayed and the timer that hides it has 2000 ms left. *)
Definition submittedPage : world :=
  fst (elapse 3000 (fst (onSubmit "contactForm" (fieldsOf prefilledPage) prefilledPage))).

(** ** The other features of the script

    The navigation menu, the in-page links, the reveal animations, the lazy
    images, the accessibility helpers, the theme detection and the
    initialization sequence of [main.js], on a model of the rest of the page.

    - The document is a tree of elements.  An element is known by a handle;
      [order] lists the handles in tree order and [ancestors] gives, for
      each element, its parent, its grandparent and so on up to the root.
      Every handle the script holds comes from a query of the document, and
      the script removes no element: the branches below for a handle
      without an element are never taken by it.
    - A closure the script registers (a listener, an observer callback) is
      kept as a [handler] or an [observerCallback] that holds what the
      closure captured; [runHandler] and [runCallback] are their bodies.
    - What the host alone decides is data of the page: the layout
      ([offsetTop], [offsetHeight]), the features it has, the media query,
      the address, and the selector engine behind [document.querySelector]
      for the selectors that the links of the page carry.
    - The contact form keeps its own state, [form], the [world] above: the
      form code and the code below touch different properties. *)

Module Site.

Inductive error : Type :=
| JsTypeError
| JsReferenceError
| JsSyntaxError.

(** The completion of a call: normal, or abrupt with an exception. *)
Inductive completion (A : Type) : Type :=
| Normal (a : A)
| Abrupt (e : error).
Arguments Normal {A} a.
Arguments Abrupt {A} e.

Record elem : Type := Elem {
  tagName : string;
  ancestors : list nat;
  classList : gset string;
  attributes : gmap string string;
  style : gmap string string;
  textContent : string;
  offsetTop : Z;
  offsetHeight : Z
}.

Definition set_ancestors (a : list nat) (e : elem) : elem :=
  Elem (tagName e) a (classList e) (attributes e) (style e) (textContent e)
    (offsetTop e) (offsetHeight e).
Definition set_classList (c : gset string) (e : elem) : elem :=
  Elem (tagName e) (ancestors e) c (attributes e) (style e) (textContent e)
    (offsetTop e) (offsetHeight e).
Definition set_attributes (a : gmap string string) (e : elem) : elem :=
  Elem (tagName e) (ancestors e) (classList e) a (style e) (textContent e)
    (offsetTop e) (offsetHeight e).
Definition set_style (s : gmap string string) (e : elem) : elem :=
  Elem (tagName e) (ancestors e) (classList e) (attributes e) s (textContent e)
    (offsetTop e) (offsetHeight e).
Definition set_textContent (t : string) (e : elem) : elem :=
  Elem (tagName e) (ancestors e) (classList e) (attributes e) (style e) t
    (offsetTop e) (offsetHeight e).

(** What an event carries: the element it is fired at, the key of a
    keyboard event, the [matches] of a media-query change. *)
Record event : Type := Event {
  target : nat;
  key : string;
  matches : bool
}.

(** Where a listener is registered. *)
Inductive eventTarget : Type :=
| OnElement (h : nat)
| OnDocument
| OnWindow
| OnColorScheme                 (* the MediaQueryList of prefers-color-scheme *)
| OnControl (id : string).      (* an element of the contact form *)

Global Instance eventTarget_eq_dec : EqDecision eventTarget.
Proof. solve_decision. Defined.

(** The closures registered as listeners, with what they captured. *)
Inductive handler : Type :=
| NavToggleClick (navToggle navMenu : nat)
| NavLinkClick (navToggle navMenu : nat)
| NavOutsideClick (navToggle navMenu : nat)
| AnchorClick (anchor : nat)
| TabKeydown
| AnyMousedown
| SkipLinkFocus (skipLink : nat)
| SkipLinkBlur (skipLink : nat)
| SkipLinkClick
| ColorSchemeChange
| FormListener (h : M unit).

Record registration : Type := Registration {
  r_target : eventTarget;
  r_type : string;
  r_handler : handler
}.

(** The callbacks given to [new IntersectionObserver]. *)
Inductive observerCallback : Type :=
| RevealOnIntersect
| LoadOnIntersect.

Record observer : Type := Observer {
  callback : observerCallback;
  targets : list nat
}.

(** What the host provides and the script only reads. *)
Record host : Type := Host {
  documentElement : nat;
  body : option nat;
  pathname : string;                (* window.location.pathname *)
  hasIntersectionObserver : bool;   (* 'IntersectionObserver' in window *)
  hasMatchMedia : bool;             (* window.matchMedia is defined *)
  prefersDark : bool;               (* matchMedia('(prefers-color-scheme: dark)').matches *)
  selectorEngine : string -> gmap nat elem -> list nat -> completion (option nat)
}.

Record page : Type := Page {
  env : host;
  elems : gmap nat elem;
  order : list nat;
  listeners : list registration;
  observers : list observer;
  scrollTarget : option Z;          (* the [top] of the last window.scrollTo *)
  focusCalls : list nat;            (* the elements [focus()] was called on *)
  log : list string;                (* console.log *)
  reported : list error;            (* exceptions no code caught *)
  defaultPrevented : bool;          (* of the event being dispatched *)
  form : world
}.

Definition set_elems (x : gmap nat elem) (p : page) : page :=
  Page (env p) x (order p) (listeners p) (observers p) (scrollTarget p)
    (focusCalls p) (log p) (reported p) (defaultPrevented p) (form p).
Definition set_order (x : list nat) (p : page) : page :=
  Page (env p) (elems p) x (listeners p) (observers p) (scrollTarget p)
    (focusCalls p) (log p) (reported p) (defaultPrevented p) (form p).
Definition set_listeners (x : list registration) (p : page) : page :=
  Page (env p) (elems p) (order p) x (observers p) (scrollTarget p)
    (focusCalls p) (log p) (reported p) (defaultPrevented p) (form p).
Definition set_observers (x : list observer) (p : page) : page :=
  Page (env p) (elems p) (order p) (listeners p) x (scrollTarget p)
    (focusCalls p) (log p) (reported p) (defaultPrevented p) (form p).
Definition set_scrollTarget (x : option Z) (p : page) : page :=
  Page (env p) (elems p) (order p) (listeners p) (observers p) x
    (focusCalls p) (log p) (reported p) (defaultPrevented p) (form p).
Definition set_focusCalls (x : list nat) (p : page) : page :=
  Page (env p) (elems p) (order p) (listeners p) (observers p) (scrollTarget p)
    x (log p) (reported p) (defaultPrevented p) (form p).
Definition set_log (x : list string) (p : page) : page :=
  Page (env p) (elems p) (order p) (listeners p) (observers p) (scrollTarget p)
    (focusCalls p) x (reported p) (defaultPrevented p) (form p).
Definition set_reported (x : list error) (p : page) : page :=
  Page (env p) (elems p) (order p) (listeners p) (observers p) (scrollTarget p)
    (focusCalls p) (log p) x (defaultPrevented p) (form p).
Definition set_defaultPrevented (x : bool) (p : page) : page :=
  Page (env p) (elems p) (order p) (listeners p) (observers p) (scrollTarget p)
    (focusCalls p) (log p) (reported p) x (form p).
Definition set_form (x : world) (p : page) : page :=
  Page (env p) (elems p) (order p) (listeners p) (observers p) (scrollTarget p)
    (focusCalls p) (log p) (reported p) (defaultPrevented p) x.

(** *** The monad of the code of the page *)

Definition SM (A : Type) : Type := page -> page * completion A.

Definition ret {A} (a : A) : SM A := fun p => (p, Normal a).

Definition bind {A B} (m : SM A) (k : A -> SM B) : SM B :=
  fun p =>
    match m p with
    | (p', Normal a) => k a p'
    | (p', Abrupt e) => (p', Abrupt e)
    end.

Definition throw {A} (e : error) : SM A := fun p => (p, Abrupt e).

Declare Scope site_scope.
Notation "x <- m ;; k" := (bind m (fun x => k))
  (at level 100, m at next level, right associativity) : site_scope.
Notation "m ;; k" := (bind m (fun _ => k))
  (at level 100, right associativity) : site_scope.
Local Open Scope site_scope.

(** [list.forEach(f)] *)
Fixpoint forEach {A} (l : list A) (f : A -> SM unit) : SM unit :=
  match l with
  | [] => ret tt
  | a :: l' => f a ;; forEach l' f
  end.

Definition when (b : bool) (m : SM unit) : SM unit := if b then m else ret tt.

(** *** The host's operations *)

Definition read {A} (f : page -> A) : SM A := fun p => (p, Normal (f p)).

(** Writing to an element. *)
Definition modify (h : nat) (f : elem -> elem) : SM unit :=
  fun p => (set_elems (alter f h (elems p)) p, Normal tt).

(** [el.classList.contains(c)] *)
Definition contains_class (h : nat) (c : string) : SM bool :=
  read (fun p => match elems p !! h with
                 | Some e => bool_decide (c ∈ classList e)
                 | None => false
                 end).

(** [el.classList.add(c)], [remove(c)], [toggle(c)] *)
Definition classList_add (h : nat) (c : string) : SM unit :=
  modify h (fun e => set_classList (classList e ∪ {[c]}) e).
Definition classList_remove (h : nat) (c : string) : SM unit :=
  modify h (fun e => set_classList (classList e ∖ {[c]}) e).
Definition classList_toggle (h : nat) (c : string) : SM unit :=
  modify h (fun e => set_classList
                       (if bool_decide (c ∈ classList e)
                        then classList e ∖ {[c]} else classList e ∪ {[c]}) e).

(** [el.getAttribute(a)] (null when absent), [setAttribute], [removeAttribute] *)
Definition getAttribute (h : nat) (a : string) : SM (option string) :=
  read (fun p => elems p !! h ≫= fun e => attributes e !! a).
Definition setAttribute (h : nat) (a v : string) : SM unit :=
  modify h (fun e => set_attributes (<[a := v]> (attributes e)) e).
Definition removeAttribute (h : nat) (a : string) : SM unit :=
  modify h (fun e => set_attributes (delete a (attributes e)) e).

(** [el.style.prop = v] *)
Definition setStyle (h : nat) (prop v : string) : SM unit :=
  modify h (fun e => set_style (<[prop := v]> (style e)) e).

(** [a.contains(b)]: [a] is [b] or an ancestor of [b]. *)
Definition contains (a b : nat) : SM bool :=
  read (fun p => match elems p !! b with
                 | Some e => bool_decide (a ∈ b :: ancestors e)
                 | None => bool_decide (a = b)
                 end).

(** The elements of the document that satisfy a selector, in tree order. *)
Definition selects (sel : nat -> elem -> bool) (p : page) (h : nat) : bool :=
  match elems p !! h with
  | Some e => sel h e
  | None => false
  end.

Definition matching (sel : nat -> elem -> bool) (p : page) : list nat :=
  filter (fun h => selects sel p h = true) (order p).

Definition querySelectorAll (sel : nat -> elem -> bool) : SM (list nat) :=
  read (matching sel).

Definition querySelector (sel : nat -> elem -> bool) : SM (option nat) :=
  read (fun p => head (matching sel p)).

(** The selectors of the script. *)
Definition has_id (id : string) (h : nat) (e : elem) : bool :=
  bool_decide (attributes e !! "id" = Some id).
Definition has_class (c : string) (h : nat) (e : elem) : bool :=
  bool_decide (c ∈ classList e).
Definition has_tag (t : string) (h : nat) (e : elem) : bool :=
  bool_decide (tagName e = t).
(** [.nav-link], within an element *)
Definition nav_link_in (scope : nat) (h : nat) (e : elem) : bool :=
  bool_decide (scope ∈ ancestors e) && has_class "nav-link" h e.
(** [a[href^="#"]] *)
Definition anchor_to_fragment (h : nat) (e : elem) : bool :=
  has_tag "a" h e &&
  match attributes e !! "href" with
  | Some (String c _) => bool_decide (c = "#"%char)
  | _ => false
  end.
(** [a[href]] *)
Definition anchor_with_href (h : nat) (e : elem) : bool :=
  has_tag "a" h e && bool_decide (is_Some (attributes e !! "href")).
(** [.feature-card, .compliance-card, .support-card] *)
Definition card (h : nat) (e : elem) : bool :=
  has_class "feature-card" h e || has_class "compliance-card" h e
  || has_class "support-card" h e.
(** [img[loading="lazy"]] *)
Definition lazy_image (h : nat) (e : elem) : bool :=
  has_tag "img" h e && bool_decide (attributes e !! "loading" = Some "lazy").

Definition getElementById (id : string) : SM (option nat) := querySelector (has_id id).

(** [document.querySelector(s)] for a selector [s] read from the page: the
    host's engine answers, with a SyntaxError for what is no selector. *)
Definition querySelectorText (s : string) : SM (option nat) :=
  fun p => (p, selectorEngine (env p) s (elems p) (order p)).

(** [target.addEventListener(type, h)] *)
Definition addEventListener (t : eventTarget) (type : string) (h : handler) : SM unit :=
  fun p => (set_listeners (listeners p ++ [Registration t type h]) p, Normal tt).

(** [e.preventDefault()] *)
Definition preventDefault : SM unit :=
  fun p => (set_defaultPrevented true p, Normal tt).

(** [console.log(s)] *)
Definition console_log (s : string) : SM unit :=
  fun p => (set_log (log p ++ [s]) p, Normal tt).

(** [window.scrollTo({ top, behavior: 'smooth' })] *)
Definition scrollTo (top : Z) : SM unit :=
  fun p => (set_scrollTarget (Some top) p, Normal tt).

(** [el.focus()] *)
Definition focus (h : nat) : SM unit :=
  fun p => (set_focusCalls (focusCalls p ++ [h]) p, Normal tt).

(** [new IntersectionObserver(cb)]: a ReferenceError where the host has no
    such constructor; the new observer is known by its rank. *)
Definition newIntersectionObserver (cb : observerCallback) : SM nat :=
  fun p =>
    if hasIntersectionObserver (env p)
    then (set_observers (observers p ++ [Observer cb []]) p,
          Normal (length (observers p)))
    else (p, Abrupt JsReferenceError).

(** [observer.observe(el)], [observer.unobserve(el)] *)
Definition observe (o : nat) (h : nat) : SM unit :=
  fun p => (set_observers
              (alter (fun ob => Observer (callback ob)
                                  (if bool_decide (h ∈ targets ob) then targets ob
                                   else targets ob ++ [h])) o (observers p)) p,
            Normal tt).
Definition unobserve (o : nat) (h : nat) : SM unit :=
  fun p => (set_observers
              (alter (fun ob => Observer (callback ob)
                                  (filter (fun x => x <> h) (targets ob))) o
                 (observers p)) p,
            Normal tt).

(** [document.createElement(tag)]: a new element, outside the tree. *)
Definition createElement (tag : string) : SM nat :=
  fun p =>
    let h := fresh (dom (elems p)) in
    (set_elems (<[h := Elem tag [] ∅ ∅ ∅ "" 0 0]> (elems p)) p, Normal h).

(** [parent.insertBefore(child, parent.firstChild)]: [child] becomes the
    first child of [parent]. *)
Fixpoint insertAfter (x new : nat) (l : list nat) : list nat :=
  match l with
  | [] => []
  | y :: l' => if decide (y = x) then y :: new :: l' else y :: insertAfter x new l'
  end.

Definition insertFirstChild (parent child : nat) : SM unit :=
  fun p =>
    let up := match elems p !! parent with
              | Some e => parent :: ancestors e
              | None => [parent]
              end in
    (set_order (insertAfter parent child (order p))
       (set_elems (alter (set_ancestors up) child (elems p)) p), Normal tt).

(** Running the code of the contact form on its own state. *)
Definition liftForm {A} (m : M A) : SM A :=
  fun p =>
    match m (form p) with
    | (w, Ok a) => (set_form w p, Normal a)
    | (w, Throw TypeError) => (set_form w p, Abrupt JsTypeError)
    end.

(** [document.body], [document.documentElement], [window.location.pathname] *)
Definition document_body : SM nat :=
  fun p => match body (env p) with
           | Some b => (p, Normal b)
           | None => (p, Abrupt JsTypeError)     (* a property of null is read *)
           end.

(** [window.matchMedia('(prefers-color-scheme: dark)')]: a TypeError where
    the host has no [matchMedia]. *)
Definition matchMedia : SM unit :=
  fun p => if hasMatchMedia (env p) then (p, Normal tt) else (p, Abrupt JsTypeError).

(** *** The listeners *)

Definition runHandler (h : handler) (e : event) : SM unit :=
  match h with
  | NavToggleClick navToggle navMenu =>
      classList_toggle navMenu "active" ;;
      classList_toggle navToggle "active" ;;
      isExpanded <- contains_class navToggle "active" ;;
      setAttribute navToggle "aria-expanded" (if isExpanded then "true" else "false")
  | NavLinkClick navToggle navMenu =>
      classList_remove navMenu "active" ;;
      classList_remove navToggle "active" ;;
      setAttribute navToggle "aria-expanded" "false"
  | NavOutsideClick navToggle navMenu =>
      inToggle <- contains navToggle (target e) ;;
      inMenu <- contains navMenu (target e) ;;
      when (negb inToggle && negb inMenu)
        (classList_remove navMenu "active" ;;
         classList_remove navToggle "active" ;;
         setAttribute navToggle "aria-expanded" "false")
  | AnchorClick anchor =>
      href <- getAttribute anchor "href" ;;
      if bool_decide (href = Some "#") then ret tt
      else
        target <- querySelectorText (default "null" href) ;;
        match target with
        | Some target =>
            preventDefault ;;
            header <- querySelector (has_class "header") ;;
            headerHeight <-
              match header with
              | Some header =>
                  read (fun p => from_option offsetHeight 0%Z (elems p !! header))
              | None => throw JsTypeError
              end ;;
            top <- read (fun p => from_option offsetTop 0%Z (elems p !! target)) ;;
            scrollTo (top - headerHeight)%Z
        | None => ret tt
        end
  | TabKeydown =>
      when (bool_decide (key e = "Tab"))
        (b <- document_body ;; classList_add b "keyboard-nav")
  | AnyMousedown =>
      b <- document_body ;; classList_remove b "keyboard-nav"
  | SkipLinkFocus skipLink => setStyle skipLink "top" "0"
  | SkipLinkBlur skipLink => setStyle skipLink "top" "-40px"
  | SkipLinkClick =>
      preventDefault ;;
      main <- querySelector (has_tag "main") ;;
      match main with
      | Some main => focus main
      | None => throw JsTypeError
      end
  | ColorSchemeChange =>
      root <- read (fun p => documentElement (env p)) ;;
      if matches e then setAttribute root "data-theme" "dark"
      else removeAttribute root "data-theme"
  | FormListener h => liftForm h
  end.

(** The callbacks of the two observers, on the entries the host reports:
    each a target and whether it intersects. *)
Definition runCallback (cb : observerCallback) (o : nat) (entries : list (nat * bool)) : SM unit :=
  match cb with
  | RevealOnIntersect =>
      forEach entries (fun entry =>
        when entry.2
          (setStyle entry.1 "opacity" "1" ;;
           setStyle entry.1 "transform" "translateY(0)"))
  | LoadOnIntersect =>
      forEach entries (fun entry =>
        when entry.2
          (src <- getAttribute entry.1 "data-src" ;;
           setAttribute entry.1 "src" (default "undefined" src) ;;
           removeAttribute entry.1 "loading" ;;
           unobserve o entry.1))
  end.

(** *** The functions of the script *)

(** [function initializeNavigation()] *)
Definition initializeNavigation : SM unit :=
  navToggle <- getElementById "navToggle" ;;
  navMenu <- getElementById "navMenu" ;;
  match navToggle, navMenu with
  | Some navToggle, Some navMenu =>
      addEventListener (OnElement navToggle) "click" (NavToggleClick navToggle navMenu) ;;
      navLinks <- querySelectorAll (nav_link_in navMenu) ;;
      forEach navLinks (fun link =>
        addEventListener (OnElement link) "click" (NavLinkClick navToggle navMenu)) ;;
      addEventListener OnDocument "click" (NavOutsideClick navToggle navMenu) ;;
      currentPath <- read (fun p => pathname (env p)) ;;
      forEach navLinks (fun link =>
        classList_remove link "active" ;;
        href <- getAttribute link "href" ;;
        when (bool_decide (href = Some currentPath)) (classList_add link "active"))
  | _, _ => ret tt
  end.

(** [function initializeSmoothScroll()] *)
Definition initializeSmoothScroll : SM unit :=
  anchors <- querySelectorAll anchor_to_fragment ;;
  forEach anchors (fun anchor =>
    addEventListener (OnElement anchor) "click" (AnchorClick anchor)).

(** [function initializeAnimations()] *)
Definition initializeAnimations : SM unit :=
  observer <- newIntersectionObserver RevealOnIntersect ;;
  cards <- querySelectorAll card ;;
  forEach cards (fun el =>
    setStyle el "opacity" "0" ;;
    setStyle el "transform" "translateY(20px)" ;;
    setStyle el "transition" "opacity 0.6s ease-out, transform 0.6s ease-out" ;;
    observe observer el).

(** [function initializeLazyLoading()] *)
Definition initializeLazyLoading : SM unit :=
  images <- querySelectorAll lazy_image ;;
  hasObserver <- read (fun p => hasIntersectionObserver (env p)) ;;
  if hasObserver
  then
    imageObserver <- newIntersectionObserver LoadOnIntersect ;;
    forEach images (fun img => observe imageObserver img)
  else
    forEach images (fun img =>
      src <- getAttribute img "data-src" ;;
      setAttribute img "src" (default "undefined" src)).

(** The inline style the skip link is created with. *)
Definition skipLinkStyle : gmap string string :=
  list_to_map
    [ ("position", "absolute"); ("top", "-40px"); ("left", "0");
      ("background", "var(--primary-color)"); ("color", "white");
      ("padding", "8px"); ("border-radius", "4px"); ("z-index", "1000") ].

(** [function initializeAccessibility()] *)
Definition initializeAccessibility : SM unit :=
  addEventListener OnDocument "keydown" TabKeydown ;;
  addEventListener OnDocument "mousedown" AnyMousedown ;;
  currentPath <- read (fun p => pathname (env p)) ;;
  links <- querySelectorAll anchor_with_href ;;
  forEach links (fun link =>
    href <- getAttribute link "href" ;;
    when (bool_decide (href = Some currentPath))
      (setAttribute link "aria-current" "page")) ;;
  skipLink <- createElement "a" ;;
  setAttribute skipLink "href" "#" ;;
  modify skipLink (set_textContent "Skip to main content") ;;
  modify skipLink (set_style skipLinkStyle) ;;
  addEventListener (OnElement skipLink) "focus" (SkipLinkFocus skipLink) ;;
  addEventListener (OnElement skipLink) "blur" (SkipLinkBlur skipLink) ;;
  addEventListener (OnElement skipLink) "click" SkipLinkClick ;;
  b <- document_body ;;
  insertFirstChild b skipLink.

(** [function initializeDarkModeDetection()] *)
Definition initializeDarkModeDetection : SM unit :=
  hasMedia <- read (fun p => hasMatchMedia (env p)) ;;
  prefers <- (if hasMedia then read (fun p => prefersDark (env p)) else ret false) ;;
  when prefers
    (root <- read (fun p => documentElement (env p)) ;;
     setAttribute root "data-theme" "dark") ;;
  matchMedia ;;
  addEventListener OnColorScheme "change" ColorSchemeChange.

(** The call [initializeContactForm()] within the page: the listeners it
    returns in the model above are registered. *)
Definition initializeContactForm_ : SM unit :=
  ls <- liftForm initializeContactForm ;;
  forEach ls (fun l =>
    addEventListener (OnControl (l_target l)) (l_type l) (FormListener (l_handler l))).

(** The listener of [DOMContentLoaded]. *)
Definition onDOMContentLoaded : SM unit :=
  initializeNavigation ;;
  initializeContactForm_ ;;
  initializeSmoothScroll ;;
  initializeAnimations ;;
  initializeLazyLoading ;;
  initializeAccessibility ;;
  initializeDarkModeDetection ;;
  console_log "TrendyWear Finds website initialized".

(** *** The host's event loop *)

(** A listener that throws ends alone: the exception is reported and the
    dispatch goes on. *)
Definition runListener (r : registration) (e : event) : SM unit :=
  fun p =>
    match runHandler (r_handler r) e p with
    | (p', Normal _) => (p', Normal tt)
    | (p', Abrupt err) => (set_reported (reported p' ++ [err]) p', Normal tt)
    end.

Definition listensAt (t : eventTarget) (type : string) (r : registration) : bool :=
  bool_decide (r_target r = t) && bool_decide (r_type r = type).

(** The dispatch of an event along its path: at each target of the path in
    turn, the listeners registered there for the type, in the order they
    were registered. *)
Definition dispatchEvent (path : list eventTarget) (type : string) (e : event) : SM unit :=
  (fun p => (set_defaultPrevented false p, Normal tt)) ;;
  ls <- read listeners ;;
  forEach path (fun t =>
    forEach (filter (fun r => listensAt t type r = true) ls) (fun r => runListener r e)).

(** An event that bubbles (click, keydown, mousedown): from its target up
    through the ancestors to the document and the window. *)
Definition bubble (type : string) (e : event) : SM unit :=
  up <- read (fun p => from_option ancestors [] (elems p !! target e)) ;;
  dispatchEvent ((OnElement <$> target e :: up) ++ [OnDocument; OnWindow]) type e.

Definition click (t : nat) : SM unit := bubble "click" (Event t "" false).

(** The host reports intersections to an observer. *)
Definition intersect (o : nat) (entries : list (nat * bool)) : SM unit :=
  obs <- read observers ;;
  match obs !! o with
  | Some ob => runCallback (callback ob) o entries
  | None => ret tt
  end.

(** *** Vocabulary of the statements about the page *)

Definition hasClass (p : page) (h : nat) (c : string) : bool :=
  match elems p !! h with
  | Some e => bool_decide (c ∈ classList e)
  | None => false
  end.

(** An attribute of an element.  The page keeps the classes of an element
    in [classList] and its inline style in [style], not among [attributes]:
    what the script does to the [class] and [style] attributes of the real
    element is read with [hasClass] and [styleOf], and a statement about
    every attribute excepts these two by name. *)
Definition attribute (p : page) (h : nat) (a : string) : option string :=
  elems p !! h ≫= fun e => attributes e !! a.

Definition styleOf (p : page) (h : nat) (prop : string) : option string :=
  elems p !! h ≫= fun e => style e !! prop.

(** The element [getElementById] finds. *)
Definition byId (id : string) (p : page) : option nat := head (matching (has_id id) p).

(** The nav links of the menu [m], and the listeners that
    [initializeNavigation] registers for toggle [t], menu [m] and links. *)
Definition navLinks (m : nat) (p : page) : list nat := matching (nav_link_in m) p.

Definition navListeners (t m : nat) (links : list nat) : list registration :=
  Registration (OnElement t) "click" (NavToggleClick t m)
  :: map (fun l => Registration (OnElement l) "click" (NavLinkClick t m)) links
  ++ [Registration OnDocument "click" (NavOutsideClick t m)].

(** Two elements that differ at most in whether they have class [c]. *)
Definition sameButClass (c : string) (e e' : elem) : Prop :=
  tagName e' = tagName e /\ ancestors e' = ancestors e
  /\ attributes e' = attributes e /\ style e' = style e
  /\ textContent e' = textContent e
  /\ offsetTop e' = offsetTop e /\ offsetHeight e' = offsetHeight e
  /\ forall c', c' <> c -> c' ∈ classList e' <-> c' ∈ classList e.

(** What the navigation shows: whether the menu is active, whether the
    toggle is active, and the toggle's [aria-expanded]. *)
Definition menuState (t m : nat) (p : page) : bool * bool * option string :=
  (hasClass p m "active", hasClass p t "active", attribute p t "aria-expanded").

Definition closed : bool * bool * option string := (false, false, Some "false").

Definition toggled (s : bool * bool * option string) : bool * bool * option string :=
  (negb s.1.1, negb s.1.2, Some (if negb s.1.2 then "true" else "false")).

(** The menu and the toggle agree, and the toggle says what they are. *)
Definition inSync (s : bool * bool * option string) : Prop :=
  s.1.1 = s.1.2 /\ s.2 = Some (if s.1.2 then "true" else "false").

(** The listeners of the navigation are those of toggle [t] and menu [m]. *)
Definition navigationOf (t m : nat) (h : handler) : Prop :=
  match h with
  | NavToggleClick t' m' | NavLinkClick t' m' | NavOutsideClick t' m' =>
      t' = t /\ m' = m
  | _ => True
  end.

(** A listener of another feature than the navigation. *)
Definition notNavigation (h : handler) : Prop :=
  match h with
  | NavToggleClick _ _ | NavLinkClick _ _ | NavOutsideClick _ _ => False
  | _ => True
  end.

(** The path of a click at [x]: [x] and its ancestors. *)
Definition pathOf (p : page) (x : nat) : list nat :=
  x :: from_option ancestors [] (elems p !! x).

(** What the last loop of [initializeNavigation] does to a link when the
    address of the page is [path]. *)
Definition markCurrent (path : string) (e : elem) : elem :=
  set_classList
    (if bool_decide (attributes e !! "href" = Some path)
     then classList e ∖ {["active"]} ∪ {["active"]}
     else classList e ∖ {["active"]}) e.

(** The listeners that an event of type [type] reaches along [path], in the
    order they run. *)
Definition reached (path : list eventTarget) (type : string)
    (ls : list registration) : list registration :=
  concat (map (fun t => filter (fun r => listensAt t type r = true) ls) path).

Definition clickPath (p : page) (x : nat) : list eventTarget :=
  (OnElement <$> pathOf p x) ++ [OnDocument; OnWindow].

(** The navigation as a machine on what it shows: the step of a listener
    for an event whose target has the elements [path] around it. *)
Definition menuStep (t m : nat) (path : list nat) (h : handler)
    (s : bool * bool * option string) : bool * bool * option string :=
  match h with
  | NavToggleClick _ _ => toggled s
  | NavLinkClick _ _ => closed
  | NavOutsideClick _ _ =>
      if bool_decide (t ∈ path) || bool_decide (m ∈ path) then s else closed
  | _ => s
  end.

(** Two pages with the same tree and the same state of the navigation. *)
Definition sameNavigation (t m : nat) (p p' : page) : Prop :=
  ancestors <$> elems p' = ancestors <$> elems p
  /\ menuState t m p' = menuState t m p.

(** Code that, on a host [E], completes normally and leaves a page related
    by [R] to the one it started from; code that throws [e] there. *)
Definition completesAt (E : host) (R : page -> page -> Prop) {A} (m : SM A) : Prop :=
  forall p, env p = E ->
    exists p' a, m p = (p', Normal a) /\ env p' = E /\ R p p'.

Definition throwsAt (E : host) (R : page -> page -> Prop) (e : error) {A}
    (m : SM A) : Prop :=
  forall p, env p = E -> exists p', m p = (p', Abrupt e) /\ R p p'.

(** A page that has the console of another, its listeners followed by
    listeners of other features than the navigation, and its elements. *)
Definition grows (p p' : page) : Prop :=
  log p' = log p
  /\ (exists rest,
        listeners p' = listeners p ++ rest
        /\ Forall (fun r => notNavigation (r_handler r)) rest)
  /\ forall h, is_Some (elems p !! h) -> is_Some (elems p' !! h).

(** Two pages with the same console and the same observers, whose elements
    are the same but for the class [active]. *)
Definition sameContent (p p' : page) : Prop :=
  log p' = log p /\ observers p' = observers p
  /\ forall h, option_Forall2 (sameButClass "active") (elems p !! h) (elems p' !! h).

(** The page is ready for the script: the host has what the script uses
    without asking. *)
Definition ready (E : host) : bool :=
  hasIntersectionObserver E && bool_decide (is_Some (body E)) && hasMatchMedia E.

(** What the callback of the image observer does to an image that
    intersects. *)
Definition loadImage (e : elem) : elem :=
  set_attributes
    (delete "loading"
       (<["src" := default "undefined" (attributes e !! "data-src")]> (attributes e))) e.

(** The targets an observer of the page has. *)
Definition targetsOf (p : page) (o : nat) : list nat :=
  from_option targets [] (observers p !! o).

(** The targets that a list of entries reports as intersecting. *)
Definition intersecting (entries : list (nat * bool)) : list nat :=
  (filter (fun entry => entry.2 = true) entries).*1.

(** What [initializeAnimations] does to a card, and the callback of its
    observer to a card that intersects. *)
Definition hideCard (e : elem) : elem :=
  set_style
    (<["transition" := "opacity 0.6s ease-out, transform 0.6s ease-out"]>
       (<["transform" := "translateY(20px)"]> (<["opacity" := "0"]> (style e)))) e.

Definition revealCard (e : elem) : elem :=
  set_style (<["transform" := "translateY(0)"]> (<["opacity" := "1"]> (style e))) e.

(** A listener of the navigation. *)
Definition navigationOnly (h : handler) : Prop :=
  match h with
  | NavToggleClick _ _ | NavLinkClick _ _ | NavOutsideClick _ _ => True
  | _ => False
  end.

(** The element that [document.querySelector] finds for the [href] of the
    anchor [a], as the host's engine answers. *)
Definition fragmentTarget (p : page) (a : nat) : completion (option nat) :=
  selectorEngine (env p) (default "null" (attribute p a "href")) (elems p) (order p).

(** What the loop of [initializeAccessibility] does to a link when the
    address of the page is [path]. *)
Definition markCurrentPage (path : string) (e : elem) : elem :=
  if bool_decide (attributes e !! "href" = Some path)
  then set_attributes (<["aria-current" := "page"]> (attributes e)) e
  else e.

(** The skip link as [initializeAccessibility] makes it, under the
    elements [up]. *)
Definition skipLinkElement (up : list nat) : elem :=
  Elem "a" up ∅ {["href" := "#"]} skipLinkStyle "Skip to main content" 0 0.

(** The listeners that [initializeAccessibility] registers, for the skip
    link [s]. *)
Definition accessibilityListeners (s : nat) : list registration :=
  [ Registration OnDocument "keydown" TabKeydown;
    Registration OnDocument "mousedown" AnyMousedown;
    Registration (OnElement s) "focus" (SkipLinkFocus s);
    Registration (OnElement s) "blur" (SkipLinkBlur s);
    Registration (OnElement s) "click" SkipLinkClick ].

(** *** A sample page *)

(** An engine for the selectors [#id]: the first element with that [id];
    [#] alone is no selector. *)
Definition idEngine (s : string) (es : gmap nat elem) (ord : list nat) :
    completion (option nat) :=
  match s with
  | String "#" EmptyString => Abrupt JsSyntaxError
  | String "#" id =>
      Normal (head (filter (fun h => from_option (has_id id h) false (es !! h) = true) ord))
  | _ => Normal None
  end.

Definition node (tag : string) (up : list nat) (classes : list string)
    (attrs : list (string * string)) (top height : Z) : elem :=
  Elem tag up (list_to_set classes) (list_to_map attrs) ∅ "" top height.

Local Open Scope nat_scope.

(** A page of the site before the script runs: a header with the toggle
    and the menu of two links, and a main part with a section, an in-page
    link to it, a card and two lazy images, one of them without
    [data-src]; its address is that of the second nav link and it has no
    contact form. *)
Definition homePage : page :=
  Page
    (Host 0 (Some 1) "/contact.html" true true true idEngine)
    (list_to_map
       [ (0, node "html" [] [] [] 0 2000);
         (1, node "body" [0] [] [] 0 2000);
         (2, node "header" [1; 0] ["header"] [] 0 80);
         (3, node "button" [2; 1; 0] []
               [("id", "navToggle"); ("aria-expanded", "false")] 0 40);
         (4, node "ul" [2; 1; 0] [] [("id", "navMenu")] 0 40);
         (5, node "a" [4; 2; 1; 0] ["nav-link"; "active"] [("href", "/index.html")] 0 40);
         (6, node "a" [4; 2; 1; 0] ["nav-link"] [("href", "/contact.html")] 0 40);
         (7, node "main" [1; 0] [] [] 80 1900);
         (8, node "section" [7; 1; 0] [] [("id", "features")] 600 400);
         (9, node "a" [7; 1; 0] [] [("href", "#features")] 100 20);
         (10, node "div" [8; 7; 1; 0] ["feature-card"] [] 620 200);
         (11, node "img" [7; 1; 0] [] [("loading", "lazy"); ("data-src", "hero.jpg")] 200 300);
         (12, node "img" [7; 1; 0] [] [("loading", "lazy")] 500 100) ])
    [0; 1; 2; 3; 4; 5; 6; 7; 9; 11; 12; 8; 10]
    [] [] None [] [] [] false
    (World ∅ [] [] false).

(** The same page on a host without [IntersectionObserver]. *)
Definition homePageOldHost : page :=
  Page (Host 0 (Some 1) "/contact.html" false true true idEngine)
    (elems homePage) (order homePage) [] [] None [] [] [] false (form homePage).

(** The page once the script has run. *)
Definition homePageLoaded : page := (onDOMContentLoaded homePage).1.

End Site.

(** * Properties *)

(** ** The matcher agrees with the meaning of the patterns *)

Module RegExpFacts.
Import RegExp.

Lemma Matches_Void s : Matches Void s <-> False.
Proof. split; [inversion 1 | tauto]. Qed.

Lemma Matches_Eps s : Matches Eps s <-> s = [].
Proof. split; [by inversion 1 | intros ->; constructor]. Qed.

Lemma Matches_Class p s : Matches (Class p) s <-> exists c, s = [c] /\ p c = true.
Proof.
  split.
  - inversion 1; subst; eauto.
  - intros (c & -> & Hc). by constructor.
Qed.

Lemma Matches_Seq r1 r2 s :
  Matches (Seq r1 r2) s <->
  exists s1 s2, s = s1 ++ s2 /\ Matches r1 s1 /\ Matches r2 s2.
Proof.
  split.
  - inversion 1; subst; eauto.
  - intros (s1 & s2 & -> & H1 & H2). by constructor.
Qed.

Lemma Matches_Alt r1 r2 s :
  Matches (Alt r1 r2) s <-> Matches r1 s \/ Matches r2 s.
Proof.
  split.
  - inversion 1; subst; eauto.
  - intros [H | H]; [by apply MAltL | by apply MAltR].
Qed.

(** A non-empty match of [r*] starts with a non-empty match of [r]. *)
Lemma Matches_Star_cons r c s :
  Matches (Star r) (c :: s) <->
  exists s1 s2, s = s1 ++ s2 /\ Matches r (c :: s1) /\ Matches (Star r) s2.
Proof.
  split.
  - intros H. remember (Star r) as r' eqn:Hr. remember (c :: s) as s' eqn:Hs.
    revert s Hs. induction H as [| | | | | |r0 s1 s2 H1 _ H2 IH2]; try discriminate.
    injection Hr as ->. intros s Hs.
    destruct s1 as [|c1 s1]; simpl in Hs.
    + by apply IH2.
    + injection Hs as -> <-. eauto.
  - intros (s1 & s2 & -> & H1 & H2).
    change (c :: s1 ++ s2) with ((c :: s1) ++ s2). by constructor.
Qed.

Lemma nullable_Matches r : nullable r = true <-> Matches r [].
Proof.
  induction r as [| |p|r1 IH1 r2 IH2|r1 IH1 r2 IH2|r IH]; simpl.
  - rewrite Matches_Void. split; [discriminate | tauto].
  - rewrite Matches_Eps. tauto.
  - rewrite Matches_Class. split; [discriminate | by intros (c & ? & _)].
  - rewrite andb_true_iff, IH1, IH2, Matches_Seq. split.
    + intros [H1 H2]. by exists [], [].
    + intros (s1 & s2 & Hs & H1 & H2).
      symmetry in Hs. apply app_eq_nil in Hs as [-> ->]. tauto.
  - rewrite orb_true_iff, IH1, IH2, Matches_Alt. tauto.
  - split; [intros _; constructor | reflexivity].
Qed.

Lemma deriv_Matches c r s : Matches (deriv c r) s <-> Matches r (c :: s).
Proof.
  revert s.
  induction r as [| |p|r1 IH1 r2 IH2|r1 IH1 r2 IH2|r IH]; intros s; simpl.
  - by rewrite !Matches_Void.
  - rewrite Matches_Void, Matches_Eps. split; [tauto | discriminate].
  - rewrite Matches_Class. destruct (p c) eqn:Hp.
    + rewrite Matches_Eps. split.
      * intros ->. eauto.
      * by intros (c' & [= <- ->] & _).
    + rewrite Matches_Void. split; [tauto |].
      intros (c' & [= <- ->] & Hc'). congruence.
  - assert (Hseq : Matches (Seq (deriv c r1) r2) s <->
                   exists s1 s2, s = s1 ++ s2 /\ Matches r1 (c :: s1) /\ Matches r2 s2).
    { rewrite Matches_Seq. by setoid_rewrite IH1. }
    rewrite (Matches_Seq r1 r2).
    destruct (nullable r1) eqn:Hn.
    + rewrite Matches_Alt, Hseq, IH2. apply nullable_Matches in Hn. split.
      * intros [(s1 & s2 & -> & H1 & H2) | H2].
        -- by exists (c :: s1), s2.
        -- by exists [], (c :: s).
      * intros (s1 & s2 & Hs & H1 & H2). destruct s1 as [|c1 s1]; simpl in Hs.
        -- subst s2. by right.
        -- injection Hs as <- ->. left. eauto.
    + rewrite Hseq. split.
      * intros (s1 & s2 & -> & H1 & H2). by exists (c :: s1), s2.
      * intros (s1 & s2 & Hs & H1 & H2). destruct s1 as [|c1 s1]; simpl in Hs.
        -- apply nullable_Matches in H1. congruence.
        -- injection Hs as <- ->. eauto.
  - by rewrite !Matches_Alt, IH1, IH2.
  - rewrite Matches_Star_cons, Matches_Seq. by setoid_rewrite IH.
Qed.

(** [test] decides [Matches]. *)
Lemma test_Matches r s : test r s = true <-> Matches r s.
Proof.
  revert r. induction s as [|c s IH]; intros r; simpl.
  - apply nullable_Matches.
  - by rewrite IH, deriv_Matches.
Qed.

Lemma Matches_Star_Class p s :
  Matches (Star (Class p)) s <-> Forall (fun c => p c = true) s.
Proof.
  induction s as [|c s IH].
  - split; constructor.
  - rewrite Matches_Star_cons, Forall_cons. split.
    + intros (s1 & s2 & Hs & H1 & H2).
      apply Matches_Class in H1 as (c' & [= <- ->] & Hc). simpl in Hs. subst s2.
      split; [done | by apply IH].
    + intros [Hc Hs]. exists [], s. split; [done |].
      split; [by constructor | by apply IH].
Qed.

Lemma Matches_Plus_Class p s :
  Matches (Plus (Class p)) s <-> s <> [] /\ Forall (fun c => p c = true) s.
Proof.
  unfold Plus. rewrite Matches_Seq. split.
  - intros (s1 & s2 & -> & H1 & H2).
    apply Matches_Class in H1 as (c & -> & Hc).
    apply Matches_Star_Class in H2. split; [done | by constructor].
  - intros [Hne Hall]. destruct s as [|c s]; [done |].
    apply Forall_cons in Hall as [Hc Hs].
    exists [c], s. split; [done |]. split; [by constructor | by apply Matches_Star_Class].
Qed.

Lemma Matches_Chr c s : Matches (Chr c) s <-> s = [c].
Proof.
  unfold Chr. rewrite Matches_Class. split.
  - intros (c' & -> & Hc). by apply N.eqb_eq in Hc as ->.
  - intros ->. exists c. by rewrite N.eqb_refl.
Qed.

End RegExpFacts.

(** ** The pure predicates *)

Section Predicates.
Import JsString RegExp RegExpFacts.

Lemma notSpaceAt_spec c :
  notSpaceAt c = true <-> isWhiteSpace c = false /\ c <> 0x40.
Proof.
  unfold notSpaceAt. rewrite negb_true_iff, orb_false_iff, N.eqb_neq. tauto.
Qed.

Lemma Forall_notSpaceAt s :
  Forall (fun c => notSpaceAt c = true) s <-> excludesSpaceAt s.
Proof. unfold excludesSpaceAt. apply Forall_iff. intros c. apply notSpaceAt_spec. Qed.

(** What [emailRegex] matches is what the specification describes. *)
Lemma Matches_emailRegex s : Matches emailRegex s <-> emailShape s.
Proof.
  unfold emailRegex, emailShape. split.
  - intros H.
    apply Matches_Seq in H as (l & s1 & -> & Hl & H).
    apply Matches_Seq in H as (a & s2 & -> & Ha & H).
    apply Matches_Seq in H as (d & s3 & -> & Hd & H).
    apply Matches_Seq in H as (o & t & -> & Ho & Ht).
    apply Matches_Chr in Ha as ->. apply Matches_Chr in Ho as ->.
    apply Matches_Plus_Class in Hl as [Hl1 Hl2].
    apply Matches_Plus_Class in Hd as [Hd1 Hd2].
    apply Matches_Plus_Class in Ht as [Ht1 Ht2].
    exists l, d, t. repeat split; try done.
    + by apply Forall_notSpaceAt.
    + apply Forall_notSpaceAt. apply Forall_app. split; [done |].
      apply Forall_app. split; [| done]. by repeat constructor.
  - intros (l & d & t & -> & Hl & Hd & Ht & Hl' & Hdt).
    apply Forall_notSpaceAt in Hl'. apply Forall_notSpaceAt in Hdt.
    apply Forall_app in Hdt as [Hd' Hdt]. apply Forall_app in Hdt as [_ Ht'].
    apply MSeq; [by apply Matches_Plus_Class |].
    apply MSeq; [by apply Matches_Chr |].
    apply MSeq; [by apply Matches_Plus_Class |].
    apply MSeq; [by apply Matches_Chr | by apply Matches_Plus_Class].
Qed.

Lemma isValidEmail_true s : isValidEmail (VStr s) = Ok true <-> emailShape s.
Proof.
  unfold isValidEmail. simpl. rewrite <- Matches_emailRegex, <- test_Matches.
  split; [by intros [= ->] | by intros ->].
Qed.

Lemma isValidEmail_false s : ~ emailShape s -> isValidEmail (VStr s) = Ok false.
Proof.
  intros H. destruct (isValidEmail (VStr s)) as [[|]|e] eqn:E; try done.
  by apply isValidEmail_true in E.
Qed.

(** C4: for every string, the email predicate returns true iff the string
    has the shape local-part@domain.part, where the local part and the
    domain exclude whitespace and "@" and the domain holds a "."; so a
    string without an "@", or without a "." after the "@", gives false;
    "user@example.com" gives true, "user@example" and "user example.com"
    give false. *)
Theorem isValidEmail_shape :
  (forall s, isValidEmail (VStr s) = Ok true <-> emailShape s)
  /\ (forall s, exists b, isValidEmail (VStr s) = Ok b)
  /\ (forall s, 0x40 ∉ s -> isValidEmail (VStr s) = Ok false)
  /\ (forall s, (forall a b, s = a ++ 0x40 :: b -> 0x2E ∉ b) ->
                isValidEmail (VStr s) = Ok false)
  /\ isValidEmail (VStr (js "user@example.com")) = Ok true
  /\ isValidEmail (VStr (js "user@example")) = Ok false
  /\ isValidEmail (VStr (js "user example.com")) = Ok false.
Proof.
  split; [exact isValidEmail_true |].
  split; [intros s; unfold isValidEmail; eauto |].
  split; [| split; [| by repeat split]].
  - intros s Hat. apply isValidEmail_false.
    intros (l & d & t & -> & _). apply Hat. set_solver.
  - intros s Hdot. apply isValidEmail_false.
    intros (l & d & t & Hs & _). apply (Hdot l (d ++ [0x2E] ++ t) Hs). set_solver.
Qed.

(** The "." of the domain needs a part on each side: a domain that starts
    or ends with its only "." is rejected, and a second "." may stand at
    the end. *)
Example isValidEmail_dot_position :
  isValidEmail (VStr (js "user@example.")) = Ok false
  /\ isValidEmail (VStr (js "user@.com")) = Ok false
  /\ isValidEmail (VStr (js "user@example..")) = Ok true
  /\ isValidEmail (VStr (js "@example.com")) = Ok false
  /\ isValidEmail (VStr (js "a@b@example.com")) = Ok false.
Proof. by repeat split. Qed.

(** *** [trim] and the required-field predicate *)

Lemma trimStart_nil s : trimStart s = [] <-> Forall (fun c => isWhiteSpace c = true) s.
Proof.
  induction s as [|c s IH]; simpl.
  - split; [constructor | done].
  - rewrite Forall_cons. destruct (isWhiteSpace c); [rewrite IH; tauto |].
    split; [discriminate | by intros [? _]].
Qed.

Lemma trimStart_head s c t : trimStart s = c :: t -> isWhiteSpace c = false.
Proof.
  induction s as [|c' s IH]; simpl; [discriminate |].
  destruct (isWhiteSpace c') eqn:E; [done |]. by intros [= <- _].
Qed.

(** The trimmed string is empty exactly when the string is all whitespace. *)
Lemma trim_nil s : trim s = [] <-> Forall (fun c => isWhiteSpace c = true) s.
Proof.
  unfold trim, trimEnd. rewrite <- trimStart_nil. split.
  - intros H. apply (f_equal (@rev N)) in H. rewrite rev_involutive in H. simpl in H.
    apply trimStart_nil, Forall_rev in H. rewrite rev_involutive in H.
    destruct (trimStart s) as [|c t] eqn:E; [done |].
    apply trimStart_head in E. apply Forall_cons in H as [H _]. congruence.
  - by intros ->.
Qed.

(** C6: the required-field predicate returns false on every string whose
    trimmed length is 0 and true on every string whose trimmed length is
    greater than 0. *)
Theorem isFieldValid_trimmed_length :
  forall s : list N,
    (length (trim s) = 0%nat -> isFieldValid (VStr s) = Ok false)
    /\ ((0 < length (trim s))%nat -> isFieldValid (VStr s) = Ok true).
Proof.
  intros s. unfold isFieldValid. split; intros H.
  - by rewrite H.
  - by apply Nat.ltb_lt in H as ->.
Qed.

(** The same predicate, without [trim]: it fails exactly on the strings
    made of whitespace only. *)
Lemma isFieldValid_whitespace s :
  isFieldValid (VStr s) = Ok false <-> Forall (fun c => isWhiteSpace c = true) s.
Proof.
  rewrite <- trim_nil. unfold isFieldValid.
  destruct (trim s) as [|c t]; simpl; split; done.
Qed.

End Predicates.


(** ** The error presenter *)

Section ErrorPresenter.

Lemma world_eta w :
  World (document w) (console w) (timers w) (defaultPrevented w) = w.
Proof. by destruct w. Qed.

Lemma set_document_id w : set_document (document w) w = w.
Proof. apply world_eta. Qed.

Lemma annotate_absent f fieldId w :
  document w !! (fieldId +:+ "Error") = None -> annotate f fieldId w = w.
Proof.
  intros H. unfold annotate. rewrite alter_id' by done. apply set_document_id.
Qed.

Lemma showFieldError_eq fieldId message w :
  showFieldError fieldId message w = (annotate (shown message) fieldId w, Ok tt).
Proof.
  unfold showFieldError, bind, getElementById.
  destruct (document w !! (fieldId +:+ "Error")) eqn:E.
  - unfold update, annotate, set_document. simpl. by rewrite alter_alter_eq.
  - by rewrite annotate_absent.
Qed.

Lemma clearFieldError_eq fieldId w :
  clearFieldError fieldId w = (annotate cleared fieldId w, Ok tt).
Proof.
  unfold clearFieldError, bind, getElementById.
  destruct (document w !! (fieldId +:+ "Error")) eqn:E.
  - unfold update, annotate, set_document. simpl. by rewrite alter_alter_eq.
  - by rewrite annotate_absent.
Qed.

Lemma cleared_idemp e : cleared (cleared e) = cleared e.
Proof.
  unfold cleared, set_classList, set_textContent. simpl. f_equal.
  apply difference_disjoint_L. by apply disjoint_difference_l1.
Qed.

Lemma cleared_clear e :
  el_textContent e = "" -> "show" ∉ el_classList e -> cleared e = e.
Proof.
  destruct e as [t v c dv dc fo tx cl d]. simpl. intros -> Hcl.
  unfold cleared, set_classList, set_textContent. simpl. f_equal.
  apply difference_disjoint_L. set_solver.
Qed.

Lemma annotation_annotate f fieldId w :
  annotation (annotate f fieldId w) fieldId =
  (fun e => (el_textContent (f e), bool_decide ("show" ∈ el_classList (f e))))
    <$> document w !! (fieldId +:+ "Error").
Proof.
  unfold annotation, annotate. simpl. rewrite lookup_alter_eq.
  by destruct (document w !! (fieldId +:+ "Error")).
Qed.

Lemma annotation_shown message fieldId w :
  annotation (annotate (shown message) fieldId w) fieldId
  = (fun _ => (message, true)) <$> annotation w fieldId.
Proof.
  rewrite annotation_annotate. unfold annotation.
  destruct (document w !! (fieldId +:+ "Error")) as [e|]; [| done]. simpl.
  do 2 f_equal. apply bool_decide_eq_true. set_solver.
Qed.

Lemma annotation_cleared fieldId w :
  annotation (annotate cleared fieldId w) fieldId
  = (fun _ => ("", false)) <$> annotation w fieldId.
Proof.
  rewrite annotation_annotate. unfold annotation.
  destruct (document w !! (fieldId +:+ "Error")) as [e|]; [| done]. simpl.
  do 2 f_equal. apply bool_decide_eq_false.
  rewrite elem_of_difference, elem_of_singleton. tauto.
Qed.

Lemma errorId_inj (a b : string) : a +:+ "Error" = b +:+ "Error" -> a = b.
Proof.
  revert b. induction a as [|c a IH]; intros [|d b]; simpl; try done.
  - intros [= <- H]. destruct b as [|? [|? [|? [|? [|? ?]]]]]; discriminate.
  - intros [= -> H]. destruct a as [|? [|? [|? [|? [|? ?]]]]]; discriminate.
  - intros [= -> H]. f_equal. by apply IH.
Qed.

Lemma annotation_annotate_ne f a b w :
  a <> b -> annotation (annotate f a w) b = annotation w b.
Proof.
  intros Hne. unfold annotation, annotate. simpl.
  rewrite lookup_alter_ne; [done |]. intros H. by apply errorId_inj in H.
Qed.

(** C9: clearing the error of a field raises no exception, is a no-op
    when the field has no active error annotation (no message and not
    shown, or no error element at all), and is idempotent. *)
Theorem clearFieldError_idempotent :
  forall (w : world) (fieldId : string),
    snd (clearFieldError fieldId w) = Ok tt
    /\ (annotation w fieldId = Some ("", false) \/ annotation w fieldId = None ->
        clearFieldError fieldId w = (w, Ok tt))
    /\ (clearFieldError fieldId ;; clearFieldError fieldId) w
       = clearFieldError fieldId w.
Proof.
  intros w fieldId. rewrite clearFieldError_eq. split; [done |]. split.
  - unfold annotation, annotate.
    destruct (document w !! (fieldId +:+ "Error")) as [e|] eqn:E; simpl.
    + intros [[= Htx Hcl] | [=]]. apply bool_decide_eq_false in Hcl.
      rewrite alter_id; [by rewrite set_document_id |].
      intros e' He'. rewrite E in He'. injection He' as <-. by apply cleared_clear.
    + intros _. by rewrite alter_id', set_document_id.
  - unfold bind. rewrite clearFieldError_eq, clearFieldError_eq.
    unfold annotate, set_document. simpl. rewrite alter_alter_eq.
    do 2 f_equal. apply alter_ext. intros e _. apply cleared_idemp.
Qed.

End ErrorPresenter.

(** ** A validation pass *)

Section ValidationPass.

Lemma currentValue_eq fd w :
  currentValue fd w = (w, valueOf (element fd ≫= (document w !!.))).
Proof.
  unfold currentValue, bind, prop, valueOf.
  destruct (element fd ≫= (document w !!.)) as [e|] eqn:E; [| done].
  destruct (el_value e) eqn:Ev; [| done]. rewrite E.
  destruct (bool_decide (el_type e = "checkbox")); [by rewrite E | done].
Qed.

Lemma consentChecked_eq v w :
  consentChecked v w =
  (w, match document w !! "consent" with
      | Some e => Ok (el_checked e)
      | None => Throw TypeError
      end).
Proof.
  unfold consentChecked, bind, getElementById, prop.
  destruct (document w !! "consent") as [e|] eqn:E; simpl; [by rewrite E | done].
Qed.

Lemma tableValidator_readonly val v w : tableValidator val -> fst (val v w) = w.
Proof. intros [-> | [-> | ->]]; try done. by rewrite consentChecked_eq. Qed.

Lemma sameControls_lookup w w' (o : option string) :
  sameControls w w' ->
  controlView <$> (o ≫= (document w' !!.)) = controlView <$> (o ≫= (document w !!.)).
Proof. intros H. destruct o as [id|]; [apply H | done]. Qed.

Lemma valueOf_controlView o o' :
  controlView <$> o' = controlView <$> o -> valueOf o' = valueOf o.
Proof.
  destruct o as [e|], o' as [e'|]; try done. unfold controlView. simpl.
  intros [= Ht Hv Hc]. by rewrite Ht, Hv, Hc.
Qed.

Lemma tableValidator_sameControls val v w w' :
  tableValidator val -> sameControls w w' -> snd (val v w') = snd (val v w).
Proof.
  intros [-> | [-> | ->]] H; try done. rewrite !consentChecked_eq. simpl.
  specialize (H "consent").
  destruct (document w !! "consent"), (document w' !! "consent"); try done.
  by injection H as _ _ ->.
Qed.

Lemma passes_eq fd w :
  passes fd w =
  match valueOf (element fd ≫= (document w !!.)) with
  | Ok v => snd (validate fd v w)
  | Throw e => Throw e
  end.
Proof.
  unfold passes, bind. rewrite currentValue_eq.
  by destruct (valueOf (element fd ≫= (document w !!.))).
Qed.

(** A predicate reads the controls only. *)
Lemma passes_sameControls fd w w' :
  tableValidator (validate fd) -> sameControls w w' -> passes fd w' = passes fd w.
Proof.
  intros Hval H. rewrite !passes_eq.
  rewrite (valueOf_controlView _ _ (sameControls_lookup w w' (element fd) H)).
  destruct (valueOf _); [| done]. by apply tableValidator_sameControls.
Qed.

Lemma verdict_controlView fd b e : controlView (verdict fd b e) = controlView e.
Proof. by destruct b. Qed.

Lemma sameControls_refl w : sameControls w w.
Proof. done. Qed.

Lemma sameControls_trans w1 w2 w3 :
  sameControls w1 w2 -> sameControls w2 w3 -> sameControls w1 w3.
Proof. intros H1 H2 id. by rewrite H2, H1. Qed.

Lemma sameControls_annotate fd b fieldId w :
  sameControls w (annotate (verdict fd b) fieldId w).
Proof.
  intros id. unfold annotate. simpl. rewrite lookup_alter.
  case_decide as H; [subst id | done].
  destruct (document w !! (fieldId +:+ "Error")) as [e|]; [| done].
  simpl. by rewrite verdict_controlView.
Qed.

Lemma validateStep_eq fieldId fd acc w :
  tableValidator (validate fd) ->
  validateStep (fieldId, fd) acc w =
  match passes fd w with
  | Ok b => (annotate (verdict fd b) fieldId w, Ok (if b then acc else false))
  | Throw e => (w, Throw e)
  end.
Proof.
  intros Hval. rewrite passes_eq. unfold validateStep, bind.
  rewrite currentValue_eq.
  destruct (valueOf (element fd ≫= (document w !!.))) as [v|e]; [| done].
  pose proof (tableValidator_readonly _ v w Hval) as Hw.
  destruct (validate fd v w) as [w1 [[|]|e]]; simpl in *; subst w1; try done.
  - by rewrite clearFieldError_eq.
  - by rewrite showFieldError_eq.
Qed.


(** C3 fails on a boolean: the required-field predicate calls [trim] on
    its argument, and throws when the argument is [true]. *)
Lemma isFieldValid_boolean_throws :
  ~ (exists b : bool, isFieldValid (VBool true) = Ok b).
Proof. by intros [b Hb]. Qed.

(** C3, on the inputs the predicates are declared for: the email predicate
    returns a boolean on every string and every boolean; the required-field
    predicate returns a boolean on every string, and throws on a boolean;
    the consent predicate returns the checked state of the consent control,
    whatever its argument, when the page has that control. *)
Theorem predicates_total_on_strings :
  (forall v : value, exists b, isValidEmail v = Ok b)
  /\ (forall s : list N, exists b, isFieldValid (VStr s) = Ok b)
  /\ (forall b : bool, isFieldValid (VBool b) = Throw TypeError)
  /\ (forall (v : value) (w : world) (c : htmlElement),
        document w !! "consent" = Some c ->
        consentChecked v w = (w, Ok (el_checked c))).
Proof.
  split; [intros v; unfold isValidEmail; eauto |].
  split; [intros s; unfold isFieldValid; eauto |].
  split; [done |].
  intros v w c Hc. by rewrite consentChecked_eq, Hc.
Qed.

End ValidationPass.

(** ** The loop of the submit listener *)

Section SubmitLoop.

Lemma sameButAnnotation_refl e : sameButAnnotation e e.
Proof. by repeat split. Qed.

Lemma sameButAnnotation_trans e1 e2 e3 :
  sameButAnnotation e1 e2 -> sameButAnnotation e2 e3 -> sameButAnnotation e1 e3.
Proof.
  unfold sameButAnnotation.
  intros (?&?&?&?&?&?&?) (?&?&?&?&?&?&?). repeat split; congruence.
Qed.

Lemma sameButAnnotation_verdict fd b e : sameButAnnotation e (verdict fd b e).
Proof. destruct b; by repeat split. Qed.

Lemma annotationsOnly_refl ids w : annotationsOnly ids w w.
Proof.
  repeat split; try done.
  destruct (document w !! k); constructor. apply sameButAnnotation_refl.
Qed.

Lemma annotationsOnly_annotate fd b fieldId ids w w' :
  annotationsOnly ids (annotate (verdict fd b) fieldId w) w' ->
  annotationsOnly (fieldId :: ids) w w'.
Proof.
  intros (Hc & Ht & Hd & Hk). repeat split; try done.
  - intros Hnot. rewrite fmap_cons, not_elem_of_cons in Hnot.
    destruct Hnot as [Hne Hnot]. destruct (Hk k) as [H1 _]. rewrite H1 by done.
    unfold annotate. simpl. by rewrite lookup_alter_ne.
  - destruct (Hk k) as [_ H]. revert H. unfold annotate. simpl.
    rewrite lookup_alter. case_decide as E; [subst k | done].
    destruct (document w !! (fieldId +:+ "Error")) as [e|]; simpl;
      inversion 1; constructor.
    eapply sameButAnnotation_trans; [apply sameButAnnotation_verdict | done].
Qed.

Lemma foldM_cons {A S} (f : A -> S -> M S) a l s w :
  foldM f (a :: l) s w =
  match f a s w with
  | (w', Ok s') => foldM f l s' w'
  | (w', Throw e) => (w', Throw e)
  end.
Proof. done. Qed.

(** Whatever its outcome, the loop updates error annotations only. *)
Lemma loop_frame l : forall acc w,
  tableEntries l -> annotationsOnly l.*1 w (fst (foldM validateStep l acc w)).
Proof.
  induction l as [|[fieldId fd] l IH]; intros acc w Hl.
  - apply annotationsOnly_refl.
  - apply Forall_cons in Hl as [Hfd Hl]. simpl in Hfd.
    rewrite foldM_cons, validateStep_eq by done.
    destruct (passes fd w) as [b|e]; simpl.
    + eapply annotationsOnly_annotate. by apply IH.
    + apply annotationsOnly_refl.
Qed.

Lemma passes_annotate fd' fd b fieldId w :
  tableValidator (validate fd') ->
  passes fd' (annotate (verdict fd b) fieldId w) = passes fd' w.
Proof. intros H. apply passes_sameControls; [done | apply sameControls_annotate]. Qed.

(** The loop leaves [isFormValid] true exactly when every field passed. *)
Lemma loop_true l : forall acc w,
  tableEntries l ->
  snd (foldM validateStep l acc w) = Ok true
  <-> acc = true /\ Forall (fun entry => passes entry.2 w = Ok true) l.
Proof.
  induction l as [|[fieldId fd] l IH]; intros acc w Hl.
  - simpl. split; [intros [= ->]; by split | by intros [-> _]].
  - apply Forall_cons in Hl as [Hfd Hl]. simpl in Hfd.
    rewrite foldM_cons, validateStep_eq by done. rewrite Forall_cons. simpl.
    destruct (passes fd w) as [b|e] eqn:E; simpl.
    + rewrite IH by done.
      assert (Hsame : Forall (fun entry => passes entry.2
                          (annotate (verdict fd b) fieldId w) = Ok true) l
                      <-> Forall (fun entry => passes entry.2 w = Ok true) l).
      { rewrite !Forall_forall. split; intros H x Hx;
          specialize (H x Hx); rewrite Forall_forall in Hl;
          rewrite passes_annotate in * by (by apply Hl); done. }
      rewrite Hsame. destruct b; [tauto | ].
      split; [by intros [? _] | by intros (_ & [=] & _)].
    + split; [done | by intros (_ & [=] & _)].
Qed.


Lemma annotation_frame ids w w' fieldId :
  annotationsOnly ids w w' -> fieldId ∉ ids ->
  annotation w' fieldId = annotation w fieldId.
Proof.
  intros (_ & _ & _ & Hk) Hnot. unfold annotation.
  destruct (Hk (fieldId +:+ "Error")) as [H1 _]. rewrite H1; [done |].
  intros (id & Hid & Hin)%list_elem_of_fmap. apply errorId_inj in Hid. by subst.
Qed.

Lemma annotation_verdict fd b fieldId w :
  annotation (annotate (verdict fd b) fieldId w) fieldId
  = (fun _ => annotationAfter fd b) <$> annotation w fieldId.
Proof. destruct b; [apply annotation_cleared | apply annotation_shown]. Qed.

(** When no predicate throws, the loop leaves on every field the
    annotation of its own verdict: no field is skipped. *)
Lemma loop_annotations l : forall acc w,
  tableEntries l -> NoDup l.*1 ->
  Forall (fun entry => exists b, passes entry.2 w = Ok b) l ->
  forall fieldId fd b,
    (fieldId, fd) ∈ l -> passes fd w = Ok b ->
    annotation (fst (foldM validateStep l acc w)) fieldId
    = (fun _ => annotationAfter fd b) <$> annotation w fieldId.
Proof.
  induction l as [|[id0 fd0] l IH]; intros acc w Hl Hnd Hok fieldId fd b Hin Hb.
  - by apply elem_of_nil in Hin.
  - pose proof Hl as Hl0. apply Forall_cons in Hl as [Hfd Hl]. simpl in Hfd.
    apply Forall_cons in Hok as [[b0 Hb0] Hok]. simpl in Hb0.
    rewrite fmap_cons in Hnd. apply NoDup_cons in Hnd as [Hnot Hnd]. simpl in Hnot.
    rewrite foldM_cons, validateStep_eq by done. rewrite Hb0.
    apply elem_of_cons in Hin as [[= -> ->] | Hin].
    + rewrite (annotation_frame l.*1 (annotate (verdict fd0 b0) id0 w)); try done.
      * rewrite annotation_verdict. rewrite Hb0 in Hb. by injection Hb as ->.
      * by apply loop_frame.
    + assert (Hne : id0 <> fieldId).
      { intros ->. apply Hnot. apply list_elem_of_fmap. by exists (fieldId, fd). }
      rewrite Forall_forall in Hl.
      rewrite (IH _ _ (proj2 (Forall_forall _ _) Hl) Hnd) with (fd := fd) (b := b); try done.
      * by rewrite annotation_annotate_ne.
      * rewrite Forall_forall in *. intros x Hx.
        rewrite passes_annotate by (by apply Hl). by apply Hok.
      * rewrite passes_annotate; [done |]. by apply (Hl (fieldId, fd)).
Qed.

End SubmitLoop.

(** ** The submit listener *)

Section SubmitListener.

Lemma validateAll_eq fs : validateAll fs = foldM validateStep (entries fs) true.
Proof. done. Qed.

Lemma tableEntries_fieldsOf w : tableEntries (entries (fieldsOf w)).
Proof.
  unfold tableEntries. repeat apply Forall_cons_2; [.. | apply Forall_nil];
    unfold tableValidator; simpl; eauto.
Qed.

Lemma entries_ids fs : (entries fs).*1 = fieldIds.
Proof. done. Qed.

Lemma NoDup_fieldIds : NoDup fieldIds.
Proof. apply (bool_decide_unpack _). by vm_compute. Qed.


Lemma passes_set_defaultPrevented fd b w :
  tableValidator (validate fd) -> passes fd (set_defaultPrevented b w) = passes fd w.
Proof. intros H. by apply passes_sameControls. Qed.






Lemma onSubmit_eq form fs w :
  onSubmit form fs w =
  match foldM validateStep (entries fs) true (set_defaultPrevented true w) with
  | (w2, Ok true) => successPath form fs w2
  | (w2, Ok false) => (w2, Ok tt)
  | (w2, Throw e) => (w2, Throw e)
  end.
Proof.
  unfold onSubmit, bind, preventDefault. rewrite validateAll_eq.
  by destruct (foldM _ _ _ _) as [w2 [[|]|e]].
Qed.

Lemma successPath_eq form fs w en ee es ec em :
  let d := documentAfterSuccess form w in
  element (name fs) ≫= (d !!.) = Some en ->
  element (email fs) ≫= (d !!.) = Some ee ->
  element (subject fs) ≫= (d !!.) = Some es ->
  element (category fs) ≫= (d !!.) = Some ec ->
  element (message fs) ≫= (d !!.) = Some em ->
  successPath form fs w =
  (World d
     (console w ++ [LogText "Form submitted successfully";
                    LogPayload (Payload (el_value en) (el_value ee) (el_value es)
                                  (el_value ec) (el_value em))])
     (timers w ++ [Timer 5000 (HideSuccess (ref w "successMessage"))])
     (defaultPrevented w), Ok tt).
Proof.
  intros d Hn He Hs Hc Hm.
  assert (Hd : (match ref w "successMessage" with
                | Some s => update s (set_display "block")
                | None => ret tt
                end) w
               = (set_document (alter (set_display "block") "successMessage" (document w)) w,
                  Ok tt)).
  { unfold ref. destruct (document w !! "successMessage") eqn:E; [done |].
    by rewrite alter_id', set_document_id. }
  unfold successPath, bind, getElementById. fold (ref w "successMessage").
  rewrite Hd. unfold reset, setTimeout, console_log, prop. simpl.
  fold (documentAfterSuccess form w). fold d.
  rewrite Hn; cbv beta iota; cbn [document set_console set_timers set_document].
  rewrite He; cbv beta iota; cbn [document set_console set_timers set_document].
  rewrite Hs; cbv beta iota; cbn [document set_console set_timers set_document].
  rewrite Hc; cbv beta iota; cbn [document set_console set_timers set_document].
  rewrite Hm; cbv beta iota; cbn [document set_console set_timers set_document].
  unfold set_console, set_timers, set_document. simpl.
  by rewrite <- app_assoc.
Qed.


End SubmitListener.

(** ** What a submit does *)

Section Submit.

Lemma tableEntries_elem l entry :
  tableEntries l -> entry ∈ l -> tableValidator (validate entry.2).
Proof. unfold tableEntries. rewrite Forall_forall. auto. Qed.

Lemma lookup_documentAfterSuccess form w id :
  documentAfterSuccess form w !! id =
  reset_element form <$>
    (if decide ("successMessage" = id)
     then set_display "block" <$> document w !! id else document w !! id).
Proof.
  unfold documentAfterSuccess. rewrite lookup_fmap, lookup_alter.
  case_decide; by subst.
Qed.

Lemma present_documentAfterSuccess form w id :
  is_Some (document w !! id) -> is_Some (documentAfterSuccess form w !! id).
Proof.
  intros [e He]. rewrite lookup_documentAfterSuccess, He.
  case_decide; simpl; eauto.
Qed.

Lemma sameElements_annotationsOnly ids w w' :
  annotationsOnly ids w w' -> sameElements w w'.
Proof.
  intros (_ & _ & _ & Hk) k. destruct (Hk k) as [_ H].
  inversion H; split; intros [? ?]; eauto; congruence.
Qed.

Lemma ref_sameElements w w' k : sameElements w w' -> ref w' k = ref w k.
Proof.
  intros H. specialize (H k). unfold ref.
  destruct (document w !! k), (document w' !! k); try done.
  - destruct H as [H _]. by destruct H.
  - destruct H as [_ H]. by destruct H.
Qed.

Lemma textControl_present w id : textControl w id -> is_Some (document w !! id).
Proof. intros (e & -> & _). eauto. Qed.

Lemma ref_present w id : is_Some (document w !! id) -> ref w id = Some id.
Proof. intros [e He]. unfold ref. by rewrite He. Qed.


(** On a well-formed page the success path runs to its end, and the
    payload it logs is read from the document it leaves. *)
Lemma successPath_wellFormed w w2 :
  wellFormed w -> sameElements w w2 ->
  exists p,
    payloadRead (documentAfterSuccess "contactForm" w2) p
    /\ successPath "contactForm" (fieldsOf w) w2 =
       (World (documentAfterSuccess "contactForm" w2)
          (console w2 ++ [LogText "Form submitted successfully"; LogPayload p])
          (timers w2 ++ [Timer 5000 (HideSuccess (ref w "successMessage"))])
          (defaultPrevented w2), Ok tt).
Proof.
  intros (Hn & He & Hs & Hc & Hm & _) Hw2.
  apply textControl_present in Hn, Hs, Hc, Hm.
  assert (Hread : forall id, is_Some (document w !! id) ->
            exists e, documentAfterSuccess "contactForm" w2 !! id = Some e
                      /\ ref w id ≫= (documentAfterSuccess "contactForm" w2 !!.) = Some e).
  { intros id Hid. rewrite (ref_present w id Hid). simpl.
    destruct (present_documentAfterSuccess "contactForm" w2 id) as [e He'];
      [by apply Hw2 | eauto]. }
  destruct (Hread _ Hn) as (en & Hn' & Hen), (Hread _ He) as (ee & He' & Hee),
    (Hread _ Hs) as (es & Hs' & Hes), (Hread _ Hc) as (ec & Hc' & Hec),
    (Hread _ Hm) as (em & Hm' & Hem).
  exists (Payload (el_value en) (el_value ee) (el_value es) (el_value ec) (el_value em)).
  split.
  - unfold payloadRead. by rewrite Hn', He', Hs', Hc', Hm'.
  - rewrite (successPath_eq _ _ _ en ee es ec em); try done.
    by rewrite (ref_sameElements w w2).
Qed.

Lemma annotationsOnly_set_defaultPrevented ids b w w' :
  annotationsOnly ids (set_defaultPrevented b w) w' ->
  console w' = console w /\ timers w' = timers w /\ defaultPrevented w' = b
  /\ forall k,
       (k ∉ (fun id => id +:+ "Error") <$> ids -> document w' !! k = document w !! k)
       /\ option_Forall2 sameButAnnotation (document w !! k) (document w' !! k).
Proof. intros (? & ? & ? & ?). done. Qed.












Lemma elapse_single ms delay cb d c p :
  elapse ms (World d c [Timer delay cb] p)
  = if delay <=? ms then runCallback cb (World d c [] p)
    else (World d c [Timer (delay - ms) cb] p, Ok tt).
Proof.
  unfold elapse. cbn [timers]. rewrite !filter_cons, !filter_nil. cbn [t_delay].
  destruct (delay <=? ms); simpl; [| done].
  unfold bind. by destruct (runCallback cb _) as [w' [[]|e]].
Qed.

(** X1: what the success path does, on every page: the success message is
    displayed; every control owned by the form returns to its default value
    and checkedness; the payload logged holds the values the five controls
    have after that reset (consent is not in it); and the timer set hides
    the success message 5000 ms later, not before. *)
Theorem onSubmit_success (w : world) :
  wellFormed w ->
  (forall fieldId fd, (fieldId, fd) ∈ entries (fieldsOf w) -> passes fd w = Ok true) ->
  let w' := fst (onSubmit "contactForm" (fieldsOf w) w) in
  snd (onSubmit "contactForm" (fieldsOf w) w) = Ok tt
  /\ (is_Some (document w !! "successMessage") ->
      el_display <$> document w' !! "successMessage" = Some "block")
  /\ (forall id e, document w !! id = Some e -> el_form e = Some "contactForm" ->
        el_value <$> document w' !! id = Some (el_defaultValue e)
        /\ el_checked <$> document w' !! id = Some (el_defaultChecked e))
  /\ (exists p, console w' = console w ++ [LogText "Form submitted successfully";
                                            LogPayload p]
                /\ payloadRead (document w') p)
  /\ timers w' = timers w ++ [Timer 5000 (HideSuccess (ref w "successMessage"))]
  /\ (timers w = [] -> is_Some (document w !! "successMessage") ->
      forall ms,
        el_display <$> document (fst (elapse ms w')) !! "successMessage"
        = Some (if 5000 <=? ms then "none" else "block")).
Proof.
  intros Hwf Hall w'.
  set (fs := fieldsOf w) in *. set (w1 := set_defaultPrevented true w).
  pose proof (tableEntries_fieldsOf w) as Htab. fold fs in Htab.
  pose proof (loop_frame (entries fs) true w1 Htab) as Hframe.
  assert (Hb : snd (foldM validateStep (entries fs) true w1) = Ok true).
  { apply loop_true; [done |]. split; [done |]. rewrite Forall_forall.
    intros [fieldId fd] Hin. simpl. unfold w1.
    rewrite passes_set_defaultPrevented by apply (tableEntries_elem _ _ Htab Hin).
    by apply (Hall fieldId). }
  destruct (foldM validateStep (entries fs) true w1) as [w2 r] eqn:E.
  simpl in Hb, Hframe. subst r.
  destruct (successPath_wellFormed w w2 Hwf) as (p & Hp & Hsucc).
  { by apply sameElements_annotationsOnly in Hframe. }
  fold fs in Hsucc.
  assert (Hrun : onSubmit "contactForm" fs w
                 = (World (documentAfterSuccess "contactForm" w2)
                      (console w2 ++ [LogText "Form submitted successfully"; LogPayload p])
                      (timers w2 ++ [Timer 5000 (HideSuccess (ref w "successMessage"))])
                      (defaultPrevented w2), Ok tt)).
  { rewrite onSubmit_eq. fold w1. by rewrite E. }
  unfold w'. rewrite Hrun. cbn [fst snd document console timers].
  apply annotationsOnly_set_defaultPrevented in Hframe as (Hc & Ht & _ & Hk).
  assert (Hsm : is_Some (document w !! "successMessage") ->
                exists s, document w2 !! "successMessage" = Some s).
  { intros [s Hs]. destruct (Hk "successMessage") as [_ H]. rewrite Hs in H.
    inversion H. eauto. }
  split; [done |]. split; [| split; [| split; [| split]]].
  - intros [s Hs]%Hsm. rewrite lookup_documentAfterSuccess, decide_True, Hs by done.
    simpl. unfold reset_element. by case_bool_decide.
  - intros id e He Hform. destruct (Hk id) as [_ H]. rewrite He in H.
    inversion H as [e1 e2 (_ & _ & _ & Hdv & Hdc & Hfo & _) Heq1 Heq2 |]. subst e1.
    rewrite lookup_documentAfterSuccess, <- Heq2.
    assert (Hreset : forall e', el_form e' = el_form e2 ->
              el_defaultValue e' = el_defaultValue e2 ->
              el_defaultChecked e' = el_defaultChecked e2 ->
              el_value (reset_element "contactForm" e') = el_defaultValue e
              /\ el_checked (reset_element "contactForm" e') = el_defaultChecked e).
    { intros e' H1 H2 H3. unfold reset_element.
      rewrite bool_decide_eq_true_2 by congruence. simpl. split; congruence. }
    case_decide; simpl.
    + destruct (Hreset (set_display "block" e2)) as [-> ->]; done.
    + destruct (Hreset e2) as [-> ->]; done.
  - exists p. by rewrite Hc.
  - by rewrite Ht.
  - intros Hnil Hpresent ms. rewrite Ht, Hnil. cbn [app].
    rewrite elapse_single. destruct (Hsm Hpresent) as [s Hs].
    assert (Hd : el_display <$> documentAfterSuccess "contactForm" w2 !! "successMessage"
                 = Some "block").
    { rewrite lookup_documentAfterSuccess, decide_True, Hs by done.
      simpl. unfold reset_element. by case_bool_decide. }
    destruct (5000 <=? ms); [| done].
    rewrite (ref_present w "successMessage" Hpresent). unfold runCallback, update.
    cbn [fst document set_document]. rewrite lookup_alter_eq.
    by destruct (documentAfterSuccess "contactForm" w2 !! "successMessage").
Qed.

End Submit.

(** ** Failed and partly failed submits *)

Section FailedSubmit.

Lemma entries_lookup fs fieldId :
  fieldId ∈ fieldIds -> exists fd, (fieldId, fd) ∈ entries fs.
Proof.
  rewrite <- (entries_ids fs). intros ([id fd] & -> & Hin)%list_elem_of_fmap. eauto.
Qed.

Lemma entries_elem_id fs fieldId fd : (fieldId, fd) ∈ entries fs -> fieldId ∈ fieldIds.
Proof.
  intros H. rewrite <- (entries_ids fs). apply list_elem_of_fmap. by exists (fieldId, fd).
Qed.

Lemma entries_functional fs fieldId fd fd' :
  (fieldId, fd) ∈ entries fs -> (fieldId, fd') ∈ entries fs -> fd = fd'.
Proof.
  unfold entries. rewrite !elem_of_cons, !elem_of_nil.
  intros H H'. destruct H as [H|[H|[H|[H|[H|[H|[]]]]]]]; injection H as -> ->;
    destruct H' as [H'|[H'|[H'|[H'|[H'|[H'|[]]]]]]]; by injection H' as ?.
Qed.

(** A submit in which some predicate fails ends after the loop. *)
Lemma onSubmit_failed w fieldId fd :
  (fieldId, fd) ∈ entries (fieldsOf w) -> passes fd w = Ok false ->
  fst (onSubmit "contactForm" (fieldsOf w) w)
  = fst (foldM validateStep (entries (fieldsOf w)) true (set_defaultPrevented true w))
  /\ snd (foldM validateStep (entries (fieldsOf w)) true (set_defaultPrevented true w))
     <> Ok true.
Proof.
  intros Hin Hfalse.
  pose proof (tableEntries_fieldsOf w) as Htab.
  assert (Hr : snd (foldM validateStep (entries (fieldsOf w)) true
                      (set_defaultPrevented true w)) <> Ok true).
  { intros [_ Hall]%loop_true; [| done]. rewrite Forall_forall in Hall.
    specialize (Hall _ Hin). simpl in Hall.
    rewrite passes_set_defaultPrevented in Hall
      by apply (tableEntries_elem _ (fieldId, fd) Htab Hin).
    congruence. }
  split; [| done]. rewrite onSubmit_eq.
  by destruct (foldM _ _ _ _) as [w2 [[|]|e]].
Qed.

(** C10: on a submit where at least one field's predicate fails, nothing
    of the success path happens: no entry is logged, no timer is set, and
    every element keeps its value, checkedness and display (the success
    message's too); only the error elements of the fields may change, in
    their text and classes. *)
Theorem onSubmit_failed_only_annotates (w : world) (fieldId : string) (fd : fieldData) :
  (fieldId, fd) ∈ entries (fieldsOf w) ->
  passes fd w = Ok false ->
  let w' := fst (onSubmit "contactForm" (fieldsOf w) w) in
  console w' = console w
  /\ timers w' = timers w
  /\ ~ successTaken w w'
  /\ forall k,
       option_Forall2 sameButAnnotation (document w !! k) (document w' !! k)
       /\ (k ∉ (fun id => id +:+ "Error") <$> fieldIds ->
           document w' !! k = document w !! k).
Proof.
  intros Hin Hfalse w'.
  destruct (onSubmit_failed w fieldId fd Hin Hfalse) as [Hw' _].
  pose proof (loop_frame (entries (fieldsOf w)) true (set_defaultPrevented true w)
                (tableEntries_fieldsOf w)) as Hframe.
  rewrite <- Hw' in Hframe. fold w' in Hframe.
  apply annotationsOnly_set_defaultPrevented in Hframe as (Hc & Ht & _ & Hk).
  split; [done |]. split; [done |]. split.
  - intros [p [Hp _]]. rewrite Hc in Hp. apply (f_equal length) in Hp.
    rewrite length_app in Hp. simpl in Hp. lia.
  - intros k. destruct (Hk k) as [H1 H2]. split; [done |]. by rewrite entries_ids in H1.
Qed.

(** C8, as the code has it: on a submit in which exactly one field's
    predicate fails, that field's error is shown and the error annotation of
    every other field is cleared; so exactly one error is shown afterwards,
    and the other fields whose annotation was clear before keep it. *)
Theorem onSubmit_single_failure (w : world) (fieldId : string) (fd : fieldData) :
  (fieldId, fd) ∈ entries (fieldsOf w) ->
  passes fd w = Ok false ->
  (forall other fd', (other, fd') ∈ entries (fieldsOf w) -> other <> fieldId ->
                     passes fd' w = Ok true) ->
  let w' := fst (onSubmit "contactForm" (fieldsOf w) w) in
  annotation w' fieldId = (fun _ => (errorMsg fd, true)) <$> annotation w fieldId
  /\ (forall other, other ∈ fieldIds -> other <> fieldId ->
        annotation w' other = (fun _ => ("", false)) <$> annotation w other)
  /\ (forall other, other ∈ fieldIds -> other <> fieldId ->
        annotation w other = Some ("", false) \/ annotation w other = None ->
        annotation w' other = annotation w other)
  /\ (is_Some (annotation w fieldId) ->
      forall id, id ∈ fieldIds ->
        (exists text, annotation w' id = Some (text, true)) <-> id = fieldId).
Proof.
  intros Hin Hfalse Hothers w'.
  set (fs := fieldsOf w) in *. set (w1 := set_defaultPrevented true w).
  pose proof (tableEntries_fieldsOf w) as Htab. fold fs in Htab.
  destruct (onSubmit_failed w fieldId fd Hin Hfalse) as [Hw' _].
  fold fs w1 w' in Hw'.
  assert (Hpass1 : forall id fd', (id, fd') ∈ entries fs -> passes fd' w1 = passes fd' w).
  { intros id fd' Hin'. apply passes_set_defaultPrevented.
    apply (tableEntries_elem _ (id, fd') Htab Hin'). }
  assert (Htot1 : Forall (fun entry => exists b, passes entry.2 w1 = Ok b) (entries fs)).
  { rewrite Forall_forall. intros [id fd'] Hin'. simpl. rewrite (Hpass1 id) by done.
    destruct (decide (id = fieldId)) as [-> | Hne].
    - rewrite (entries_functional fs fieldId fd' fd) by done. eauto.
    - rewrite (Hothers id fd') by done. eauto. }
  pose proof (loop_annotations (entries fs) true w1 Htab NoDup_fieldIds Htot1) as Hann.
  rewrite <- Hw' in Hann.
  assert (Hself : annotation w' fieldId
                  = (fun _ => (errorMsg fd, true)) <$> annotation w fieldId).
  { apply (Hann fieldId fd false Hin). by rewrite (Hpass1 fieldId fd Hin). }
  assert (Hother : forall other, other ∈ fieldIds -> other <> fieldId ->
            annotation w' other = (fun _ => ("", false)) <$> annotation w other).
  { intros other [fd' Hin']%(entries_lookup fs) Hne.
    apply (Hann other fd' true Hin'). rewrite (Hpass1 other fd' Hin'). by apply (Hothers other). }
  split; [done |]. split; [done |]. split.
  - intros other Hin' Hne Hclear. rewrite Hother by done.
    by destruct Hclear as [-> | ->].
  - intros [a Ha] id Hid. split.
    + intros [text Htext]. destruct (decide (id = fieldId)) as [| Hne]; [done |].
      rewrite Hother in Htext by done. by destruct (annotation w id).
    + intros ->. rewrite Hself, Ha. simpl. eauto.
Qed.

End FailedSubmit.

(** ** The wiring *)

Section Wiring.

Lemma makeFields_eq w : makeFields w = (w, Ok (fieldsOf w)).
Proof. done. Qed.

Lemma wiring_loop l : forall ls w,
  foldM (fun '(fieldId, fieldData) (ls : list listener) =>
           match element fieldData with
           | Some el =>
               ret (ls ++ [ Listener el "blur" (onBlur fieldId fieldData);
                            Listener el "input" (onInput fieldId);
                            Listener el "change" (onChange fieldId) ])
           | None => ret ls
           end) l ls w
  = (w, Ok (ls ++ concat (map fieldListeners l))).
Proof.
  induction l as [|[fieldId fd] l IH]; intros ls w.
  - simpl. by rewrite app_nil_r.
  - rewrite foldM_cons. cbn [map concat]. unfold fieldListeners at 1.
    cbn [fst snd]. destruct (element fd); unfold ret; rewrite IH.
    + by rewrite <- app_assoc.
    + done.
Qed.

(** The wiring raises no exception, whatever elements are absent, and
    registers the listeners [listenersOf]. *)
Lemma initializeContactForm_eq w :
  initializeContactForm w = (w, Ok (listenersOf w)).
Proof.
  unfold initializeContactForm, listenersOf, bind, getElementById.
  fold (ref w "contactForm"). destruct (ref w "contactForm"); [| done].
  rewrite makeFields_eq. by rewrite wiring_loop.
Qed.

Lemma element_fieldsOf w entry :
  entry ∈ entries (fieldsOf w) -> element entry.2 = ref w entry.1.
Proof.
  unfold entries. rewrite !elem_of_cons, elem_of_nil.
  intros [->|[->|[->|[->|[->|[->|[]]]]]]]; done.
Qed.

Lemma ref_Some w id target : ref w id = Some target -> id = target.
Proof. unfold ref. destruct (document w !! id); by intros [=]. Qed.

Lemma filter_fieldListeners_ne target type entry :
  element entry.2 <> Some target ->
  filter (fun l => listens target type l = true) (fieldListeners entry) = [].
Proof.
  intros Hne. unfold fieldListeners. destruct (element entry.2) as [el|]; [| done].
  assert (el <> target) by congruence.
  rewrite !filter_cons, filter_nil. unfold listens. simpl.
  by rewrite !bool_decide_eq_false_2 by done.
Qed.

Lemma filter_fieldListeners_other w target type l :
  (forall entry, entry ∈ l -> element entry.2 = ref w entry.1) ->
  target ∉ l.*1 ->
  filter (fun l => listens target type l = true) (concat (map fieldListeners l)) = [].
Proof.
  induction l as [|entry l IH]; intros Hel Hnot; [done |].
  rewrite fmap_cons, not_elem_of_cons in Hnot. destruct Hnot as [Hne Hnot].
  cbn [map concat]. rewrite filter_app, filter_fieldListeners_ne, IH; try done.
  - intros e He. apply Hel. by apply list_elem_of_further.
  - rewrite (Hel entry) by apply list_elem_of_here.
    intros Href. apply ref_Some in Href. congruence.
Qed.

(** The listeners of a target among the listeners of the fields: those of
    the field whose control it is. *)
Lemma filter_fieldListeners w target type fd :
  (target, fd) ∈ entries (fieldsOf w) ->
  is_Some (document w !! target) ->
  filter (fun l => listens target type l = true)
         (concat (map fieldListeners (entries (fieldsOf w))))
  = filter (fun l => listens target type l = true)
      [ Listener target "blur" (onBlur target fd);
        Listener target "input" (onInput target);
        Listener target "change" (onChange target) ].
Proof.
  intros Hin Hpresent.
  pose proof (NoDup_fieldIds) as Hnd. rewrite <- (entries_ids (fieldsOf w)) in Hnd.
  pose proof (element_fieldsOf w) as Hel.
  destruct (list_elem_of_split _ _ Hin) as (l1 & l2 & Hsplit).
  rewrite Hsplit in Hnd, Hel. rewrite Hsplit. clear Hsplit Hin.
  rewrite fmap_app, fmap_cons in Hnd. apply NoDup_app in Hnd as (_ & Hl1 & Hnd).
  apply NoDup_cons in Hnd as [Hl2 _]. simpl in Hl1, Hl2.
  rewrite map_app, concat_app. cbn [map concat]. rewrite !filter_app.
  rewrite (filter_fieldListeners_other w target type l1), app_nil_l.
  - rewrite (filter_fieldListeners_other w target type l2), app_nil_r.
    + unfold fieldListeners.
      rewrite (Hel (target, fd)) by (apply elem_of_app; right; apply list_elem_of_here).
      simpl. by rewrite (ref_present w target Hpresent).
    + intros e He. apply Hel. apply elem_of_app. right. by apply list_elem_of_further.
    + done.
  - intros e He. apply Hel. apply elem_of_app. by left.
  - intros H1. apply (Hl1 target H1). apply list_elem_of_here.
Qed.

Lemma fieldId_not_form fieldId : fieldId ∈ fieldIds -> fieldId <> "contactForm".
Proof.
  unfold fieldIds. rewrite !elem_of_cons, elem_of_nil.
  intros [->|[->|[->|[->|[->|[->|[]]]]]]]; done.
Qed.

(** The listeners a field event reaches. *)
Lemma listeners_of_field w target type fd :
  is_Some (document w !! "contactForm") ->
  (target, fd) ∈ entries (fieldsOf w) ->
  is_Some (document w !! target) ->
  filter (fun l => listens target type l = true) (listenersOf w)
  = filter (fun l => listens target type l = true)
      [ Listener target "blur" (onBlur target fd);
        Listener target "input" (onInput target);
        Listener target "change" (onChange target) ].
Proof.
  intros Hform Hin Hpresent. unfold listenersOf.
  rewrite (ref_present w "contactForm" Hform).
  assert (Hsubmit : forall h,
            filter (fun l => listens target type l = true)
                   [Listener "contactForm" "submit" h] = []).
  { intros h. rewrite filter_cons, filter_nil. unfold listens. cbn [l_target l_type].
    rewrite (bool_decide_eq_false_2 ("contactForm" = target)); [done |].
    intros Heq. symmetry in Heq. revert Heq. apply fieldId_not_form.
    by apply (entries_elem_id (fieldsOf w) target fd). }
  by rewrite filter_app, Hsubmit, app_nil_r, (filter_fieldListeners w target type fd).
Qed.


Lemma ref_is_Some w id el : ref w id = Some el -> is_Some (document w !! el).
Proof.
  unfold ref. destruct (document w !! id) eqn:E; [| done]. intros [= <-]. eauto.
Qed.

Lemma listenersOf_present w l :
  l ∈ listenersOf w -> is_Some (document w !! l_target l).
Proof.
  unfold listenersOf.
  destruct (ref w "contactForm") as [form|] eqn:Hform; [| by intros ?%elem_of_nil].
  rewrite elem_of_app, list_elem_of_singleton. intros [Hl | ->].
  - apply list_elem_of_In, in_concat in Hl as (ls & Hls & Hl).
    apply in_map_iff in Hls as (entry & <- & Hentry).
    apply list_elem_of_In in Hentry, Hl. unfold fieldListeners in Hl.
    rewrite (element_fieldsOf w entry Hentry) in Hl.
    destruct (ref w entry.1) as [el|] eqn:Href; [| by apply elem_of_nil in Hl].
    apply ref_is_Some in Href.
    rewrite !elem_of_cons, elem_of_nil in Hl.
    by destruct Hl as [-> | [-> | [-> | []]]].
  - by apply ref_is_Some in Hform.
Qed.

(** X2: the wiring never raises an exception: without the form it registers
    nothing; with it, it registers the submit listener and, for each field
    whose control is present, the blur, input and change listeners, and it
    skips the fields whose control is absent.  It leaves the page as it is. *)
Theorem initializeContactForm_skips_absent_controls :
  forall w : world,
    initializeContactForm w = (w, Ok (listenersOf w))
    /\ (document w !! "contactForm" = None -> listenersOf w = [])
    /\ (forall l, l ∈ listenersOf w -> is_Some (document w !! l_target l))
    /\ (forall fieldId fd type,
          is_Some (document w !! "contactForm") ->
          (fieldId, fd) ∈ entries (fieldsOf w) ->
          type ∈ ["blur"; "input"; "change"] ->
          (exists l, l ∈ listenersOf w /\ l_target l = fieldId /\ l_type l = type)
          <-> is_Some (document w !! fieldId)).
Proof.
  intros w. split; [apply initializeContactForm_eq |]. split; [| split].
  - intros Hform. unfold listenersOf, ref. by rewrite Hform.
  - apply listenersOf_present.
  - intros fieldId fd type Hform Hin Htype. split.
    + intros (l & Hl & <- & _). by apply listenersOf_present.
    + intros Hpresent.
      pose proof (listeners_of_field w fieldId type fd Hform Hin Hpresent) as Hfilter.
      assert (Hone : exists l, l ∈ filter (fun l => listens fieldId type l = true)
                                      (listenersOf w)).
      { rewrite Hfilter. rewrite !filter_cons, filter_nil. unfold listens.
        cbn [l_target l_type]. rewrite !(bool_decide_eq_true_2 (fieldId = fieldId)) by done.
        rewrite !elem_of_cons, elem_of_nil in Htype.
        destruct Htype as [-> | [-> | [-> | []]]]; simpl; eexists; apply list_elem_of_here. }
      destruct Hone as [l Hl]. apply list_elem_of_filter in Hl as [Hlis Hl].
      unfold listens in Hlis. apply andb_true_iff in Hlis as [Ht Hty].
      apply bool_decide_eq_true in Ht, Hty. eauto.
Qed.


End Wiring.

(** ** The sample pages *)

Section SamplePages.
Import JsString.

Lemma wellFormed_contactPage n e s c m agree : wellFormed (contactPage n e s c m agree).
Proof.
  unfold wellFormed, textControl.
  repeat split; eexists; try (split; [reflexivity | by right]); reflexivity.
Qed.

Lemma entries_cases fs (P : string -> fieldData -> Prop) :
  P "name" (name fs) -> P "email" (email fs) -> P "subject" (subject fs) ->
  P "category" (category fs) -> P "message" (message fs) -> P "consent" (consent fs) ->
  forall fieldId fd, (fieldId, fd) ∈ entries fs -> P fieldId fd.
Proof.
  intros Hn He Hs Hc Hm Hk fieldId fd. unfold entries. rewrite !elem_of_cons, elem_of_nil.
  intros [H|[H|[H|[H|[H|[H|[]]]]]]]; by injection H as -> ->.
Qed.

Lemma subject_entry fs : ("subject", subject fs) ∈ entries fs.
Proof. do 2 apply list_elem_of_further. apply list_elem_of_here. Qed.


Lemma staleErrorPage_others_pass :
  forall other fd', (other, fd') ∈ entries (fieldsOf staleErrorPage) ->
                    other <> "subject" -> passes fd' staleErrorPage = Ok true.
Proof.
  apply (entries_cases _ (fun other fd' =>
           other <> "subject" -> passes fd' staleErrorPage = Ok true));
    intros H; try done; by vm_compute.
Qed.

(** C1 at a filled-in page: the six predicates pass and the submit shows the
    success message, resets the controls and sets the 5000 ms timer that
    hides the message again, but the payload it logs holds the values read
    after the reset, which are empty, not the values submitted. *)
Theorem onSubmit_logs_values_after_reset :
  let w := filledPage in
  let w' := fst (onSubmit "contactForm" (fieldsOf w) w) in
  map (fun entry => passes entry.2 w) (entries (fieldsOf w))
  = [Ok true; Ok true; Ok true; Ok true; Ok true; Ok true]
  /\ map (fun id => el_value <$> document w !! id)
       ["name"; "email"; "subject"; "category"; "message"]
     = [Some (js "Ada"); Some (js "user@example.com"); Some (js "Order");
        Some (js "support"); Some (js "Hello")]
  /\ snd (onSubmit "contactForm" (fieldsOf w) w) = Ok tt
  /\ el_display <$> document w' !! "successMessage" = Some "block"
  /\ map (fun id => el_value <$> document w' !! id)
       ["name"; "email"; "subject"; "category"; "message"]
     = [Some []; Some []; Some []; Some []; Some []]
  /\ el_checked <$> document w' !! "consent" = Some false
  /\ console w' = [LogText "Form submitted successfully";
                   LogPayload (Payload [] [] [] [] [])]
  /\ timers w' = [Timer 5000 (HideSuccess (Some "successMessage"))]
  /\ el_display <$> document (fst (elapse 4999 w')) !! "successMessage" = Some "block"
  /\ el_display <$> document (fst (elapse 5000 w')) !! "successMessage" = Some "none".
Proof. vm_compute. by repeat split. Qed.

(** C2 at a page without the subject control: the wiring skips the field
    silently, but the submit listener throws a TypeError when it reaches the
    field, so the fields after it are not validated: the message is empty
    and consent is not given, and neither error is shown. *)
Theorem onSubmit_throws_on_absent_control :
  let w := missingSubjectPage in
  let w' := fst (onSubmit "contactForm" (fieldsOf w) w) in
  document w !! "subject" = None
  /\ initializeContactForm w = (w, Ok (listenersOf w))
  /\ map (fun l => (l_target l, l_type l)) (listenersOf w)
     = [ ("name", "blur"); ("name", "input"); ("name", "change");
         ("email", "blur"); ("email", "input"); ("email", "change");
         ("category", "blur"); ("category", "input"); ("category", "change");
         ("message", "blur"); ("message", "input"); ("message", "change");
         ("consent", "blur"); ("consent", "input"); ("consent", "change");
         ("contactForm", "submit") ]
  /\ snd (onSubmit "contactForm" (fieldsOf w) w) = Throw TypeError
  /\ annotation w' "name" = Some ("Please enter your full name", true)
  /\ passes (message (fieldsOf w)) w = Ok false
  /\ annotation w' "message" = Some ("", false)
  /\ passes (consent (fieldsOf w)) w = Ok false
  /\ annotation w' "consent" = Some ("", false).
Proof.
  split; [done |]. split; [apply initializeContactForm_eq |].
  vm_compute. by repeat split.
Qed.


(** C8 fails on a page where the email error is shown though the email
    address is valid: the subject is the one field that fails, and the
    submit changes the email annotation, by clearing it. *)
Lemma onSubmit_clears_stale_error :
  let w := staleErrorPage in
  let w' := fst (onSubmit "contactForm" (fieldsOf w) w) in
  map (fun entry => passes entry.2 w) (entries (fieldsOf w))
  = [Ok true; Ok true; Ok false; Ok true; Ok true; Ok true]
  /\ annotation w "email" = Some ("Please enter a valid email address", true)
  /\ annotation w' "email" = Some ("", false)
  /\ annotation w' "email" <> annotation w "email".
Proof. vm_compute. by repeat split. Qed.

(** *** Instances *)


Lemma onSubmit_failed_only_annotates_partlyFilled :
  passes (subject (fieldsOf partlyFilledPage)) partlyFilledPage = Ok false
  /\ console (fst (onSubmit "contactForm" (fieldsOf partlyFilledPage) partlyFilledPage))
     = console partlyFilledPage
  /\ timers (fst (onSubmit "contactForm" (fieldsOf partlyFilledPage) partlyFilledPage))
     = timers partlyFilledPage.
Proof.
  split; [done |].
  pose proof (onSubmit_failed_only_annotates partlyFilledPage "subject"
                (subject (fieldsOf partlyFilledPage)) (subject_entry _) eq_refl)
    as (Hc & Ht & _).
  by split.
Defined.

Lemma onSubmit_single_failure_staleError :
  passes (subject (fieldsOf staleErrorPage)) staleErrorPage = Ok false
  /\ annotation (fst (onSubmit "contactForm" (fieldsOf staleErrorPage) staleErrorPage))
       "subject" = Some ("Please enter a subject", true)
  /\ annotation (fst (onSubmit "contactForm" (fieldsOf staleErrorPage) staleErrorPage))
       "email" = Some ("", false).
Proof.
  split; [done |].
  pose proof (onSubmit_single_failure staleErrorPage "subject"
                (subject (fieldsOf staleErrorPage)) (subject_entry _) eq_refl
                staleErrorPage_others_pass) as (Hself & Hother & _).
  split; [by rewrite Hself |].
  rewrite (Hother "email"); [done | | done].
  apply list_elem_of_further. apply list_elem_of_here.
Defined.


Lemma onSubmit_success_filled :
  wellFormed filledPage
  /\ el_display <$> document (fst (elapse 5000
         (fst (onSubmit "contactForm" (fieldsOf filledPage) filledPage))))
       !! "successMessage" = Some "none".
Proof.
  split; [apply wellFormed_contactPage |].
  assert (Hall : forall fieldId fd, (fieldId, fd) ∈ entries (fieldsOf filledPage) ->
                                    passes fd filledPage = Ok true).
  { by apply (entries_cases _ (fun _ fd => passes fd filledPage = Ok true)). }
  assert (Hsm : is_Some (document filledPage !! "successMessage")) by (by eexists).
  pose proof (onSubmit_success filledPage (wellFormed_contactPage _ _ _ _ _ _) Hall)
    as (_ & _ & _ & _ & _ & Helapse).
  by rewrite (Helapse eq_refl Hsm 5000).
Defined.

End SamplePages.

(** ** More on the error presenter and the field events *)

Section FieldEvents.

Lemma shown_shown m1 m2 e : shown m2 (shown m1 e) = shown m2 e.
Proof.
  unfold shown, set_classList, set_textContent. simpl. f_equal.
  by rewrite <- (assoc_L (∪)), (idemp_L (∪)).
Qed.

Lemma cleared_shown m e : cleared (shown m e) = cleared e.
Proof.
  unfold cleared, shown, set_classList, set_textContent. simpl. f_equal.
  apply set_eq. intros x. rewrite !elem_of_difference, elem_of_union. tauto.
Qed.

Lemma shown_cleared m e : shown m (cleared e) = shown m e.
Proof.
  unfold cleared, shown, set_classList, set_textContent. simpl. f_equal.
  apply set_eq. intros x. rewrite !elem_of_union, elem_of_difference.
  destruct (decide (x ∈ ({["show"]} : gset string))); tauto.
Qed.

Lemma annotate_annotate f g fieldId w :
  annotate f fieldId (annotate g fieldId w) = annotate (f ∘ g) fieldId w.
Proof. unfold annotate, set_document. simpl. by rewrite alter_alter_eq. Qed.

Lemma annotate_ext f g fieldId w :
  (forall e, f e = g e) -> annotate f fieldId w = annotate g fieldId w.
Proof. intros H. unfold annotate. f_equal. apply alter_ext. auto. Qed.

Lemma annotate_comm f g a b w :
  a <> b -> annotate f a (annotate g b w) = annotate g b (annotate f a w).
Proof.
  intros Hne. unfold annotate, set_document. simpl. rewrite alter_alter_ne; [done |].
  intros H. by apply errorId_inj in H.
Qed.

(** X3: calls of the error presenter compose as assignments do.  On one
    field the last call wins, whatever came before it; calls on different
    fields commute. *)
Theorem error_presenter_last_call_wins :
  forall (w : world) (a b m1 m2 : string),
    (showFieldError a m1 ;; showFieldError a m2) w = showFieldError a m2 w
    /\ (showFieldError a m1 ;; clearFieldError a) w = clearFieldError a w
    /\ (clearFieldError a ;; showFieldError a m1) w = showFieldError a m1 w
    /\ (a <> b ->
        (showFieldError a m1 ;; showFieldError b m2) w
        = (showFieldError b m2 ;; showFieldError a m1) w
        /\ (showFieldError a m1 ;; clearFieldError b) w
           = (clearFieldError b ;; showFieldError a m1) w
        /\ (clearFieldError a ;; clearFieldError b) w
           = (clearFieldError b ;; clearFieldError a) w).
Proof.
  intros w a b m1 m2. unfold bind.
  rewrite !showFieldError_eq, !clearFieldError_eq, !showFieldError_eq.
  rewrite !annotate_annotate.
  split; [| split; [| split]].
  - f_equal. apply annotate_ext. intros e. apply shown_shown.
  - f_equal. apply annotate_ext. intros e. apply cleared_shown.
  - f_equal. apply annotate_ext. intros e. apply shown_cleared.
  - intros Hne.
    assert (Hne' : b <> a) by congruence.
    repeat split; f_equal; by apply annotate_comm.
Qed.






End FieldEvents.

(** ** Repeated submits *)

Section RepeatedSubmit.

Lemma verdict_idemp fd b e : verdict fd b (verdict fd b e) = verdict fd b e.
Proof. destruct b; [apply cleared_idemp | apply shown_shown]. Qed.

Lemma sameControls_annotationsOnly ids w w' :
  annotationsOnly ids w w' -> sameControls w w'.
Proof.
  intros (_ & _ & _ & Hk) id. destruct (Hk id) as [_ H].
  inversion H as [e e' (Ht & Hv & Hc & _) |]; [| done].
  unfold controlView. simpl. by rewrite Ht, Hv, Hc.
Qed.

(** A second pass of the loop over the page the first pass left finds the
    same verdicts and changes nothing. *)
Lemma loop_fixpoint l : forall acc w,
  tableEntries l -> NoDup l.*1 ->
  foldM validateStep l acc (fst (foldM validateStep l acc w))
  = foldM validateStep l acc w.
Proof.
  induction l as [|[fieldId fd] l IH]; intros acc w Hl Hnd; [done |].
  pose proof Hl as Hl0. apply Forall_cons in Hl as [Hfd Hl]. simpl in Hfd.
  rewrite fmap_cons in Hnd. apply NoDup_cons in Hnd as [Hnot Hnd]. simpl in Hnot.
  rewrite (foldM_cons _ _ _ _ w), validateStep_eq by done.
  destruct (passes fd w) as [b|e] eqn:Hb.
  - set (w1 := annotate (verdict fd b) fieldId w).
    set (acc' := if b then acc else false).
    pose proof (loop_frame l acc' w1 Hl) as Hframe.
    specialize (IH acc' w1 Hl Hnd).
    destruct (foldM validateStep l acc' w1) as [w' r] eqn:E.
    cbn [fst] in *.
    rewrite foldM_cons, validateStep_eq by done.
    assert (Hb' : passes fd w' = Ok b).
    { rewrite (passes_sameControls fd w1 w') by
        (done || by apply (sameControls_annotationsOnly l.*1)).
      unfold w1. by rewrite passes_annotate. }
    rewrite Hb'. fold acc'.
    assert (Hw' : annotate (verdict fd b) fieldId w' = w').
    { unfold annotate. rewrite alter_id; [apply set_document_id |].
      intros x Hx. destruct Hframe as (_ & _ & _ & Hk).
      destruct (Hk (fieldId +:+ "Error")) as [Heq _]. rewrite Heq in Hx.
      - unfold w1, annotate in Hx. simpl in Hx. rewrite lookup_alter_eq in Hx.
        destruct (document w !! (fieldId +:+ "Error")) as [e0|]; [| done].
        injection Hx as <-. apply verdict_idemp.
      - intros (id & Hid & Hin)%list_elem_of_fmap. apply errorId_inj in Hid. by subst. }
    by rewrite Hw'.
  - cbn [fst]. by rewrite foldM_cons, validateStep_eq, Hb.
Qed.

(** X5: a submit that fails is idempotent: submitting again, with nothing
    edited in between, leaves the page exactly as the first submit left it
    and ends the same way. *)
Theorem onSubmit_failed_idempotent (w : world) (fieldId : string) (fd : fieldData) :
  (fieldId, fd) ∈ entries (fieldsOf w) ->
  passes fd w = Ok false ->
  onSubmit "contactForm" (fieldsOf w) (fst (onSubmit "contactForm" (fieldsOf w) w))
  = onSubmit "contactForm" (fieldsOf w) w.
Proof.
  intros Hin Hfalse.
  destruct (onSubmit_failed w fieldId fd Hin Hfalse) as [Hw' Hr].
  set (fs := fieldsOf w) in *. set (w1 := set_defaultPrevented true w) in *.
  pose proof (tableEntries_fieldsOf w) as Htab. fold fs in Htab.
  pose proof (loop_fixpoint (entries fs) true w1 Htab NoDup_fieldIds) as Hfix.
  pose proof (loop_frame (entries fs) true w1 Htab) as (_ & _ & Hd & _).
  rewrite Hw'. rewrite (onSubmit_eq _ _ w). fold w1.
  destruct (foldM validateStep (entries fs) true w1) as [w2 r] eqn:E.
  cbn [fst snd] in *. rewrite onSubmit_eq.
  assert (Hw2 : set_defaultPrevented true w2 = w2).
  { destruct w2. cbn in Hd. unfold set_defaultPrevented. cbn. by rewrite Hd. }
  rewrite Hw2, Hfix. by destruct r as [[|]|e].
Qed.

(** A submit on which every predicate passes, step by step. *)
Lemma onSubmit_success_run w :
  wellFormed w ->
  (forall fieldId fd, (fieldId, fd) ∈ entries (fieldsOf w) -> passes fd w = Ok true) ->
  exists w2 p,
    console w2 = console w /\ timers w2 = timers w /\ sameElements w w2
    /\ onSubmit "contactForm" (fieldsOf w) w
       = (World (documentAfterSuccess "contactForm" w2)
            (console w2 ++ [LogText "Form submitted successfully"; LogPayload p])
            (timers w2 ++ [Timer 5000 (HideSuccess (ref w "successMessage"))])
            (defaultPrevented w2), Ok tt).
Proof.
  intros Hwf Hall.
  set (fs := fieldsOf w) in *. set (w1 := set_defaultPrevented true w).
  pose proof (tableEntries_fieldsOf w) as Htab. fold fs in Htab.
  pose proof (loop_frame (entries fs) true w1 Htab) as Hframe.
  assert (Hb : snd (foldM validateStep (entries fs) true w1) = Ok true).
  { apply loop_true; [done |]. split; [done |]. rewrite Forall_forall.
    intros [fieldId fd] Hin. simpl. unfold w1.
    rewrite passes_set_defaultPrevented by apply (tableEntries_elem _ _ Htab Hin).
    by apply (Hall fieldId). }
  destruct (foldM validateStep (entries fs) true w1) as [w2 r] eqn:E.
  simpl in Hb, Hframe. subst r.
  assert (Hsame : sameElements w w2) by (by apply sameElements_annotationsOnly in Hframe).
  destruct (successPath_wellFormed w w2 Hwf Hsame) as (p & _ & Hsucc).
  fold fs in Hsucc.
  apply annotationsOnly_set_defaultPrevented in Hframe as (Hc & Ht & _ & _).
  exists w2, p. repeat split; try done; try apply Hsame.
  rewrite onSubmit_eq. fold w1. by rewrite E.
Qed.

Lemma display_documentAfterSuccess form w :
  is_Some (document w !! "successMessage") ->
  el_display <$> documentAfterSuccess form w !! "successMessage" = Some "block".
Proof.
  intros [s Hs]. rewrite lookup_documentAfterSuccess, decide_True, Hs by done.
  simpl. unfold reset_element. by case_bool_decide.
Qed.

(** X6: the hide timer of an earlier submit is not cancelled by a later
    one.  When a valid form is submitted while the timer of an earlier
    success still has [d] < 5000 ms to run, the success message this submit
    displays is hidden after [d] ms, not after 5000; the timer of this
    submit stays pending for the remaining time. *)
Theorem second_submit_hidden_by_first_timer (w : world) (d : N) :
  wellFormed w ->
  (forall fieldId fd, (fieldId, fd) ∈ entries (fieldsOf w) -> passes fd w = Ok true) ->
  is_Some (document w !! "successMessage") ->
  timers w = [Timer d (HideSuccess (Some "successMessage"))] ->
  d < 5000 ->
  let w' := fst (onSubmit "contactForm" (fieldsOf w) w) in
  let w'' := fst (elapse d w') in
  el_display <$> document w' !! "successMessage" = Some "block"
  /\ el_display <$> document w'' !! "successMessage" = Some "none"
  /\ timers w'' = [Timer (5000 - d) (HideSuccess (Some "successMessage"))].
Proof.
  intros Hwf Hall Hsm Htimers Hd w' w''.
  destruct (onSubmit_success_run w Hwf Hall) as (w2 & p & Hc & Ht & Hsame & Hrun).
  assert (Hsm2 : is_Some (document w2 !! "successMessage")) by (by apply Hsame).
  pose proof (display_documentAfterSuccess "contactForm" w2 Hsm2) as Hblock.
  unfold w'', w'. rewrite Hrun. cbn [fst document].
  split; [done |].
  rewrite Ht, Htimers, (ref_present w "successMessage" Hsm). cbn [app].
  unfold elapse. cbn [timers].
  rewrite !filter_cons, !filter_nil. cbn [t_delay].
  assert (Hdd : (d <=? d) = true) by (by apply N.leb_le).
  assert (H5d : (5000 <=? d) = false) by (apply N.leb_gt; lia).
  rewrite Hdd, H5d. simpl.
  unfold bind, update. cbn [fst document set_document set_timers timers].
  rewrite lookup_alter_eq.
  destruct (documentAfterSuccess "contactForm" w2 !! "successMessage"); done.
Qed.

End RepeatedSubmit.

(** ** More on the pure predicates *)

Section PredicatesMore.
Import JsString.

Lemma excludesSpaceAt_count s : excludesSpaceAt s -> count_occ N.eq_dec s 0x40 = 0%nat.
Proof.
  intros H. apply count_occ_not_In. intros Hin%list_elem_of_In.
  unfold excludesSpaceAt in H. rewrite Forall_forall in H.
  by destruct (H _ Hin) as [_ Hne].
Qed.

Lemma excludesSpaceAt_noSpace s :
  excludesSpaceAt s -> Forall (fun c => isWhiteSpace c = false) s.
Proof. intros H. eapply Forall_impl; [exact H |]. by intros c [? _]. Qed.

Lemma isFieldValid_total s : exists b, isFieldValid (VStr s) = Ok b.
Proof. unfold isFieldValid. eauto. Qed.

(** X7: the email predicate does not trim.  An address it accepts holds
    no whitespace at all and exactly one "@", so an address with whitespace
    before or after it is rejected, while the required-field predicate
    gives the same answer with or without such padding; and a boolean is
    never a valid address. *)
Theorem isValidEmail_is_not_trimmed :
  (forall s, isValidEmail (VStr s) = Ok true ->
     Forall (fun c => isWhiteSpace c = false) s
     /\ count_occ N.eq_dec s 0x40 = 1%nat)
  /\ (forall pre s post,
        Forall (fun c => isWhiteSpace c = true) pre ->
        Forall (fun c => isWhiteSpace c = true) post ->
        (pre ++ post <> [] -> isValidEmail (VStr (pre ++ s ++ post)) = Ok false)
        /\ isFieldValid (VStr (pre ++ s ++ post)) = isFieldValid (VStr s))
  /\ (forall b, isValidEmail (VBool b) = Ok false).
Proof.
  assert (Hstrict : forall s, isValidEmail (VStr s) = Ok true ->
            Forall (fun c => isWhiteSpace c = false) s
            /\ count_occ N.eq_dec s 0x40 = 1%nat).
  { intros s (l & d & t & -> & _ & _ & _ & Hl & Hdt)%isValidEmail_true. split.
    - apply Forall_app. split; [by apply excludesSpaceAt_noSpace |].
      apply Forall_app. split; [by repeat constructor |].
      by apply excludesSpaceAt_noSpace.
    - pose proof (excludesSpaceAt_count _ Hdt) as Hrest.
      rewrite count_occ_app, (excludesSpaceAt_count l Hl).
      change ([0x40] ++ d ++ [0x2E] ++ t) with ([0x40] ++ (d ++ [0x2E] ++ t)).
      by rewrite count_occ_app, Hrest. }
  split; [done |]. split; [| by intros []].
  intros pre s post Hpre Hpost. split.
  - intros Hne.
    destruct (isValidEmail (VStr (pre ++ s ++ post))) as [[|]|e] eqn:E; try done.
    apply Hstrict in E as [Hno _].
    apply Forall_app in Hno as [Hno1 Hno]. apply Forall_app in Hno as [_ Hno2].
    destruct pre as [|c pre].
    + destruct post as [|c post]; [done |].
      apply Forall_cons in Hpost as [Hc _]. apply Forall_cons in Hno2 as [Hc' _].
      congruence.
    + apply Forall_cons in Hpre as [Hc _]. apply Forall_cons in Hno1 as [Hc' _].
      congruence.
  - destruct (isFieldValid_total s) as [b Hb].
    destruct (isFieldValid_total (pre ++ s ++ post)) as [b' Hb'].
    rewrite Hb, Hb'. f_equal. destruct b, b'; try done.
    + apply isFieldValid_whitespace in Hb'.
      apply Forall_app in Hb' as [_ Hb']. apply Forall_app in Hb' as [Hs _].
      apply isFieldValid_whitespace in Hs. congruence.
    + apply isFieldValid_whitespace in Hb.
      assert (isFieldValid (VStr (pre ++ s ++ post)) = Ok false) as Hf.
      { apply isFieldValid_whitespace. by repeat (apply Forall_app; split). }
      congruence.
Qed.

End PredicatesMore.

(** ** The other features of the script *)

Module SiteFacts.
Import Site.
Local Open Scope site_scope.

(** *** The monad and the loops *)

Lemma page_eta p :
  Page (env p) (elems p) (order p) (listeners p) (observers p) (scrollTarget p)
    (focusCalls p) (log p) (reported p) (defaultPrevented p) (form p) = p.
Proof. by destruct p. Qed.

Lemma bind_eq {A B} (m : SM A) (k : A -> SM B) p p' a :
  m p = (p', Normal a) -> bind m k p = k a p'.
Proof. unfold bind. by intros ->. Qed.

Lemma bind_abrupt {A B} (m : SM A) (k : A -> SM B) p p' e :
  m p = (p', Abrupt e) -> bind m k p = (p', Abrupt e).
Proof. unfold bind. by intros ->. Qed.

Lemma forEach_cons {A} (a : A) l f p :
  forEach (a :: l) f p =
  match f a p with
  | (p', Normal _) => forEach l f p'
  | (p', Abrupt e) => (p', Abrupt e)
  end.
Proof. done. Qed.

Lemma forEach_app {A} (l1 l2 : list A) f p :
  forEach (l1 ++ l2) f p =
  match forEach l1 f p with
  | (p', Normal _) => forEach l2 f p'
  | (p', Abrupt e) => (p', Abrupt e)
  end.
Proof.
  revert p. induction l1 as [|a l1 IH]; intros p; [done |].
  rewrite <- app_comm_cons, !forEach_cons. destruct (f a p) as [p' [[]|e]]; [apply IH | done].
Qed.

(** A loop whose body updates the element it is given. *)
Lemma forEach_modify (l : list nat) (body : nat -> SM unit) (f : elem -> elem) p :
  (forall h q, body h q = (set_elems (alter f h (elems q)) q, Normal tt)) ->
  forEach l body p
  = (set_elems (foldl (fun d h => alter f h d) (elems p) l) p, Normal tt).
Proof.
  intros Hbody. revert p. induction l as [|h l IH]; intros p.
  - simpl. unfold ret, set_elems. by rewrite page_eta.
  - rewrite forEach_cons, Hbody, IH. by destruct p.
Qed.

Lemma lookup_foldl_alter (f : elem -> elem) (l : list nat) (d : gmap nat elem) h :
  (forall e, f (f e) = f e) ->
  foldl (fun d h => alter f h d) d l !! h
  = if bool_decide (h ∈ l) then f <$> d !! h else d !! h.
Proof.
  intros Hf. revert d. induction l as [|x l IH]; intros d; [done |].
  simpl. rewrite IH, lookup_alter.
  destruct (decide (x = h)) as [-> | Hne].
  - rewrite (bool_decide_eq_true_2 (h ∈ h :: l)) by apply list_elem_of_here.
    case_bool_decide; [| done].
    destruct (d !! h); simpl; [by rewrite Hf | done].
  - destruct (bool_decide (h ∈ l)) eqn:E.
    + apply bool_decide_eq_true in E.
      by rewrite bool_decide_eq_true_2 by (by apply list_elem_of_further).
    + apply bool_decide_eq_false in E.
      rewrite bool_decide_eq_false_2; [done |].
      rewrite elem_of_cons. intros [-> | ?]; done.
Qed.

(** A loop that registers a listener per element. *)
Lemma forEach_addEventListener (l : list nat) (r : nat -> registration) p :
  forEach l (fun h => addEventListener (r_target (r h)) (r_type (r h)) (r_handler (r h))) p
  = (set_listeners (listeners p ++ map r l) p, Normal tt).
Proof.
  revert p. induction l as [|h l IH]; intros p.
  - simpl. unfold ret, set_listeners. by rewrite app_nil_r, page_eta.
  - rewrite forEach_cons. unfold addEventListener at 1. rewrite IH.
    unfold set_listeners. simpl. rewrite <- app_assoc. by destruct (r h).
Qed.


(** *** [initializeNavigation] *)

Ltac sets :=
  apply set_eq; intros ?;
  repeat first [ rewrite elem_of_union | rewrite elem_of_difference
               | rewrite elem_of_singleton ];
  tauto.

Lemma markCurrent_idemp path e : markCurrent path (markCurrent path e) = markCurrent path e.
Proof.
  unfold markCurrent, set_classList. simpl.
  case_bool_decide; f_equal; sets.
Qed.

Lemma mark_body path link q :
  (classList_remove link "active" ;;
   href <- getAttribute link "href" ;;
   when (bool_decide (href = Some path)) (classList_add link "active")) q
  = (set_elems (alter (markCurrent path) link (elems q)) q, Normal tt).
Proof.
  unfold bind, classList_remove, getAttribute, classList_add, modify, read, when, ret.
  cbn [elems set_elems].
  rewrite lookup_alter_eq.
  destruct (elems q !! link) as [e|] eqn:E; simpl.
  - case_bool_decide as H.
    + unfold set_elems. simpl. rewrite alter_alter_eq. f_equal. f_equal.
      apply alter_ext. intros e' He'. rewrite E in He'. injection He' as <-.
      unfold markCurrent, set_classList. simpl.
      by rewrite bool_decide_eq_true_2.
    + f_equal. f_equal. apply alter_ext. intros e' He'. rewrite E in He'. injection He' as <-.
      unfold markCurrent. by rewrite bool_decide_eq_false_2.
  - f_equal. f_equal. apply alter_ext. intros e' He'. congruence.
Qed.

Lemma byId_present id p h :
  byId id p = Some h ->
  exists e, elems p !! h = Some e /\ attributes e !! "id" = Some id.
Proof.
  unfold byId, matching. intros H. apply head_Some_elem_of in H.
  apply list_elem_of_filter in H as [H _]. unfold selects in H.
  destruct (elems p !! h) as [e|]; [| done].
  exists e. split; [done |]. unfold has_id in H. by apply bool_decide_eq_true in H.
Qed.

Lemma byId_ne p t m :
  byId "navToggle" p = Some t -> byId "navMenu" p = Some m -> t <> m.
Proof.
  intros Ht Hm ->. apply byId_present in Ht as (e & He & H1).
  apply byId_present in Hm as (e' & He' & H2). congruence.
Qed.

Lemma initializeNavigation_eq p t m :
  byId "navToggle" p = Some t -> byId "navMenu" p = Some m ->
  initializeNavigation p
  = (set_elems (foldl (fun d h => alter (markCurrent (pathname (env p))) h d)
                  (elems p) (navLinks m p))
       (set_listeners (listeners p ++ navListeners t m (navLinks m p)) p),
     Normal tt).
Proof.
  intros Ht Hm. unfold initializeNavigation.
  unfold getElementById, querySelector.
  unfold bind at 1. unfold read at 1. fold (byId "navToggle" p). rewrite Ht.
  unfold bind at 1. unfold read at 1. fold (byId "navMenu" p). rewrite Hm.
  unfold bind at 1. unfold addEventListener at 1.
  unfold bind at 1. unfold querySelectorAll, read at 1.
  unfold bind at 1.
  rewrite (forEach_addEventListener _
             (fun l => Registration (OnElement l) "click" (NavLinkClick t m))).
  unfold bind at 1. unfold addEventListener at 1.
  unfold bind at 1. unfold read at 1.
  rewrite (forEach_modify _ _ (markCurrent (pathname (env p)))).
  2:{ intros h q. apply mark_body. }
  cbn [set_listeners set_elems elems listeners env order observers scrollTarget
       focusCalls log reported defaultPrevented form].
  unfold navListeners, navLinks, matching. cbn [elems order].
  rewrite <- !app_assoc. done.
Qed.


(** X8: [initializeNavigation] does nothing on a page without the toggle or
    without the menu. On a page with both it completes, registers the
    listeners of the navigation after those already there, and leaves every
    nav link of the menu with the class [active] exactly when its [href] is
    the address of the page, whatever the link had before; no element
    changes in anything but this class, and nothing else of the page
    changes. *)
Theorem initializeNavigation_marks_current_links (p : page) :
  (byId "navToggle" p = None \/ byId "navMenu" p = None ->
   initializeNavigation p = (p, Normal tt))
  /\ forall t m,
      byId "navToggle" p = Some t -> byId "navMenu" p = Some m ->
      exists p',
        initializeNavigation p = (p', Normal tt)
        /\ listeners p' = listeners p ++ navListeners t m (navLinks m p)
        /\ set_elems (elems p) (set_listeners (listeners p) p') = p
        /\ (forall h, h ∉ navLinks m p -> elems p' !! h = elems p !! h)
        /\ forall l e,
            l ∈ navLinks m p -> elems p !! l = Some e ->
            exists e',
              elems p' !! l = Some e' /\ sameButClass "active" e e'
              /\ ("active" ∈ classList e'
                  <-> attributes e !! "href" = Some (pathname (env p))).
Proof.
  split.
  - intros H. unfold initializeNavigation, getElementById, querySelector.
    unfold bind at 1. unfold read at 1. fold (byId "navToggle" p).
    unfold bind at 1. unfold read at 1. fold (byId "navMenu" p).
    destruct H as [-> | ->]; [done |]. by destruct (byId "navToggle" p).
  - intros t m Ht Hm. eexists. split; [by apply initializeNavigation_eq |].
    split; [done |]. split; [by destruct p |]. cbn [elems set_elems].
    split.
    + intros h Hh. rewrite lookup_foldl_alter by apply markCurrent_idemp.
      by rewrite bool_decide_eq_false_2.
    + intros l e Hl He. exists (markCurrent (pathname (env p)) e).
      rewrite lookup_foldl_alter by apply markCurrent_idemp.
      rewrite bool_decide_eq_true_2 by done. rewrite He. split; [done |].
      unfold markCurrent, sameButClass. cbn [classList set_classList tagName ancestors
        attributes style textContent offsetTop offsetHeight].
      split.
      * repeat split; try done.
        all: case_bool_decide;
          repeat first [ rewrite elem_of_union | rewrite elem_of_difference
                       | rewrite elem_of_singleton ]; tauto.
      * case_bool_decide as H;
          repeat first [ rewrite elem_of_union | rewrite elem_of_difference
                       | rewrite elem_of_singleton ]; tauto.
Qed.


(** *** The dispatch of an event *)

Lemma forEach_concat {A B} (l : list A) (g : A -> list B) (f : B -> SM unit) p :
  forEach l (fun a => forEach (g a) f) p = forEach (concat (map g l)) f p.
Proof.
  revert p. induction l as [|a l IH]; intros p; [done |].
  cbn [map concat]. rewrite forEach_cons, forEach_app.
  destruct (forEach (g a) f p) as [p' [[]|e]]; [apply IH | done].
Qed.

Lemma runListener_normal r e p : (runListener r e p).2 = Normal tt.
Proof. unfold runListener. by destruct (runHandler _ _ _) as [? [|]]. Qed.

Lemma forEach_runListener rs e p :
  forEach rs (fun r => runListener r e) p
  = (foldl (fun q r => (runListener r e q).1) p rs, Normal tt).
Proof.
  revert p. induction rs as [|r rs IH]; intros p; [done |].
  rewrite forEach_cons. cbn [foldl]. pose proof (runListener_normal r e p) as H.
  destruct (runListener r e p) as [p' c]. simpl in H. subst c. apply IH.
Qed.

Lemma site_dispatch_eq path type e p :
  dispatchEvent path type e p
  = (foldl (fun q r => (runListener r e q).1) (set_defaultPrevented false p)
       (reached path type (listeners p)), Normal tt).
Proof.
  unfold dispatchEvent. unfold bind at 1. unfold bind at 1. unfold read.
  rewrite (forEach_concat path
             (fun t => filter (fun r => listensAt t type r = true) _)).
  apply forEach_runListener.
Qed.

(** *** Code that keeps a relation between the page before and after *)

Section Keeps.
Context (R : page -> page -> Prop) `{!PreOrder R}.

Lemma keeps_ret {A} (a : A) p : R p (ret a p).1.
Proof. done. Qed.

Lemma keeps_read {A} (f : page -> A) p : R p (read f p).1.
Proof. done. Qed.

Lemma keeps_throw {A} e p : R p (@throw A e p).1.
Proof. done. Qed.

Lemma keeps_bind {A B} (m : SM A) (k : A -> SM B) :
  (forall p, R p (m p).1) -> (forall a p, R p (k a p).1) ->
  forall p, R p (bind m k p).1.
Proof.
  intros Hm Hk p. unfold bind. specialize (Hm p).
  destruct (m p) as [p' [a|e]]; simpl in *; [| done].
  etrans; [exact Hm | apply Hk].
Qed.

Lemma keeps_forEach {A} (l : list A) (f : A -> SM unit) :
  (forall a p, R p (f a p).1) -> forall p, R p (forEach l f p).1.
Proof.
  intros Hf. induction l as [|a l IH]; intros p; [done |].
  cbn [forEach]. apply keeps_bind; [apply Hf | by intros _].
Qed.

Lemma keeps_when b (m : SM unit) :
  (forall p, R p (m p).1) -> forall p, R p (when b m p).1.
Proof. intros Hm p. destruct b; [apply Hm | done]. Qed.
End Keeps.

(** *** The navigation *)

Section Navigation.
Variables t m : nat.

Global Instance sameNavigation_preorder : PreOrder (sameNavigation t m).
Proof.
  split.
  - by intros p.
  - intros p1 p2 p3 [H1 H2] [H3 H4]. split; congruence.
Qed.

Lemma sameNavigation_elems p p' : elems p' = elems p -> sameNavigation t m p p'.
Proof. intros H. unfold sameNavigation, menuState, hasClass, attribute. by rewrite H. Qed.

Lemma modify_sameNavigation h f :
  (forall e, ancestors (f e) = ancestors e) ->
  (forall e, "active" ∈ classList (f e) <-> "active" ∈ classList e) ->
  (forall e, attributes (f e) !! "aria-expanded" = attributes e !! "aria-expanded") ->
  forall p, sameNavigation t m p (modify h f p).1.
Proof.
  intros Ha Hc Hx p. unfold modify, sameNavigation. cbn [fst elems set_elems]. split.
  - apply map_eq. intros i. rewrite !lookup_fmap, lookup_alter.
    destruct (decide (h = i)) as [-> |]; [| done].
    destruct (elems p !! i); simpl; [by rewrite Ha | done].
  - unfold menuState, hasClass, attribute. cbn [elems set_elems].
    rewrite !lookup_alter.
    f_equal; [f_equal |].
    + destruct (decide (h = m)) as [-> |]; [| done].
      destruct (elems p !! m); simpl; [| done]. apply bool_decide_ext, Hc.
    + destruct (decide (h = t)) as [-> |]; [| done].
      destruct (elems p !! t); simpl; [| done]. apply bool_decide_ext, Hc.
    + destruct (decide (h = t)) as [-> |]; [| done].
      destruct (elems p !! t); simpl; [apply Hx | done].
Qed.

(** The listeners of the other features leave the navigation alone. *)
Lemma runHandler_other h e :
  notNavigation h ->
  forall p, sameNavigation t m p (runHandler h e p).1.
Proof.
  intros Hn. destruct h; try done; cbn [runHandler].
  - (* AnchorClick *)
    intros p. apply sameNavigation_elems.
    unfold bind, getAttribute, read, querySelectorText, preventDefault, querySelector,
      scrollTo, throw, ret.
    case_bool_decide; [done |].
    destruct (selectorEngine _ _ _ _) as [[x|]|]; try done.
    cbn. by destruct (head _).
  - apply keeps_when; [apply _ |]. apply keeps_bind; [apply _ | |].
    + intros p. apply sameNavigation_elems. unfold document_body. by destruct (body _).
    + intros b. apply modify_sameNavigation; try done.
      intros e0. cbn. rewrite elem_of_union, elem_of_singleton. split; [| tauto].
      intros [? | ?]; done.
  - apply keeps_bind; [apply _ | |].
    + intros p. apply sameNavigation_elems. unfold document_body. by destruct (body _).
    + intros b. apply modify_sameNavigation; try done.
      intros e0. cbn. rewrite elem_of_difference, elem_of_singleton. split; [tauto |].
      intros ?. split; [done |]. intros ?; done.
  - by apply modify_sameNavigation.
  - by apply modify_sameNavigation.
  - intros p. apply sameNavigation_elems.
    unfold bind, preventDefault, querySelector, read, focus, throw. cbn.
    by destruct (head _).
  - apply keeps_bind; [apply _ | apply keeps_read; apply _ |].
    intros root. destruct (matches e); apply modify_sameNavigation; try done.
    + intros e0. cbn. by rewrite lookup_insert_ne.
    + intros e0. cbn. by rewrite lookup_delete_ne.
  - intros p. apply sameNavigation_elems. unfold liftForm.
    by destruct (h (form p)) as [? [?|[]]].
Qed.


Lemma contains_eq a b p :
  contains a b p = (p, Normal (bool_decide (a ∈ pathOf p b))).
Proof.
  unfold contains, read, pathOf. destruct (elems p !! b); simpl; [done |].
  f_equal. f_equal. apply bool_decide_ext. rewrite list_elem_of_singleton. done.
Qed.

Hypothesis Htm : t <> m.

Lemma tree_alter (f : elem -> elem) h (d : gmap nat elem) :
  (forall e, ancestors (f e) = ancestors e) ->
  ancestors <$> alter f h d = ancestors <$> d.
Proof.
  intros Ha. apply map_eq. intros i. rewrite !lookup_fmap, lookup_alter.
  destruct (decide (h = i)) as [-> |]; [| done].
  destruct (d !! i); simpl; [by rewrite Ha | done].
Qed.

Lemma toggle_member (c : string) (X : gset string) :
  bool_decide (c ∈ (if bool_decide (c ∈ X) then X ∖ {[c]} else X ∪ {[c]}))
  = negb (bool_decide (c ∈ X)).
Proof.
  destruct (bool_decide (c ∈ X)) eqn:H; simpl.
  - apply bool_decide_eq_false_2. rewrite elem_of_difference, elem_of_singleton. tauto.
  - apply bool_decide_eq_true_2. rewrite elem_of_union, elem_of_singleton. tauto.
Qed.

Lemma remove_member (c : string) (X : gset string) :
  bool_decide (c ∈ X ∖ {[c]}) = false.
Proof.
  apply bool_decide_eq_false_2. rewrite elem_of_difference, elem_of_singleton. tauto.
Qed.

Ltac lookups :=
  repeat first [ rewrite lookup_alter_eq | rewrite lookup_alter_ne by done ].

Lemma runHandler_navigation h e p :
  is_Some (elems p !! t) -> is_Some (elems p !! m) ->
  navigationOf t m h ->
  ancestors <$> elems (runHandler h e p).1 = ancestors <$> elems p
  /\ menuState t m (runHandler h e p).1
     = menuStep t m (pathOf p (target e)) h (menuState t m p).
Proof.
  intros [et Het] [em Hem] Hn.
  destruct h; try (apply (runHandler_other _ e); done).
  - destruct Hn as [-> ->]. cbn [runHandler menuStep].
    unfold bind, classList_toggle, contains_class, setAttribute, modify, read.
    cbn [fst elems set_elems]. split; [by rewrite !tree_alter |].
    unfold menuState, toggled, hasClass, attribute. cbn [fst snd elems set_elems].
    lookups. rewrite Het, Hem. cbn. rewrite !toggle_member, lookup_insert_eq. done.
  - destruct Hn as [-> ->]. cbn [runHandler menuStep].
    unfold bind, classList_remove, setAttribute, modify, read.
    cbn [fst elems set_elems]. split; [by rewrite !tree_alter |].
    unfold menuState, closed, hasClass, attribute. cbn [fst snd elems set_elems].
    lookups. rewrite Het, Hem. cbn. rewrite !remove_member, lookup_insert_eq. done.
  - destruct Hn as [-> ->]. cbn [menuStep].
    assert (runHandler (NavOutsideClick t m) e p
            = when (negb (bool_decide (t ∈ pathOf p (target e)))
                    && negb (bool_decide (m ∈ pathOf p (target e))))
                (classList_remove m "active" ;;
                 classList_remove t "active" ;;
                 setAttribute t "aria-expanded" "false") p) as ->.
    { cbn [runHandler]. unfold bind at 1. rewrite contains_eq.
      unfold bind at 1. by rewrite contains_eq. }
    destruct (bool_decide (t ∈ _)), (bool_decide (m ∈ _));
      cbn [negb andb orb when]; try (by split).
    unfold bind, classList_remove, setAttribute, modify, read.
    cbn [fst elems set_elems]. split; [by rewrite !tree_alter |].
    unfold menuState, closed, hasClass, attribute. cbn [fst snd elems set_elems].
    lookups. rewrite Het, Hem. cbn. rewrite !remove_member, lookup_insert_eq. done.
Qed.


Lemma tree_present p p' x :
  ancestors <$> elems p' = ancestors <$> elems p ->
  is_Some (elems p !! x) -> is_Some (elems p' !! x).
Proof.
  intros H Hx. apply (f_equal (fun d => d !! x)) in H. rewrite !lookup_fmap in H.
  destruct Hx as [e He]. rewrite He in H. by destruct (elems p' !! x).
Qed.

Lemma tree_pathOf p p' x :
  ancestors <$> elems p' = ancestors <$> elems p -> pathOf p' x = pathOf p x.
Proof.
  intros H. apply (f_equal (fun d => d !! x)) in H. rewrite !lookup_fmap in H.
  unfold pathOf. destruct (elems p' !! x), (elems p !! x); simpl in *; congruence.
Qed.

Lemma runListener_navigation r e p :
  is_Some (elems p !! t) -> is_Some (elems p !! m) ->
  navigationOf t m (r_handler r) ->
  ancestors <$> elems (runListener r e p).1 = ancestors <$> elems p
  /\ menuState t m (runListener r e p).1
     = menuStep t m (pathOf p (target e)) (r_handler r) (menuState t m p).
Proof.
  intros Ht Hm Hn. pose proof (runHandler_navigation _ e p Ht Hm Hn) as H.
  unfold runListener. by destruct (runHandler (r_handler r) e p) as [p' [|]].
Qed.

Lemma reached_navigation rs e p :
  is_Some (elems p !! t) -> is_Some (elems p !! m) ->
  Forall (fun r => navigationOf t m (r_handler r)) rs ->
  ancestors <$> elems (foldl (fun q r => (runListener r e q).1) p rs)
  = ancestors <$> elems p
  /\ menuState t m (foldl (fun q r => (runListener r e q).1) p rs)
     = foldl (fun s r => menuStep t m (pathOf p (target e)) (r_handler r) s)
         (menuState t m p) rs.
Proof.
  intros Ht Hm Hrs. revert p Ht Hm.
  induction Hrs as [|r rs Hr Hrs IH]; intros p Ht Hm; [done |].
  cbn [foldl].
  destruct (runListener_navigation r e p Ht Hm Hr) as [H1 H2].
  destruct (IH (runListener r e p).1) as [H3 H4]; [by eapply tree_present ..|].
  split; [congruence |].
  rewrite H4, H2. by rewrite (tree_pathOf _ _ _ H1).
Qed.

Lemma elem_of_concat {A} (x : A) (ls : list (list A)) :
  x ∈ concat ls <-> exists l, x ∈ l /\ l ∈ ls.
Proof.
  induction ls as [|l ls IH]; cbn [concat].
  - split; [by intros ?%elem_of_nil | by intros (? & _ & ?%elem_of_nil)].
  - rewrite elem_of_app, IH. split.
    + intros [H | (l' & H1 & H2)]; [exists l | exists l'];
        (split; [done |]); [apply list_elem_of_here | by apply list_elem_of_further].
    + intros (l' & H1 & H2). apply elem_of_cons in H2 as [-> | H2]; [by left |].
      right. by exists l'.
Qed.

Lemma elem_of_reached r path type ls :
  r ∈ reached path type ls <-> r ∈ ls /\ r_type r = type /\ r_target r ∈ path.
Proof.
  unfold reached. rewrite elem_of_concat. split.
  - intros (l & Hr & Hl). apply list_elem_of_fmap in Hl as (tg & -> & Htg).
    apply list_elem_of_filter in Hr as [Hr ?]. unfold listensAt in Hr.
    apply andb_true_iff in Hr as [H1 H2].
    apply bool_decide_eq_true in H1, H2. subst. done.
  - intros (Hr & <- & Htg). eexists. split; [| apply list_elem_of_fmap; eauto].
    apply list_elem_of_filter. split; [| done]. unfold listensAt.
    by rewrite !bool_decide_eq_true_2.
Qed.

Lemma reached_app path1 path2 type ls :
  reached (path1 ++ path2) type ls = reached path1 type ls ++ reached path2 type ls.
Proof. unfold reached. by rewrite map_app, concat_app. Qed.

Lemma dispatch_navigation path type e p :
  is_Some (elems p !! t) -> is_Some (elems p !! m) ->
  Forall (fun r => navigationOf t m (r_handler r)) (listeners p) ->
  menuState t m (dispatchEvent path type e p).1
  = foldl (fun s r => menuStep t m (pathOf p (target e)) (r_handler r) s)
      (menuState t m p) (reached path type (listeners p)).
Proof.
  intros Ht Hm Hls. rewrite site_dispatch_eq. cbn [fst].
  apply (reached_navigation _ e (set_defaultPrevented false p)); [done | done |].
  apply Forall_forall. intros r Hr. apply elem_of_reached in Hr as [Hr _].
  rewrite Forall_forall in Hls. by apply Hls.
Qed.

Lemma menuStep_inSync path h s : inSync s -> inSync (menuStep t m path h s).
Proof.
  destruct s as [[[] []] c]; unfold inSync; cbn; intros [? ->]; try done.
  all: destruct h; cbn; try done.
  all: by destruct (_ || _).
Qed.

End Navigation.

(** X9: On a page where the toggle and the menu are two elements and the
    listeners of the navigation are those of this toggle and this menu,
    the dispatch of an event, of any type and along any path, keeps the
    navigation in step: if before it the menu and the toggle were both
    active or both not, and [aria-expanded] said which, then so it is
    after it. *)
Theorem navigation_stays_in_sync (t m : nat) (path : list eventTarget)
    (type : string) (e : event) (p : page) :
  t <> m -> is_Some (elems p !! t) -> is_Some (elems p !! m) ->
  Forall (fun r => navigationOf t m (r_handler r)) (listeners p) ->
  inSync (menuState t m p) ->
  inSync (menuState t m (dispatchEvent path type e p).1).
Proof.
  intros Htm Ht Hm Hls Hs. rewrite dispatch_navigation by done.
  revert Hs. generalize (menuState t m p).
  induction (reached path type (listeners p)) as [|r rs IH]; intros s Hs; [done |].
  cbn [foldl]. apply IH. by apply menuStep_inSync.
Qed.


(** *** A click, for the navigation *)

Section Click.
Variables (t m : nat) (links : list nat) (before rest : list registration).
Variable path : list nat.
Hypothesis Hbefore : Forall (fun r => notNavigation (r_handler r)) before.
Hypothesis Hrest : Forall (fun r => notNavigation (r_handler r)) rest.

Local Notation "'toggleListener'" := (Registration (OnElement t) "click" (NavToggleClick t m)).
Local Notation "'linkListener'" := (fun l => Registration (OnElement l) "click" (NavLinkClick t m)).
Local Notation "'outsideListener'" := (Registration OnDocument "click" (NavOutsideClick t m)).
Local Notation "'othersOf'" := ((map linkListener links ++ [outsideListener]) ++ rest).
Local Notation "'stepOf'" := (fun s r => menuStep t m path (r_handler r) s).
Local Notation "'aroundPath'" := ((OnElement <$> path) ++ [OnDocument; OnWindow]).
Local Notation "'allListeners'" := (before ++ navListeners t m links ++ rest).

Lemma navListeners_eq : allListeners = before ++ toggleListener :: othersOf.
Proof. done. Qed.

Lemma notNavigation_navigationOf h : notNavigation h -> navigationOf t m h.
Proof. by destruct h. Qed.

Lemma othersOf_cases r :
  r ∈ othersOf ->
  (exists l, l ∈ links /\ r = linkListener l) \/ r = outsideListener
  \/ notNavigation (r_handler r).
Proof.
  rewrite !elem_of_app. intros [[Hr | Hr] | Hr].
  - left. apply list_elem_of_In, in_map_iff in Hr as (l & <- & Hl).
    exists l. by rewrite list_elem_of_In.
  - right. left. by apply list_elem_of_singleton in Hr.
  - right. right. rewrite Forall_forall in Hrest. by apply Hrest.
Qed.

Lemma listener_cases r :
  r ∈ allListeners ->
  r = toggleListener \/ (exists l, l ∈ links /\ r = linkListener l)
  \/ r = outsideListener \/ notNavigation (r_handler r).
Proof.
  rewrite navListeners_eq, elem_of_app, elem_of_cons. intros [Hr | [-> | Hr]].
  - right. right. right. rewrite Forall_forall in Hbefore. by apply Hbefore.
  - by left.
  - right. by apply othersOf_cases.
Qed.

Lemma navListeners_navigationOf :
  Forall (fun r => navigationOf t m (r_handler r)) allListeners.
Proof.
  apply Forall_forall. intros r Hr.
  apply listener_cases in Hr as [-> | [(l & _ & ->) | [-> | Hr]]]; try done.
  by apply notNavigation_navigationOf.
Qed.

Lemma elem_of_around h : OnElement h ∈ aroundPath <-> h ∈ path.
Proof.
  rewrite elem_of_app, list_elem_of_fmap. split.
  - intros [(x & [= ->] & Hx) | H]; [done |].
    apply elem_of_cons in H as [? | H]; [done |].
    by apply list_elem_of_singleton in H.
  - intros H. left. by exists h.
Qed.

Lemma foldl_idle rs s :
  Forall (fun r => forall s, menuStep t m path (r_handler r) s = s) rs ->
  foldl stepOf s rs = s.
Proof.
  induction 1 as [|r rs Hr _ IH]; [done |]. cbn [foldl]. by rewrite Hr.
Qed.

Lemma foldl_closed rs :
  Forall (fun r => forall a b, r_handler r <> NavToggleClick a b) rs ->
  foldl stepOf closed rs = closed.
Proof.
  induction 1 as [|r rs Hr _ IH]; [done |]. cbn [foldl].
  replace (menuStep t m path (r_handler r) closed) with closed; [done |].
  destruct (r_handler r); cbn; try done.
  - by edestruct Hr.
  - by destruct (_ || _).
Qed.

Lemma foldl_closes rs r s :
  r ∈ rs -> (forall s, menuStep t m path (r_handler r) s = closed) ->
  Forall (fun r => forall a b, r_handler r <> NavToggleClick a b) rs ->
  foldl stepOf s rs = closed.
Proof.
  intros Hr Hc Hrs. apply list_elem_of_split in Hr as (rs1 & rs2 & ->).
  rewrite foldl_app. cbn [foldl]. rewrite Hc. apply foldl_closed.
  apply Forall_app in Hrs as [_ Hrs]. by apply Forall_cons in Hrs as [_ Hrs].
Qed.

Lemma notNavigation_idle r s :
  notNavigation (r_handler r) -> menuStep t m path (r_handler r) s = s.
Proof. by destruct (r_handler r). Qed.

Lemma outside_idle s :
  t ∈ path \/ m ∈ path -> menuStep t m path (NavOutsideClick t m) s = s.
Proof.
  intros Hin. cbn. destruct Hin as [H | H].
  - by rewrite (bool_decide_eq_true_2 (t ∈ path)).
  - rewrite (bool_decide_eq_true_2 (m ∈ path)) by done. by rewrite orb_true_r.
Qed.

(** Away from the toggle no listener toggles. *)
Lemma no_toggle_reached tgts :
  OnElement t ∉ tgts ->
  Forall (fun r => forall a b, r_handler r <> NavToggleClick a b)
    (reached tgts "click" allListeners).
Proof.
  intros Ht. apply Forall_forall. intros r Hr a b.
  apply elem_of_reached in Hr as (Hr & _ & Htg).
  apply listener_cases in Hr as [-> | [(l & _ & ->) | [-> | Hr]]]; try done.
  intros H. by rewrite H in Hr.
Qed.

(** Under the toggle, or in the menu but on no link, the listeners other
    than the toggle's change nothing. *)
Lemma idle_reached tgts :
  t ∈ path \/ m ∈ path ->
  OnElement t ∉ tgts -> (forall l, l ∈ links -> OnElement l ∉ tgts) ->
  Forall (fun r => forall s, menuStep t m path (r_handler r) s = s)
    (reached tgts "click" allListeners).
Proof.
  intros Hin Ht Hl. apply Forall_forall. intros r Hr s.
  apply elem_of_reached in Hr as (Hr & _ & Htg).
  apply listener_cases in Hr as [-> | [(l & Hl' & ->) | [-> | Hr]]]; [done | | |].
  - by destruct (Hl l Hl').
  - by apply outside_idle.
  - by apply notNavigation_idle.
Qed.

(** At the toggle, when it is no nav link: the toggle's listener and
    listeners that change nothing. *)
Lemma toggle_reached s :
  t ∈ path -> t ∉ links ->
  foldl stepOf s (reached [OnElement t] "click" allListeners) = toggled s.
Proof.
  intros Hin Hl. unfold reached. cbn [map concat]. rewrite app_nil_r, navListeners_eq.
  rewrite filter_app, filter_cons_True.
  2:{ unfold listensAt. cbn [r_target r_type]. by rewrite !bool_decide_eq_true_2. }
  rewrite foldl_app. rewrite (foldl_idle (filter _ before)).
  2:{ apply Forall_forall. intros r Hr s'. apply list_elem_of_filter in Hr as [_ Hr].
      apply notNavigation_idle. rewrite Forall_forall in Hbefore. by apply Hbefore. }
  cbn [foldl menuStep r_handler].
  apply foldl_idle. apply Forall_forall. intros r Hr s'.
  apply list_elem_of_filter in Hr as [Hr1 Hr2]. unfold listensAt in Hr1.
  apply andb_true_iff in Hr1 as [Hr1 _]. apply bool_decide_eq_true in Hr1.
  apply othersOf_cases in Hr2 as [(l & Hlin & ->) | [-> | Hr2]]; [| done |].
  - by injection Hr1 as ->.
  - by apply notNavigation_idle.
Qed.

End Click.

Lemma click_eq x p :
  click x p = dispatchEvent (clickPath p x) "click" (Event x "" false) p.
Proof. done. Qed.

(** X10: What a click does to the navigation, on a page whose listeners
    are those of [initializeNavigation] for toggle [t], menu [m] and their
    links, among listeners of the other features. A click outside the
    toggle and the menu closes the menu, and so does a click on a nav link
    (or inside one) that is not inside the toggle. A click on the toggle
    (or inside it), with no nav link around it, opens a closed menu and
    closes an open one. A click in the menu that is on no nav link and not
    in the toggle changes nothing. *)
Theorem click_navigation (t m : nat) (links : list nat)
    (before rest : list registration) (x : nat) (p : page) :
  t <> m -> is_Some (elems p !! t) -> is_Some (elems p !! m) ->
  listeners p = before ++ navListeners t m links ++ rest ->
  Forall (fun r => notNavigation (r_handler r)) before ->
  Forall (fun r => notNavigation (r_handler r)) rest ->
  (t ∉ pathOf p x -> m ∉ pathOf p x ->
   menuState t m (click x p).1 = closed)
  /\ (t ∉ pathOf p x -> (exists l, l ∈ links /\ l ∈ pathOf p x) ->
      menuState t m (click x p).1 = closed)
  /\ (t ∈ pathOf p x -> NoDup (pathOf p x) ->
      (forall l, l ∈ links -> l ∉ pathOf p x) ->
      menuState t m (click x p).1 = toggled (menuState t m p))
  /\ (t ∉ pathOf p x -> m ∈ pathOf p x ->
      (forall l, l ∈ links -> l ∉ pathOf p x) ->
      menuState t m (click x p).1 = menuState t m p).
Proof.
  intros Htm Ht Hm Hls Hbefore Hrest.
  assert (menuState t m (click x p).1
          = foldl (fun s r => menuStep t m (pathOf p x) (r_handler r) s)
              (menuState t m p)
              (reached (clickPath p x) "click"
                 (before ++ navListeners t m links ++ rest)))
    as ->.
  { rewrite click_eq, dispatch_navigation, Hls; try done.
    rewrite Hls. by apply navListeners_navigationOf. }
  unfold clickPath. generalize (menuState t m p) as s. intros s.
  set (path := pathOf p x).
  assert (forall r, r ∈ navListeners t m links ->
            r ∈ before ++ navListeners t m links ++ rest) as Hnav.
  { intros r Hr. rewrite !elem_of_app. tauto. }
  repeat split.
  - intros Ht' Hm'.
    apply foldl_closes with (r := Registration OnDocument "click" (NavOutsideClick t m)).
    + apply elem_of_reached. split; [| split; [done |]].
      * apply Hnav. apply list_elem_of_further.
        rewrite !elem_of_app. right. apply list_elem_of_here.
      * rewrite elem_of_app. right. apply list_elem_of_here.
    + intros s'. cbn. by rewrite !bool_decide_eq_false_2.
    + apply no_toggle_reached; [done | done |]. by rewrite elem_of_around.
  - intros Ht' (l & Hl & Hlp).
    apply foldl_closes with (r := Registration (OnElement l) "click" (NavLinkClick t m)).
    + apply elem_of_reached. split; [| split; [done |]].
      * apply Hnav. apply list_elem_of_further.
        rewrite !elem_of_app. left. apply list_elem_of_In, in_map_iff.
        exists l. by rewrite <- list_elem_of_In.
      * by apply elem_of_around.
    + done.
    + apply no_toggle_reached; [done | done |]. by rewrite elem_of_around.
  - intros Ht' Hnd Hl.
    destruct (list_elem_of_split _ _ Ht') as (pre & post & Hpath).
    rewrite Hpath in Hnd. apply NoDup_app in Hnd as (_ & Hpre & Hpost).
    apply NoDup_cons in Hpost as [Hpost _].
    assert (t ∉ pre) as Hpre'.
    { intros H. apply (Hpre _ H), list_elem_of_here. }
    assert (forall l, l ∈ links -> (l ∉ pre) /\ (l ∉ post) /\ l <> t) as Hl'.
    { intros l Hlin. specialize (Hl l Hlin). rewrite Hpath in Hl.
      rewrite elem_of_app, elem_of_cons in Hl. repeat split; intros ?; apply Hl; tauto. }
    rewrite Hpath, fmap_app, fmap_cons, <- app_assoc, <- app_comm_cons.
    rewrite (reached_app (OnElement <$> pre)). rewrite foldl_app.
    rewrite <- Hpath. fold path.
    rewrite (foldl_idle t m path (reached (OnElement <$> pre) _ _)).
    2:{ apply idle_reached; [done | done | by left | |].
        - rewrite list_elem_of_fmap. by intros (? & [= <-] & ?).
        - intros l Hlin. rewrite list_elem_of_fmap. intros (? & [= <-] & ?).
          by destruct (Hl' l Hlin) as (? & _). }
    change (OnElement t :: ?l) with ([OnElement t] ++ l).
    rewrite (reached_app [OnElement t]). rewrite foldl_app.
    rewrite (foldl_idle t m path (reached (_ ++ _) _ _)).
    2:{ apply idle_reached; [done | done | by left | |].
        - rewrite elem_of_app, list_elem_of_fmap. intros [(? & [= <-] & ?) | H]; [done |].
          apply elem_of_cons in H as [? | H]; [done |]. by apply list_elem_of_singleton in H.
        - intros l Hlin. rewrite elem_of_app, list_elem_of_fmap.
          intros [(? & [= <-] & ?) | H]; [by destruct (Hl' l Hlin) as (_ & ? & _) |].
          apply elem_of_cons in H as [? | H]; [done |]. by apply list_elem_of_singleton in H. }
    apply toggle_reached; [done | done | done |].
    intros Hlin. by destruct (Hl' t Hlin) as (_ & _ & ?).
  - intros Ht' Hm' Hl. apply foldl_idle. apply idle_reached; [done | done | by right | |].
    + by rewrite elem_of_around.
    + intros l Hlin. rewrite elem_of_around. by apply Hl.
Qed.

(** *** Code that completes, code that throws *)

Section Completes.
Context (E : host) (R : page -> page -> Prop) `{!PreOrder R}.

Lemma completes_bind {A B} (m : SM A) (k : A -> SM B) :
  completesAt E R m -> (forall a, completesAt E R (k a)) ->
  completesAt E R (bind m k).
Proof.
  intros Hm Hk p Hp. destruct (Hm p Hp) as (p1 & a & H1 & HE & HR).
  destruct (Hk a p1 HE) as (p2 & b & H2 & HE2 & HR2).
  exists p2, b. unfold bind. rewrite H1. split; [done |]. split; [done |].
  by etrans.
Qed.

Lemma throws_bind_l {A B} e (m : SM A) (k : A -> SM B) :
  throwsAt E R e m -> throwsAt E R e (bind m k).
Proof.
  intros Hm p Hp. destruct (Hm p Hp) as (p1 & H1 & HR).
  exists p1. unfold bind. by rewrite H1.
Qed.

Lemma throws_bind_r {A B} e (m : SM A) (k : A -> SM B) :
  completesAt E R m -> (forall a, throwsAt E R e (k a)) ->
  throwsAt E R e (bind m k).
Proof.
  intros Hm Hk p Hp. destruct (Hm p Hp) as (p1 & a & H1 & HE & HR).
  destruct (Hk a p1 HE) as (p2 & H2 & HR2).
  exists p2. unfold bind. rewrite H1. split; [done |]. by etrans.
Qed.

Lemma completes_ret {A} (a : A) : completesAt E R (ret a).
Proof. intros p Hp. by exists p, a. Qed.

Lemma completes_read {A} (f : page -> A) : completesAt E R (read f).
Proof. intros p Hp. by exists p, (f p). Qed.

Lemma completes_when b (m : SM unit) :
  completesAt E R m -> completesAt E R (when b m).
Proof. intros Hm. destruct b; [done | apply completes_ret]. Qed.

Lemma completes_forEach {A} (l : list A) (f : A -> SM unit) :
  (forall a, completesAt E R (f a)) -> completesAt E R (forEach l f).
Proof.
  intros Hf. induction l as [|a l IH]; [apply completes_ret |].
  cbn [forEach]. apply completes_bind; [apply Hf | by intros _].
Qed.

(** An operation of the host that always returns. *)
Lemma completes_total {A} (m : SM A) (f : page -> page) (a : page -> A) :
  (forall p, m p = (f p, Normal (a p))) ->
  (forall p, env (f p) = env p) -> (forall p, R p (f p)) ->
  completesAt E R m.
Proof.
  intros Hm He HR p Hp. exists (f p), (a p). rewrite He. done.
Qed.
End Completes.

Lemma completesAt_weaken E (R R' : page -> page -> Prop) {A} (m : SM A) :
  (forall p p', R p p' -> R' p p') -> completesAt E R m -> completesAt E R' m.
Proof.
  intros HRR Hm p Hp. destruct (Hm p Hp) as (p' & a & H1 & H2 & H3).
  exists p', a. auto.
Qed.

Global Instance grows_preorder : PreOrder grows.
Proof.
  split.
  - intros p. split; [done |]. split; [| done]. exists []. by rewrite app_nil_r.
  - intros p1 p2 p3 (H1 & (r1 & H2 & H3) & H4) (H5 & (r2 & H6 & H7) & H8).
    split; [congruence |]. split; [| auto].
    exists (r1 ++ r2). rewrite H6, H2, app_assoc. split; [done |]. by apply Forall_app.
Qed.

Lemma sameButClass_refl c e : sameButClass c e e.
Proof. by repeat split. Qed.

Lemma sameButClass_trans c e1 e2 e3 :
  sameButClass c e1 e2 -> sameButClass c e2 e3 -> sameButClass c e1 e3.
Proof.
  intros (? & ? & ? & ? & ? & ? & ? & Hc1) (? & ? & ? & ? & ? & ? & ? & Hc2).
  repeat split; try congruence.
  - intros Hc. by apply Hc1, Hc2.
  - intros Hc. by apply Hc2, Hc1.
Qed.

Global Instance sameContent_preorder : PreOrder sameContent.
Proof.
  split.
  - intros p. split; [done |]. split; [done |]. intros h.
    destruct (elems p !! h); constructor. apply sameButClass_refl.
  - intros p1 p2 p3 (? & ? & H1) (? & ? & H2).
    split; [congruence |]. split; [congruence |]. intros h.
    specialize (H1 h). specialize (H2 h).
    destruct H1 as [e1 e2 H1|]; inversion H2; subst; constructor.
    by eapply sameButClass_trans.
Qed.

Lemma grows_intro p p' :
  log p' = log p -> listeners p' = listeners p ->
  (forall h, is_Some (elems p !! h) -> is_Some (elems p' !! h)) -> grows p p'.
Proof.
  intros H1 H2 H3. split; [done |]. split; [| done]. exists []. by rewrite app_nil_r.
Qed.

Section Initialization.
Variable E : host.

Lemma modify_grows h f : completesAt E grows (modify h f).
Proof.
  apply (completes_total _ _ _ (fun p => set_elems (alter f h (elems p)) p) (fun _ => tt));
    [done | done |].
  intros p. apply grows_intro; [done | done |]. intros x Hx. cbn [elems set_elems].
  rewrite lookup_alter. destruct (decide (h = x)) as [-> |]; [| done].
  by apply fmap_is_Some.
Qed.

Lemma modify_sameContent h f :
  (forall e, sameButClass "active" e (f e)) ->
  completesAt E sameContent (modify h f).
Proof.
  intros Hf.
  apply (completes_total _ _ _ (fun p => set_elems (alter f h (elems p)) p) (fun _ => tt));
    [done | done |].
  intros p. split; [done |]. split; [done |]. intros x. cbn [elems set_elems].
  rewrite lookup_alter. destruct (decide (h = x)) as [-> |].
  - destruct (elems p !! x); constructor. apply Hf.
  - destruct (elems p !! x); constructor. apply sameButClass_refl.
Qed.

Lemma remove_active_sameButClass e :
  sameButClass "active" e (set_classList (classList e ∖ {["active"]}) e).
Proof.
  repeat split; try done; cbn [classList set_classList];
    rewrite elem_of_difference, elem_of_singleton; tauto.
Qed.

Lemma add_active_sameButClass e :
  sameButClass "active" e (set_classList (classList e ∪ {["active"]}) e).
Proof.
  repeat split; try done; cbn [classList set_classList];
    rewrite elem_of_union, elem_of_singleton; tauto.
Qed.

Lemma sameContent_elems p p' :
  log p' = log p -> observers p' = observers p -> elems p' = elems p ->
  sameContent p p'.
Proof.
  intros Hl Ho He. split; [done |]. split; [done |]. intros x. rewrite He.
  destruct (elems p !! x); constructor. apply sameButClass_refl.
Qed.

Lemma addEventListener_sameContent t type h :
  completesAt E sameContent (addEventListener t type h).
Proof.
  apply (completes_total _ _ _
           (fun p => set_listeners (listeners p ++ [Registration t type h]) p)
           (fun _ => tt)); [done | done |].
  intros p. by apply sameContent_elems.
Qed.

Lemma initializeNavigation_sameContent : completesAt E sameContent initializeNavigation.
Proof.
  unfold initializeNavigation.
  apply completes_bind; [apply _ | apply completes_read; apply _ |]. intros [t|].
  2:{ apply completes_bind; [apply _ | apply completes_read; apply _ |].
      intros ?. apply completes_ret; apply _. }
  apply completes_bind; [apply _ | apply completes_read; apply _ |]. intros [m|].
  2:{ apply completes_ret; apply _. }
  apply completes_bind; [apply _ | apply addEventListener_sameContent |]. intros _.
  apply completes_bind; [apply _ | apply completes_read; apply _ |]. intros links.
  apply completes_bind; [apply _ | |]. 
  { apply completes_forEach; [apply _ |]. intros l. apply addEventListener_sameContent. }
  intros _.
  apply completes_bind; [apply _ | apply addEventListener_sameContent |]. intros _.
  apply completes_bind; [apply _ | apply completes_read; apply _ |]. intros path.
  apply completes_forEach; [apply _ |]. intros l.
  apply completes_bind; [apply _ | |]. 
  { apply modify_sameContent, remove_active_sameButClass. }
  intros _.
  apply completes_bind; [apply _ | apply completes_read; apply _ |]. intros href.
  apply completes_when; [apply _ |].
  apply modify_sameContent, add_active_sameButClass.
Qed.


Ltac completes :=
  repeat first
    [ apply completes_bind; [apply _ | | intros ?]
    | apply completes_read; apply _
    | apply completes_ret; apply _
    | apply completes_forEach; [apply _ | intros ?]
    | apply completes_when; [apply _ |]
    | apply addEventListener_sameContent ].

Lemma liftForm_initializeContactForm p :
  liftForm initializeContactForm p = (p, Normal (listenersOf (form p))).
Proof. unfold liftForm. rewrite initializeContactForm_eq. by destruct p. Qed.

Lemma initializeContactForm_sameContent : completesAt E sameContent initializeContactForm_.
Proof.
  unfold initializeContactForm_. apply completes_bind; [apply _ | |].
  - by apply (completes_total _ _ _ (fun p => p) (fun p => listenersOf (form p)));
      [apply liftForm_initializeContactForm | |].
  - intros ls. completes.
Qed.

Lemma initializeSmoothScroll_sameContent : completesAt E sameContent initializeSmoothScroll.
Proof. unfold initializeSmoothScroll, querySelectorAll. completes. Qed.

Lemma newIntersectionObserver_throws cb :
  hasIntersectionObserver E = false ->
  throwsAt E sameContent JsReferenceError (newIntersectionObserver cb).
Proof.
  intros H p Hp. exists p. unfold newIntersectionObserver. rewrite Hp, H.
  split; reflexivity.
Qed.

Lemma initializeAnimations_throws :
  hasIntersectionObserver E = false ->
  throwsAt E sameContent JsReferenceError initializeAnimations.
Proof.
  intros H. unfold initializeAnimations.
  apply throws_bind_l. by apply newIntersectionObserver_throws.
Qed.

Lemma addEventListener_grows t type h :
  notNavigation h -> completesAt E grows (addEventListener t type h).
Proof.
  intros Hh.
  apply (completes_total _ _ _
           (fun p => set_listeners (listeners p ++ [Registration t type h]) p)
           (fun _ => tt)); [done | done |].
  intros p. split; [done |]. split; [| done].
  exists [Registration t type h]. split; [done |]. by apply Forall_singleton.
Qed.

Lemma newIntersectionObserver_grows cb :
  hasIntersectionObserver E = true ->
  completesAt E grows (newIntersectionObserver cb).
Proof.
  intros H p Hp. unfold newIntersectionObserver. rewrite Hp, H.
  eexists _, _. split; [done |]. split; [done |]. by apply grows_intro.
Qed.

Lemma observe_grows o h : completesAt E grows (observe o h).
Proof.
  unfold observe. eapply (completes_total _ _ _ _ (fun _ => tt)); [done | done |].
  intros p. by apply grows_intro.
Qed.

Ltac completes' :=
  repeat first
    [ apply completes_bind; [apply _ | | intros ?]
    | apply completes_read; apply _
    | apply completes_ret; apply _
    | apply completes_forEach; [apply _ | intros ?]
    | apply completes_when; [apply _ |]
    | apply addEventListener_grows; done
    | apply observe_grows
    | apply modify_grows ].

Lemma initializeAnimations_grows :
  hasIntersectionObserver E = true -> completesAt E grows initializeAnimations.
Proof.
  intros H. unfold initializeAnimations, querySelectorAll, setStyle.
  apply completes_bind; [apply _ | by apply newIntersectionObserver_grows |].
  intros o. completes'.
Qed.

Lemma initializeLazyLoading_grows : completesAt E grows initializeLazyLoading.
Proof.
  unfold initializeLazyLoading, querySelectorAll.
  apply completes_bind; [apply _ | apply completes_read; apply _ |]. intros images.
  intros p Hp. unfold bind at 1. unfold read at 1. rewrite Hp.
  destruct (hasIntersectionObserver E) eqn:H; revert p Hp.
  - apply completes_bind; [apply _ | by apply newIntersectionObserver_grows |].
    intros o. completes'.
  - unfold getAttribute, setAttribute. completes'.
Qed.

Lemma createElement_grows tag : completesAt E grows (createElement tag).
Proof.
  unfold createElement. eapply (completes_total _ _ _ _ _); [done | done |].
  intros p. apply grows_intro; [done | done |]. intros x Hx. cbn [elems set_elems].
  rewrite lookup_insert. by destruct (decide _).
Qed.

Lemma insertFirstChild_grows b c : completesAt E grows (insertFirstChild b c).
Proof.
  unfold insertFirstChild.
  eapply (completes_total _ _ _ _ (fun _ => tt)); [done | done |].
  intros p. apply grows_intro; [done | done |]. intros x Hx.
  cbn [elems set_elems set_order].
  rewrite lookup_alter. destruct (decide (c = x)) as [-> |]; [| done].
  by apply fmap_is_Some.
Qed.

Lemma initializeContactForm_grows : completesAt E grows initializeContactForm_.
Proof.
  unfold initializeContactForm_. apply completes_bind; [apply _ | |].
  - by apply (completes_total _ _ _ (fun p => p) (fun p => listenersOf (form p)));
      [apply liftForm_initializeContactForm | |].
  - intros ls. completes'.
Qed.

Lemma initializeSmoothScroll_grows : completesAt E grows initializeSmoothScroll.
Proof. unfold initializeSmoothScroll, querySelectorAll. completes'. Qed.

Lemma initializeAccessibility_grows :
  is_Some (body E) -> completesAt E grows initializeAccessibility.
Proof.
  intros [b Hb]. unfold initializeAccessibility, querySelectorAll, getAttribute, setAttribute.
  do 12 (apply completes_bind; [apply _ | first [ by completes' | apply createElement_grows ] | intros ?]).
  apply completes_bind; [apply _ | | intros ?; apply insertFirstChild_grows].
  intros p Hp. exists p, b. unfold document_body. by rewrite Hp, Hb.
Qed.

Lemma initializeAccessibility_throws :
  body E = None -> throwsAt E grows JsTypeError initializeAccessibility.
Proof.
  intros Hb. unfold initializeAccessibility, querySelectorAll, getAttribute, setAttribute.
  do 12 (apply throws_bind_r; [apply _ | first [ by completes' | apply createElement_grows ] | intros ?]).
  apply throws_bind_l.
  intros p Hp. exists p. unfold document_body. by rewrite Hp, Hb.
Qed.

Lemma initializeDarkModeDetection_grows :
  hasMatchMedia E = true -> completesAt E grows initializeDarkModeDetection.
Proof.
  intros H. unfold initializeDarkModeDetection, setAttribute.
  apply completes_bind; [apply _ | completes' | intros ?].
  apply completes_bind; [apply _ | destruct a; completes' | intros ?].
  apply completes_bind; [apply _ | completes' | intros ?].
  apply completes_bind; [apply _ | | intros ?; completes'].
  intros p Hp. exists p, tt. unfold matchMedia. by rewrite Hp, H.
Qed.

Lemma initializeDarkModeDetection_throws :
  hasMatchMedia E = false -> throwsAt E grows JsTypeError initializeDarkModeDetection.
Proof.
  intros H. unfold initializeDarkModeDetection, setAttribute.
  apply throws_bind_r; [apply _ | completes' | intros ?].
  apply throws_bind_r; [apply _ | destruct a; completes' | intros ?].
  apply throws_bind_r; [apply _ | completes' | intros ?].
  apply throws_bind_l.
  intros p Hp. exists p. unfold matchMedia. by rewrite Hp, H.
Qed.

End Initialization.


Ltac runs H p' :=
  let a := fresh "a" in
  let Heq := fresh "Heq" in
  let HE := fresh "HE" in
  let HR := fresh "HR" in
  edestruct H as (p' & a & Heq & HE & HR); [eassumption .. |];
  rewrite (bind_eq _ _ _ _ _ Heq).

Ltac fails H p' :=
  let Heq := fresh "Heq" in
  let HR := fresh "HR" in
  edestruct H as (p' & Heq & HR); [eassumption .. |];
  rewrite (bind_abrupt _ _ _ _ _ Heq).

(** X11: The listener of [DOMContentLoaded] runs to its end exactly on a
    page that is ready: the host has [IntersectionObserver], the document
    has a body and the window has [matchMedia]. Then it ends by logging
    that the website is initialized. On any other page it throws, a
    ReferenceError where [IntersectionObserver] is missing and a TypeError
    otherwise, and logs nothing. *)
Theorem onDOMContentLoaded_completes_when_ready (p : page) :
  (onDOMContentLoaded p).2
  = (if ready (env p) then Normal tt
     else Abrupt (if hasIntersectionObserver (env p) then JsTypeError
                  else JsReferenceError))
  /\ log (onDOMContentLoaded p).1
     = (if ready (env p) then log p ++ ["TrendyWear Finds website initialized"]
        else log p).
Proof.
  remember (env p) as E eqn:HE. symmetry in HE. unfold onDOMContentLoaded, ready.
  runs (initializeNavigation_sameContent E) p1.
  runs (initializeContactForm_sameContent E) p2.
  runs (initializeSmoothScroll_sameContent E) p3.
  assert (log p3 = log p) as Hlog.
  { destruct HR as [? _], HR0 as [? _], HR1 as [? _]. congruence. }
  clear HR HR0 HR1.
  destruct (hasIntersectionObserver E) eqn:HIO; cbn [andb].
  2:{ fails (initializeAnimations_throws E) p4. destruct HR as [? _]. cbn. split; [done | congruence]. }
  runs (initializeAnimations_grows E) p4.
  runs (initializeLazyLoading_grows E) p5.
  destruct HR as [HR _], HR0 as [HR0 _].
  destruct (body E) as [b|] eqn:Hb.
  2:{ rewrite bool_decide_eq_false_2 by (by intros [? ?]).
      fails (initializeAccessibility_throws E) p6. destruct HR1 as [HR1 _].
      cbn. split; [done | congruence]. }
  rewrite bool_decide_eq_true_2 by done.
  assert (is_Some (body E)) as Hb' by (by rewrite Hb).
  runs (initializeAccessibility_grows E) p6. destruct HR1 as [HR1 _].
  destruct (hasMatchMedia E) eqn:HMM; cbn [andb].
  2:{ fails (initializeDarkModeDetection_throws E) p7. destruct HR2 as [HR2 _].
      cbn. split; [done | congruence]. }
  runs (initializeDarkModeDetection_grows E) p7. destruct HR2 as [HR2 _].
  cbn. split; [done |]. f_equal. congruence.
Qed.

(** X12: On a host without [IntersectionObserver] the listener of
    [DOMContentLoaded] stops with the ReferenceError of
    [initializeAnimations], after [initializeNavigation] has marked the
    nav links: nothing after it runs, so that the way of
    [initializeLazyLoading] around a missing [IntersectionObserver] is
    never taken. The page keeps its console and its observers, and every
    element is as it was but for the class [active]: no element is added
    or removed, and an element keeps its other classes, its inline style
    and every attribute other than [class] (no image is given a [src]). *)
Theorem lazy_loading_fallback_never_runs (p : page) :
  hasIntersectionObserver (env p) = false ->
  exists p',
    onDOMContentLoaded p = (p', Abrupt JsReferenceError)
    /\ log p' = log p /\ observers p' = observers p
    /\ (forall h, option_Forall2 (sameButClass "active") (elems p !! h) (elems p' !! h))
    /\ (forall h a, a <> "class" -> attribute p' h a = attribute p h a)
    /\ (forall h s, styleOf p' h s = styleOf p h s).
Proof.
  intros HIO.
  remember (env p) as E eqn:HE. symmetry in HE. unfold onDOMContentLoaded.
  runs (initializeNavigation_sameContent E) p1.
  runs (initializeContactForm_sameContent E) p2.
  runs (initializeSmoothScroll_sameContent E) p3.
  fails (initializeAnimations_throws E) p4.
  exists p4. split; [done |].
  assert (sameContent p p4) as (H1 & H2 & H3).
  { etrans; [exact HR |]. etrans; [exact HR0 |]. etrans; [exact HR1 | exact HR2]. }
  split; [exact H1 |]. split; [exact H2 |]. split; [exact H3 |]. split.
  - intros h x _. unfold attribute.
    destruct (H3 h) as [e e' (_ & _ & Ha & _)|]; [| done]. cbn. by rewrite Ha.
  - intros h x. unfold styleOf.
    destruct (H3 h) as [e e' (_ & _ & _ & Hs & _)|]; [| done]. cbn. by rewrite Hs.
Qed.


(** X13: On a page that is ready and has the toggle [t] and the menu [m],
    the listener of [DOMContentLoaded] completes and leaves, after the
    listeners the page had, those of the navigation for [t], [m] and the
    nav links of the menu, followed by listeners of the other features
    only; [t] and [m] are two elements and are still in the page. *)
Theorem onDOMContentLoaded_sets_up_navigation (p : page) (t m : nat) :
  ready (env p) = true ->
  byId "navToggle" p = Some t -> byId "navMenu" p = Some m ->
  exists p' rest,
    onDOMContentLoaded p = (p', Normal tt)
    /\ listeners p' = listeners p ++ navListeners t m (navLinks m p) ++ rest
    /\ Forall (fun r => notNavigation (r_handler r)) rest
    /\ t <> m /\ is_Some (elems p' !! t) /\ is_Some (elems p' !! m).
Proof.
  intros Hready Ht Hm.
  remember (env p) as E eqn:HE. symmetry in HE. unfold ready in Hready.
  apply andb_true_iff in Hready as [Hready HMM].
  apply andb_true_iff in Hready as [HIO Hb]. apply bool_decide_eq_true in Hb.
  unfold onDOMContentLoaded.
  rewrite (bind_eq _ _ _ _ _ (initializeNavigation_eq p t m Ht Hm)).
  set (p1 := set_elems _ _).
  assert (env p1 = E) as HE1 by done.
  runs (initializeContactForm_grows E) p2.
  runs (initializeSmoothScroll_grows E) p3.
  runs (initializeAnimations_grows E) p4.
  runs (initializeLazyLoading_grows E) p5.
  runs (initializeAccessibility_grows E) p6.
  runs (initializeDarkModeDetection_grows E) p7.
  assert (grows p1 p7) as (_ & (rest & Hls & Hrest) & Hin).
  { etrans; [exact HR |]. etrans; [exact HR0 |]. etrans; [exact HR1 |].
    etrans; [exact HR2 |]. etrans; [exact HR3 | exact HR4]. }
  eexists _, rest. split; [done |]. cbn [listeners elems console_log fst set_log].
  split.
  { rewrite Hls. unfold p1. cbn [listeners set_elems set_listeners].
    by rewrite <- app_assoc. }
  split; [done |].
  split; [by eapply byId_ne |].
  assert (forall h, is_Some (elems p !! h) -> is_Some (elems p1 !! h)) as Hp1.
  { intros h Hh. unfold p1. cbn [elems set_elems].
    rewrite lookup_foldl_alter by apply markCurrent_idemp.
    destruct (bool_decide _); [by apply fmap_is_Some | done]. }
  split; apply Hin, Hp1.
  - apply byId_present in Ht as (e & -> & _). done.
  - apply byId_present in Hm as (e & -> & _). done.
Qed.


(** *** Loops as folds *)

Lemma forEach_fold {A} (l : list A) (body : A -> SM unit) (step : A -> page -> page) p :
  (forall a q, body a q = (step a q, Normal tt)) ->
  forEach l body p = (foldl (fun q a => step a q) p l, Normal tt).
Proof.
  intros Hbody. revert p. induction l as [|a l IH]; intros p; [done |].
  rewrite forEach_cons, Hbody. apply IH.
Qed.

Lemma foldl_proj {A B} (proj : page -> B) (step : A -> page -> page) (g : A -> B -> B) l p :
  (forall a q, proj (step a q) = g a (proj q)) ->
  proj (foldl (fun q a => step a q) p l) = foldl (fun b a => g a b) (proj p) l.
Proof.
  intros H. revert p. induction l as [|a l IH]; intros p; [done |].
  cbn [foldl]. by rewrite IH, H.
Qed.

Lemma foldl_const {A B} (l : list A) (b : B) : foldl (fun b _ => b) b l = b.
Proof. by induction l. Qed.

Lemma frame_elems_observers p p' :
  (env p', order p', listeners p', scrollTarget p', focusCalls p', log p', reported p',
   defaultPrevented p', form p')
  = (env p, order p, listeners p, scrollTarget p, focusCalls p, log p, reported p,
     defaultPrevented p, form p) ->
  set_elems (elems p) (set_observers (observers p) p') = p.
Proof. destruct p, p'. cbn. intros [= -> -> -> -> -> -> -> -> ->]. done. Qed.

(** *** The observer of the lazy images *)

Lemma loadImage_idemp e : loadImage (loadImage e) = loadImage e.
Proof.
  unfold loadImage, set_attributes. cbn. f_equal.
  rewrite lookup_delete_ne, lookup_insert_ne by done.
  apply map_eq. intros a.
  destruct (decide (a = "loading")) as [-> |]; [by rewrite !lookup_delete_eq |].
  rewrite !lookup_delete_ne by done.
  destruct (decide (a = "src")) as [-> |]; [by rewrite !lookup_insert_eq |].
  by rewrite !lookup_insert_ne, lookup_delete_ne, lookup_insert_ne by done.
Qed.

Lemma load_body o (entry : nat * bool) q :
  when entry.2
    (src <- getAttribute entry.1 "data-src" ;;
     setAttribute entry.1 "src" (default "undefined" src) ;;
     removeAttribute entry.1 "loading" ;;
     unobserve o entry.1) q
  = ((if entry.2
      then set_observers
             (alter (fun ob => Observer (callback ob)
                                 (filter (fun x => x <> entry.1) (targets ob)))
                o (observers q))
             (set_elems (alter loadImage entry.1 (elems q)) q)
      else q), Normal tt).
Proof.
  destruct entry as [h []]; [| done]. cbn [when fst snd].
  unfold bind, getAttribute, read, setAttribute, removeAttribute, unobserve, modify.
  cbn [elems set_elems observers set_observers]. f_equal. unfold set_observers, set_elems.
  cbn. f_equal. rewrite alter_alter_eq. apply alter_ext. intros e He.
  unfold loadImage, set_attributes. cbn. by rewrite He.
Qed.


Lemma foldl_intersecting (f : elem -> elem) (entries : list (nat * bool)) (d : gmap nat elem) :
  foldl (fun d (entry : nat * bool) => if entry.2 then alter f entry.1 d else d) d entries
  = foldl (fun d h => alter f h d) d (intersecting entries).
Proof.
  revert d. induction entries as [|[h b] entries IH]; intros d; [done |].
  unfold intersecting. cbn [foldl fst snd]. destruct b.
  - rewrite filter_cons_True by done. cbn [fmap list_fmap foldl]. apply IH.
  - rewrite filter_cons_False by done. apply IH.
Qed.

Lemma filter_all {A} (P : A -> Prop) `{!forall x, Decision (P x)} (l : list A) :
  (forall x, P x) -> filter P l = l.
Proof.
  intros HP. induction l as [|x l IH]; [done |].
  rewrite filter_cons_True by done. by rewrite IH.
Qed.

Lemma foldl_unobserve cb o (entries : list (nat * bool)) (obs : list observer) tgts :
  obs !! o = Some (Observer cb tgts) ->
  foldl (fun obs (entry : nat * bool) =>
           if entry.2
           then alter (fun ob => Observer (callback ob)
                                   (filter (fun x => x <> entry.1) (targets ob))) o obs
           else obs) obs entries !! o
  = Some (Observer cb (filter (fun h => h ∉ intersecting entries) tgts)).
Proof.
  revert obs tgts. induction entries as [|[h b] entries IH]; intros obs tgts Ho.
  - cbn [foldl]. rewrite Ho. f_equal. f_equal. symmetry. apply filter_all.
    intros x. apply not_elem_of_nil.
  - cbn [foldl fst snd]. destruct b.
    + erewrite IH.
      2:{ rewrite list_lookup_alter, decide_True by done. by rewrite Ho. }
      cbn [callback targets]. f_equal. f_equal. rewrite list_filter_filter.
      apply list_filter_iff. intros x. unfold intersecting.
      rewrite filter_cons_True by done. cbn [fmap list_fmap fst].
      rewrite not_elem_of_cons. tauto.
    + erewrite IH by done. unfold intersecting.
      by rewrite filter_cons_False by done.
Qed.

(** X15: When the host reports entries to the observer of the lazy images,
    every image reported as intersecting gets as [src] its [data-src], or
    the text [undefined] when it has none, loses [loading] and is no
    longer observed; its other attributes stay. Elements not reported as
    intersecting are left as they are and stay observed, and nothing else
    of the page changes. *)
Theorem lazy_images_load_when_seen (p : page) (o : nat) (tgts : list nat)
    (entries : list (nat * bool)) :
  observers p !! o = Some (Observer LoadOnIntersect tgts) ->
  exists p',
    intersect o entries p = (p', Normal tt)
    /\ (forall h, h ∈ intersecting entries -> is_Some (elems p !! h) ->
          attribute p' h "src" = Some (default "undefined" (attribute p h "data-src"))
          /\ attribute p' h "loading" = None
          /\ forall a, a <> "src" -> a <> "loading" ->
               attribute p' h a = attribute p h a)
    /\ (forall h, h ∉ intersecting entries -> elems p' !! h = elems p !! h)
    /\ targetsOf p' o = filter (fun h => h ∉ intersecting entries) tgts
    /\ set_elems (elems p) (set_observers (observers p) p') = p.
Proof.
  intros Ho. unfold intersect. unfold bind, read. rewrite Ho. cbn [callback runCallback].
  rewrite (forEach_fold _ _ _ _ (load_body o)).
  set (step := fun (entry : nat * bool) q =>
                 if entry.2
                 then set_observers
                        (alter (fun ob => Observer (callback ob)
                                            (filter (fun x => x <> entry.1) (targets ob)))
                           o (observers q))
                        (set_elems (alter loadImage entry.1 (elems q)) q)
                 else q).
  set (p' := foldl _ p entries). exists p'. split; [done |].
  assert (elems p'
          = foldl (fun d h => alter loadImage h d) (elems p) (intersecting entries)) as He.
  { rewrite <- foldl_intersecting.
    apply (foldl_proj elems step
             (fun entry d => if entry.2 then alter loadImage entry.1 d else d)).
    intros [h []] q; done. }
  assert (observers p' !! o
          = Some (Observer LoadOnIntersect
                    (filter (fun h => h ∉ intersecting entries) tgts))) as Hobs.
  { unfold p'.
    rewrite (foldl_proj observers step
               (fun entry obs =>
                  if entry.2
                  then alter (fun ob => Observer (callback ob)
                                          (filter (fun x => x <> entry.1) (targets ob)))
                         o obs
                  else obs)).
    2:{ intros [h []] q; done. }
    by rewrite (foldl_unobserve LoadOnIntersect o entries _ tgts Ho). }
  split; [| split; [| split]].
  - intros h Hh [e Hp]. unfold attribute. rewrite He.
    rewrite lookup_foldl_alter by apply loadImage_idemp.
    rewrite bool_decide_eq_true_2 by done. rewrite Hp. cbn.
    rewrite lookup_delete_ne, lookup_insert_eq, lookup_delete_eq by done.
    repeat split. intros a H1 H2. by rewrite lookup_delete_ne, lookup_insert_ne.
  - intros h Hh. rewrite He.
    rewrite lookup_foldl_alter by apply loadImage_idemp.
    by rewrite bool_decide_eq_false_2.
  - unfold targetsOf. by rewrite Hobs.
  - apply frame_elems_observers. unfold p'.
    rewrite (foldl_proj
               (fun q => (env q, order q, listeners q, scrollTarget q, focusCalls q,
                          log q, reported q, defaultPrevented q, form q))
               step (fun _ x => x)); [apply foldl_const |].
    intros [h []] q; done.
Qed.


(** *** The observer of the cards *)

Ltac inserts :=
  apply map_eq; intros ?;
  repeat (rewrite lookup_insert; destruct (decide _)); done.

Lemma hideCard_idemp e : hideCard (hideCard e) = hideCard e.
Proof. unfold hideCard, set_style. cbn. f_equal. inserts. Qed.

Lemma revealCard_idemp e : revealCard (revealCard e) = revealCard e.
Proof. unfold revealCard, set_style. cbn. f_equal. inserts. Qed.

Lemma hide_body o el q :
  (setStyle el "opacity" "0" ;;
   setStyle el "transform" "translateY(20px)" ;;
   setStyle el "transition" "opacity 0.6s ease-out, transform 0.6s ease-out" ;;
   observe o el) q
  = (set_observers
       (alter (fun ob => Observer (callback ob)
                           (if bool_decide (el ∈ targets ob) then targets ob
                            else targets ob ++ [el])) o (observers q))
       (set_elems (alter hideCard el (elems q)) q), Normal tt).
Proof.
  unfold bind, setStyle, observe, modify.
  cbn [elems set_elems observers set_observers]. f_equal. unfold set_observers, set_elems.
  cbn. f_equal. by rewrite !alter_alter_eq.
Qed.

Lemma reveal_body (entry : nat * bool) q :
  when entry.2
    (setStyle entry.1 "opacity" "1" ;;
     setStyle entry.1 "transform" "translateY(0)") q
  = ((if entry.2 then set_elems (alter revealCard entry.1 (elems q)) q else q), Normal tt).
Proof.
  destruct entry as [h []]; [| done]. cbn [when fst snd].
  unfold bind, setStyle, modify. cbn [elems set_elems]. f_equal.
  unfold set_elems. cbn. f_equal. by rewrite alter_alter_eq.
Qed.

Lemma foldl_observe cb o (l : list nat) (obs : list observer) tgts :
  obs !! o = Some (Observer cb tgts) ->
  exists tgts',
    foldl (fun obs h =>
             alter (fun ob => Observer (callback ob)
                                (if bool_decide (h ∈ targets ob) then targets ob
                                 else targets ob ++ [h])) o obs) obs l !! o
    = Some (Observer cb tgts')
    /\ forall x, x ∈ tgts' <-> x ∈ tgts \/ x ∈ l.
Proof.
  revert obs tgts. induction l as [|h l IH]; intros obs tgts Ho.
  - exists tgts. split; [done |]. intros x.
    split; [by left | by intros [? | ?%elem_of_nil]].
  - cbn [foldl].
    edestruct (IH (alter (fun ob => Observer (callback ob)
                                      (if bool_decide (h ∈ targets ob) then targets ob
                                       else targets ob ++ [h])) o obs)
                 (if bool_decide (h ∈ tgts) then tgts else tgts ++ [h]))
      as (tgts' & H1 & H2).
    { rewrite list_lookup_alter, decide_True by done. by rewrite Ho. }
    exists tgts'. split; [exact H1 |]. intros x. rewrite H2.
    rewrite elem_of_cons. case_bool_decide as Hh.
    + split; [tauto |]. intros [? | [-> | ?]]; tauto.
    + rewrite elem_of_app, list_elem_of_singleton. tauto.
Qed.

(** X16: On a host with [IntersectionObserver], [initializeAnimations]
    completes, hides every card (opacity 0, moved down by 20px) and has
    the new observer observe exactly the cards. When the host then
    reports entries to this observer, a card is shown (opacity 1, moved
    back) if it is reported as intersecting and stays hidden if not; the
    observer goes on observing the same cards. *)
Theorem cards_hidden_until_seen (p : page) (entries : list (nat * bool)) :
  hasIntersectionObserver (env p) = true ->
  exists p1 p2,
    initializeAnimations p = (p1, Normal tt)
    /\ intersect (length (observers p)) entries p1 = (p2, Normal tt)
    /\ (forall h, h ∈ matching card p ->
          styleOf p1 h "opacity" = Some "0"
          /\ styleOf p1 h "transform" = Some "translateY(20px)"
          /\ styleOf p2 h "opacity"
             = Some (if bool_decide (h ∈ intersecting entries) then "1" else "0")
          /\ styleOf p2 h "transform"
             = Some (if bool_decide (h ∈ intersecting entries)
                     then "translateY(0)" else "translateY(20px)"))
    /\ (forall h, h ∈ targetsOf p1 (length (observers p)) <-> h ∈ matching card p)
    /\ observers p2 = observers p1.
Proof.
  intros HIO. unfold initializeAnimations.
  unfold bind at 1. unfold newIntersectionObserver. rewrite HIO.
  unfold bind at 1. unfold querySelectorAll, read at 1.
  set (o := length (observers p)).
  set (p0 := set_observers _ p).
  change (matching card p0) with (matching card p).
  rewrite (forEach_fold _ _ _ _ (hide_body o)).
  set (stepH := fun el q =>
                  set_observers
                    (alter (fun ob => Observer (callback ob)
                                        (if bool_decide (el ∈ targets ob) then targets ob
                                         else targets ob ++ [el])) o (observers q))
                    (set_elems (alter hideCard el (elems q)) q)).
  set (p1 := foldl _ p0 (matching card p)).
  assert (elems p1 = foldl (fun d h => alter hideCard h d) (elems p) (matching card p))
    as He1.
  { change (elems p) with (elems p0).
    apply (foldl_proj elems stepH (fun h d => alter hideCard h d)). done. }
  destruct (foldl_observe RevealOnIntersect o (matching card p)
              (observers p ++ [Observer RevealOnIntersect []]) [])
    as (tgts & Hobs & Htgts).
  { unfold o. rewrite lookup_app_r by done. by rewrite Nat.sub_diag. }
  assert (observers p1 !! o = Some (Observer RevealOnIntersect tgts)) as Hobs1.
  { unfold p1.
    rewrite (foldl_proj observers stepH
               (fun h obs =>
                  alter (fun ob => Observer (callback ob)
                                     (if bool_decide (h ∈ targets ob) then targets ob
                                      else targets ob ++ [h])) o obs)); done. }
  exists p1. unfold intersect. unfold bind, read. rewrite Hobs1.
  cbn [callback runCallback].
  rewrite (forEach_fold _ _ _ _ reveal_body).
  set (stepR := fun (entry : nat * bool) q =>
                  if entry.2 then set_elems (alter revealCard entry.1 (elems q)) q else q).
  set (p2 := foldl _ p1 entries). exists p2.
  assert (elems p2
          = foldl (fun d h => alter revealCard h d) (elems p1) (intersecting entries))
    as He2.
  { rewrite <- foldl_intersecting.
    apply (foldl_proj elems stepR
             (fun entry d => if entry.2 then alter revealCard entry.1 d else d)).
    intros [h []] q; done. }
  split; [done |]. split; [done |]. split; [| split].
  - intros h Hh.
    assert (exists e, elems p !! h = Some e) as [e Hp].
    { apply list_elem_of_filter in Hh as [Hh _]. unfold selects in Hh.
      destruct (elems p !! h); [by eexists | done]. }
    assert (elems p1 !! h = Some (hideCard e)) as Hp1.
    { rewrite He1, lookup_foldl_alter by apply hideCard_idemp.
      by rewrite bool_decide_eq_true_2, Hp. }
    unfold styleOf. rewrite He2, lookup_foldl_alter by apply revealCard_idemp.
    rewrite Hp1.
    destruct (bool_decide (h ∈ intersecting entries)); cbn; repeat split;
      repeat (rewrite lookup_insert; destruct (decide _); try done).
  - intros h. unfold targetsOf. rewrite Hobs1. cbn. rewrite Htgts, elem_of_nil. tauto.
  - unfold p2. rewrite (foldl_proj observers stepR (fun _ x => x)); [apply foldl_const |].
    intros [h []] q; done.
Qed.


(** *** A click on an in-page link *)

Lemma navigation_handler_elems h e p :
  navigationOnly h -> exists d, runHandler h e p = (set_elems d p, Normal tt).
Proof.
  destruct h; try done; intros _; cbn [runHandler].
  - eexists. unfold bind, classList_toggle, contains_class, setAttribute, modify, read.
    cbn [elems set_elems]. unfold set_elems. cbn. reflexivity.
  - eexists. unfold bind, classList_remove, setAttribute, modify, read.
    cbn [elems set_elems]. unfold set_elems. cbn. reflexivity.
  - unfold bind at 1. rewrite contains_eq. unfold bind at 1. rewrite contains_eq.
    destruct (negb _ && negb _); cbn [when].
    + eexists. unfold bind, classList_remove, setAttribute, modify, read.
      cbn [elems set_elems]. unfold set_elems. cbn. reflexivity.
    + exists (elems p). by destruct p.
Qed.

Lemma navigation_listener_elems r e p :
  navigationOnly (r_handler r) -> exists d, (runListener r e p).1 = set_elems d p.
Proof.
  intros Hr. destruct (navigation_handler_elems _ e p Hr) as [d Hd].
  exists d. unfold runListener. by rewrite Hd.
Qed.

Lemma navigation_listeners_elems rs e p :
  Forall (fun r => navigationOnly (r_handler r)) rs ->
  exists d, foldl (fun q r => (runListener r e q).1) p rs = set_elems d p.
Proof.
  intros Hrs. revert p. induction Hrs as [|r rs Hr _ IH]; intros p.
  - exists (elems p). by destruct p.
  - cbn [foldl]. destruct (navigation_listener_elems r e p Hr) as [d ->].
    destruct (IH (set_elems d p)) as [d' ->]. by exists d'.
Qed.

(** X14: A click that reaches the listener of an in-page link [a] first and
    then only listeners of the navigation. If the [href] of [a] is [#]
    nothing happens. If the host rejects the [href] as a selector, the
    exception is reported and the default action is not prevented; if no
    element matches, nothing happens. If an element matches, the default
    action is prevented; the window is then scrolled to the top of that
    element less the height of the header, but on a page without an
    element of class [header] a TypeError is reported and the window is
    not scrolled. *)
Theorem anchor_click (p : page) (x a : nat) (rs : list registration) :
  reached (clickPath p x) "click" (listeners p)
  = Registration (OnElement a) "click" (AnchorClick a) :: rs ->
  Forall (fun r => navigationOnly (r_handler r)) rs ->
  (attribute p a "href" = Some "#" ->
   defaultPrevented (click x p).1 = false
   /\ scrollTarget (click x p).1 = scrollTarget p
   /\ reported (click x p).1 = reported p)
  /\ (attribute p a "href" <> Some "#" ->
      (forall err, fragmentTarget p a = Abrupt err ->
         defaultPrevented (click x p).1 = false
         /\ scrollTarget (click x p).1 = scrollTarget p
         /\ reported (click x p).1 = reported p ++ [err])
      /\ (fragmentTarget p a = Normal None ->
          defaultPrevented (click x p).1 = false
          /\ scrollTarget (click x p).1 = scrollTarget p
          /\ reported (click x p).1 = reported p)
      /\ (forall target header, fragmentTarget p a = Normal (Some target) ->
            head (matching (has_class "header") p) = Some header ->
            defaultPrevented (click x p).1 = true
            /\ scrollTarget (click x p).1
               = Some (from_option offsetTop 0 (elems p !! target)
                       - from_option offsetHeight 0 (elems p !! header))%Z
            /\ reported (click x p).1 = reported p)
      /\ (forall target, fragmentTarget p a = Normal (Some target) ->
            head (matching (has_class "header") p) = None ->
            defaultPrevented (click x p).1 = true
            /\ scrollTarget (click x p).1 = scrollTarget p
            /\ reported (click x p).1 = reported p ++ [JsTypeError])).
Proof.
  intros Hreached Hrs.
  set (p0 := set_defaultPrevented false p).
  set (e := Event x "" false).
  set (r := Registration (OnElement a) "click" (AnchorClick a)).
  assert ((click x p).1
          = foldl (fun q r => (runListener r e q).1) (runListener r e p0).1 rs) as ->.
  { by rewrite click_eq, site_dispatch_eq, Hreached. }
  destruct (navigation_listeners_elems rs e (runListener r e p0).1 Hrs) as [d ->].
  assert (runHandler (AnchorClick a) e p0
          = if bool_decide (attribute p a "href" = Some "#") then (p0, Normal tt)
            else match fragmentTarget p a with
                 | Abrupt err => (p0, Abrupt err)
                 | Normal None => (p0, Normal tt)
                 | Normal (Some target) =>
                     match head (matching (has_class "header") p) with
                     | Some header =>
                         (set_scrollTarget
                            (Some (from_option offsetTop 0 (elems p !! target)
                                   - from_option offsetHeight 0 (elems p !! header))%Z)
                            (set_defaultPrevented true p0), Normal tt)
                     | None => (set_defaultPrevented true p0, Abrupt JsTypeError)
                     end
                 end) as Hrun.
  { cbn [runHandler]. unfold bind at 1. unfold getAttribute, read at 1.
    fold (attribute p0 a "href"). change (attribute p0 a "href") with (attribute p a "href").
    case_bool_decide; [done |].
    unfold bind at 1. unfold querySelectorText.
    change (selectorEngine _ _ _ _) with (fragmentTarget p a).
    destruct (fragmentTarget p a) as [[target|]|err]; [| done | done].
    unfold bind at 1. unfold preventDefault. unfold bind at 1.
    unfold querySelector, read at 1.
    change (matching (has_class "header") (set_defaultPrevented true p0))
      with (matching (has_class "header") p).
    destruct (head (matching (has_class "header") p)) as [header|]; [| done].
    done. }
  cbn [defaultPrevented scrollTarget reported set_elems].
  unfold runListener. cbn [r r_handler]. rewrite Hrun.
  split; [| intros Hhref; split; [| split; [| split]]].
  - intros Hhref. by rewrite bool_decide_eq_true_2.
  - intros err Herr. by rewrite bool_decide_eq_false_2, Herr.
  - intros Hnone. by rewrite bool_decide_eq_false_2, Hnone.
  - intros target header Htarget Hheader.
    by rewrite bool_decide_eq_false_2, Htarget, Hheader.
  - intros target Htarget Hheader.
    by rewrite bool_decide_eq_false_2, Htarget, Hheader.
Qed.


(** *** The colour scheme *)

(** X17: [initializeDarkModeDetection] on a window without [matchMedia]
    throws a TypeError and changes nothing. With [matchMedia] it completes
    and registers its listener; the root element then has [data-theme]
    [dark] if the user prefers dark, and otherwise keeps the [data-theme]
    it had, whatever that was. A later change of the preference, on a page
    where this listener is the one listening, sets [data-theme] to [dark]
    if the user now prefers dark and removes it if not. *)
Theorem data_theme_follows_preference (p : page) :
  is_Some (elems p !! documentElement (env p)) ->
  (hasMatchMedia (env p) = false ->
   initializeDarkModeDetection p = (p, Abrupt JsTypeError))
  /\ (hasMatchMedia (env p) = true ->
      exists p',
        initializeDarkModeDetection p = (p', Normal tt)
        /\ listeners p'
           = listeners p ++ [Registration OnColorScheme "change" ColorSchemeChange]
        /\ attribute p' (documentElement (env p)) "data-theme"
           = if prefersDark (env p) then Some "dark"
             else attribute p (documentElement (env p)) "data-theme")
  /\ forall e,
      reached [OnColorScheme] "change" (listeners p)
      = [Registration OnColorScheme "change" ColorSchemeChange] ->
      attribute (dispatchEvent [OnColorScheme] "change" e p).1
        (documentElement (env p)) "data-theme"
      = if matches e then Some "dark" else None.
Proof.
  intros [root Hroot]. split; [| split].
  - intros H. unfold initializeDarkModeDetection, bind, read, matchMedia. rewrite H.
    cbn. by rewrite H.
  - intros H. unfold initializeDarkModeDetection. unfold bind at 1. unfold read at 1.
    rewrite H. unfold bind at 1. unfold read at 1.
    destruct (prefersDark (env p)); cbn [when].
    + eexists. unfold bind, read, setAttribute, modify, matchMedia, addEventListener.
      cbn [env set_elems]. rewrite H. split; [done |]. split; [done |].
      unfold attribute. cbn [elems set_elems set_listeners].
      rewrite lookup_alter_eq, Hroot. cbn. by rewrite lookup_insert_eq.
    + eexists. unfold bind, ret, matchMedia, addEventListener. rewrite H.
      split; [done |]. by split.
  - intros e Hreached. rewrite site_dispatch_eq, Hreached. cbn [foldl fst].
    unfold runListener. cbn [r_handler runHandler].
    unfold bind, read, setAttribute, removeAttribute, modify.
    cbn [env set_defaultPrevented]. unfold attribute.
    destruct (matches e); cbn [fst elems set_elems env set_defaultPrevented];
      rewrite lookup_alter_eq, Hroot; cbn.
    + by rewrite lookup_insert_eq.
    + by rewrite lookup_delete_eq.
Qed.


(** *** [initializeAccessibility] *)

Lemma markCurrentPage_idemp path e :
  markCurrentPage path (markCurrentPage path e) = markCurrentPage path e.
Proof.
  unfold markCurrentPage.
  destruct (bool_decide (attributes e !! "href" = Some path)) eqn:H; [| by rewrite H].
  cbn. rewrite lookup_insert_ne by done. rewrite H.
  unfold set_attributes. cbn. f_equal. inserts.
Qed.

Lemma markPage_body path link q :
  (href <- getAttribute link "href" ;;
   when (bool_decide (href = Some path)) (setAttribute link "aria-current" "page")) q
  = (set_elems (alter (markCurrentPage path) link (elems q)) q, Normal tt).
Proof.
  unfold bind, getAttribute, read, setAttribute, modify, when, ret.
  destruct (elems q !! link) as [e|] eqn:E; cbn [mbind option_bind].
  - case_bool_decide as H.
    + f_equal. f_equal. apply alter_ext. intros e' He'. rewrite E in He'.
      injection He' as <-. unfold markCurrentPage. by rewrite bool_decide_eq_true_2.
    + f_equal. rewrite alter_id; [by destruct q |].
      intros e' He'. rewrite E in He'. injection He' as <-.
      unfold markCurrentPage. by rewrite bool_decide_eq_false_2.
  - rewrite bool_decide_eq_false_2 by done. f_equal.
    rewrite alter_id; [by destruct q |]. intros e' He'. congruence.
Qed.

Lemma dom_foldl_alter (f : elem -> elem) (l : list nat) (d : gmap nat elem) :
  dom (foldl (fun d h => alter f h d) d l) = dom d.
Proof.
  revert d. induction l as [|h l IH]; intros d; [done |].
  cbn [foldl]. by rewrite IH, dom_alter_L.
Qed.

(** X18: On a page whose body is an element, [initializeAccessibility]
    completes. It registers its five listeners after those of the page;
    every link of the page whose [href] is the address of the page gets
    [aria-current] [page] and no other element of the page changes (a
    link that had [aria-current] and is not the current page keeps it);
    and a new element, the skip link, becomes the first child of the
    body: an [a] with [href] [#], its text and its inline style, that has
    no class. *)
Theorem initializeAccessibility_adds_skip_link (p : page) (b : nat) :
  body (env p) = Some b -> is_Some (elems p !! b) ->
  exists p',
    initializeAccessibility p = (p', Normal tt)
    /\ elems p !! fresh (dom (elems p)) = None
    /\ elems p' !! fresh (dom (elems p)) = Some (skipLinkElement (pathOf p b))
    /\ order p' = insertAfter b (fresh (dom (elems p))) (order p)
    /\ listeners p' = listeners p ++ accessibilityListeners (fresh (dom (elems p)))
    /\ forall h e, elems p !! h = Some e ->
         elems p' !! h
         = Some (if bool_decide (h ∈ matching anchor_with_href p)
                 then markCurrentPage (pathname (env p)) e else e).
Proof.
  intros Hb [eb Heb].
  assert (elems p !! fresh (dom (elems p)) = None) as Hfresh.
  { apply not_elem_of_dom, is_fresh. }
  unfold initializeAccessibility.
  unfold bind at 1. unfold addEventListener at 1.
  unfold bind at 1. unfold addEventListener at 1.
  unfold bind at 1. unfold read at 1.
  unfold bind at 1. unfold querySelectorAll, read at 1.
  unfold bind at 1.
  rewrite (forEach_modify _ _ (markCurrentPage (pathname (env p)))).
  2:{ intros h q. apply markPage_body. }
  cbn [set_listeners set_elems elems listeners env order observers scrollTarget
       focusCalls log reported defaultPrevented form].
  change (matching anchor_with_href (set_listeners _ (set_listeners _ p)))
    with (matching anchor_with_href p).
  set (d1 := foldl _ (elems p) (matching anchor_with_href p)).
  assert (dom d1 = dom (elems p)) as Hdom by apply dom_foldl_alter.
  assert (forall h e, elems p !! h = Some e ->
            d1 !! h = Some (if bool_decide (h ∈ matching anchor_with_href p)
                            then markCurrentPage (pathname (env p)) e else e)) as Hd1.
  { intros h e He. unfold d1. rewrite lookup_foldl_alter by apply markCurrentPage_idemp.
    rewrite He. by destruct (bool_decide _). }
  unfold bind, createElement, setAttribute, modify, addEventListener, document_body,
    insertFirstChild.
  cbn [set_listeners set_elems elems listeners env order observers scrollTarget
       focusCalls log reported defaultPrevented form set_order].
  rewrite Hb, Hdom. set (s := fresh (dom (elems p))) in *.
  assert (b <> s) as Hbs by (intros ->; congruence).
  eexists. split; [reflexivity |]. split; [done |].
  cbn [set_listeners set_elems elems listeners env order observers scrollTarget
       focusCalls log reported defaultPrevented form set_order].
  split; [| split; [done | split]].
  - rewrite !lookup_alter_eq, lookup_insert_eq. cbn.
    rewrite !lookup_alter_ne, lookup_insert_ne by done.
    rewrite (Hd1 b eb Heb). unfold skipLinkElement, pathOf. rewrite Heb. cbn.
    unfold set_ancestors. cbn.
    assert (forall c : bool,
              ancestors (if c then markCurrentPage (pathname (env p)) eb else eb)
              = ancestors eb) as ->.
    { intros [|]; [| done]. unfold markCurrentPage. by destruct (bool_decide _). }
    by rewrite insert_empty.
  - by rewrite <- !app_assoc.
  - intros h e He. assert (s <> h) as Hsh by (intros ->; congruence).
    rewrite !lookup_alter_ne, lookup_insert_ne by done. by apply Hd1.
Qed.

(** *** The properties at the sample page *)

Section HomePage.
Local Open Scope nat_scope.

Lemma initializeNavigation_marks_current_links_homePage :
  exists p',
    initializeNavigation homePage = (p', Normal tt)
    /\ hasClass homePage 5 "active" = true
    /\ hasClass p' 5 "active" = false
    /\ hasClass p' 6 "active" = true.
Proof.
  destruct (proj2 (initializeNavigation_marks_current_links homePage) 3 4 eq_refl eq_refl)
    as (p' & Heq & _ & _ & _ & Hlinks).
  exists p'. split; [exact Heq |]. split; [by vm_compute |].
  assert (forall l, l ∈ navLinks 4 homePage -> forall e, elems homePage !! l = Some e ->
            hasClass p' l "active"
            = bool_decide (attributes e !! "href" = Some "/contact.html")) as H.
  { intros l Hl e He. destruct (Hlinks l e Hl He) as (e' & He' & _ & Hactive).
    unfold hasClass. rewrite He'. apply bool_decide_ext, Hactive. }
  split.
  - erewrite H; [| by vm_compute; apply list_elem_of_here | by vm_compute].
    by vm_compute.
  - erewrite H; [| by vm_compute; apply list_elem_of_further, list_elem_of_here
                 | by vm_compute].
    by vm_compute.
Defined.


Lemma navigation_stays_in_sync_homePage :
  inSync (menuState 3 4 homePageLoaded)
  /\ inSync (menuState 3 4 (click 3 homePageLoaded).1).
Proof.
  assert (inSync (menuState 3 4 homePageLoaded)) as Hsync by (by vm_compute).
  split; [exact Hsync |].
  apply (navigation_stays_in_sync 3 4 (clickPath homePageLoaded 3) "click"
           (Event 3 "" false) homePageLoaded).
  - done.
  - vm_compute. by eexists.
  - vm_compute. by eexists.
  - vm_compute. repeat constructor.
  - exact Hsync.
Defined.

Lemma click_navigation_homePage :
  menuState 3 4 homePageLoaded = closed
  /\ menuState 3 4 (click 3 homePageLoaded).1 = (true, true, Some "true").
Proof.
  split; [by vm_compute |].
  assert (3 <> 4) as Hne by done.
  assert (is_Some (elems homePageLoaded !! 3)) as H3 by (vm_compute; by eexists).
  assert (is_Some (elems homePageLoaded !! 4)) as H4 by (vm_compute; by eexists).
  assert (listeners homePageLoaded
          = [] ++ navListeners 3 4 [5; 6] ++ drop 4 (listeners homePageLoaded)) as Hls.
  { by vm_compute. }
  assert (Forall (fun r => notNavigation (r_handler r))
            (drop 4 (listeners homePageLoaded))) as Hrest.
  { vm_compute. repeat constructor. }
  destruct (click_navigation 3 4 [5; 6] [] (drop 4 (listeners homePageLoaded)) 3
              homePageLoaded Hne H3 H4 Hls (Forall_nil_2 _) Hrest)
    as (_ & _ & Htoggle & _).
  rewrite Htoggle; [by vm_compute | | |].
  - apply list_elem_of_here.
  - apply (bool_decide_unpack (NoDup (pathOf homePageLoaded 3))). by vm_compute.
  - intros l Hl.
    apply elem_of_cons in Hl as [-> | Hl].
    + apply (bool_decide_unpack (5 ∉ pathOf homePageLoaded 3)). by vm_compute.
    + apply list_elem_of_singleton in Hl as ->.
      apply (bool_decide_unpack (6 ∉ pathOf homePageLoaded 3)). by vm_compute.
Defined.

Lemma lazy_loading_fallback_never_runs_homePage :
  hasIntersectionObserver (env homePageOldHost) = false
  /\ (onDOMContentLoaded homePageOldHost).2 = Abrupt JsReferenceError
  /\ hasClass homePageOldHost 5 "active" = true
  /\ hasClass (onDOMContentLoaded homePageOldHost).1 5 "active" = false
  /\ attribute homePageOldHost 11 "data-src" = Some "hero.jpg"
  /\ attribute (onDOMContentLoaded homePageOldHost).1 11 "src" = None.
Proof.
  split; [done |].
  destruct (lazy_loading_fallback_never_runs homePageOldHost eq_refl)
    as (p' & Heq & _ & _ & _ & Hattr & _).
  split; [by rewrite Heq |]. split; [by vm_compute |]. split; [by vm_compute |].
  split; [by vm_compute |].
  rewrite Heq. cbn [fst]. rewrite Hattr by done. by vm_compute.
Defined.

Lemma onDOMContentLoaded_sets_up_navigation_homePage :
  exists rest,
    listeners homePageLoaded = navListeners 3 4 [5; 6] ++ rest
    /\ Forall (fun r => notNavigation (r_handler r)) rest.
Proof.
  destruct (onDOMContentLoaded_sets_up_navigation homePage 3 4 eq_refl eq_refl eq_refl)
    as (p' & rest & Heq & Hls & Hrest & _).
  exists rest. unfold homePageLoaded. rewrite Heq. by split.
Defined.

Lemma anchor_click_homePage :
  defaultPrevented (click 9 homePageLoaded).1 = true
  /\ scrollTarget (click 9 homePageLoaded).1 = Some 520%Z
  /\ reported (click 9 homePageLoaded).1 = [].
Proof.
  assert (Forall (fun r => navigationOnly (r_handler r))
            [Registration OnDocument "click" (NavOutsideClick 3 4)]) as Hrs.
  { by repeat constructor. }
  assert (reached (clickPath homePageLoaded 9) "click" (listeners homePageLoaded)
          = [Registration (OnElement 9) "click" (AnchorClick 9);
             Registration OnDocument "click" (NavOutsideClick 3 4)]) as Hreached.
  { by vm_compute. }
  assert (attribute homePageLoaded 9 "href" <> Some "#") as Hhref by (by vm_compute).
  assert (fragmentTarget homePageLoaded 9 = Normal (Some 8)) as Htarget.
  { by vm_compute. }
  assert (head (matching (has_class "header") homePageLoaded) = Some 2) as Hheader.
  { by vm_compute. }
  destruct (anchor_click homePageLoaded 9 9 _ Hreached Hrs) as (_ & H).
  destruct (H Hhref) as (_ & _ & Hscroll & _).
  destruct (Hscroll 8 2 Htarget Hheader) as (H1 & H2 & H3).
  split; [exact H1 |]. split.
  - etrans; [exact H2 | by vm_compute].
  - etrans; [exact H3 | by vm_compute].
Defined.

Lemma lazy_images_load_when_seen_homePage :
  exists p',
    intersect 1 [(11, true); (12, true)] homePageLoaded = (p', Normal tt)
    /\ attribute p' 11 "src" = Some "hero.jpg"
    /\ attribute p' 12 "src" = Some "undefined"
    /\ targetsOf p' 1 = [].
Proof.
  assert (observers homePageLoaded !! 1 = Some (Observer LoadOnIntersect [11; 12]))
    as Hobserver by (by vm_compute).
  destruct (lazy_images_load_when_seen homePageLoaded 1 [11; 12]
              [(11, true); (12, true)] Hobserver)
    as (p' & Heq & Hload & _ & Htargets & _).
  exists p'. split; [exact Heq |].
  assert (is_Some (elems homePageLoaded !! 11)) as H11 by (vm_compute; by eexists).
  assert (is_Some (elems homePageLoaded !! 12)) as H12 by (vm_compute; by eexists).
  destruct (Hload 11 (list_elem_of_here _ _) H11) as (Hsrc11 & _).
  destruct (Hload 12 (list_elem_of_further _ _ _ (list_elem_of_here _ _)) H12)
    as (Hsrc12 & _).
  split; [etrans; [exact Hsrc11 | by vm_compute] |].
  split; [etrans; [exact Hsrc12 | by vm_compute] |].
  etrans; [exact Htargets | by vm_compute].
Defined.

Lemma cards_hidden_until_seen_homePage :
  exists p1 p2,
    initializeAnimations homePage = (p1, Normal tt)
    /\ intersect 0 [(10, true)] p1 = (p2, Normal tt)
    /\ styleOf p1 10 "opacity" = Some "0"
    /\ styleOf p2 10 "opacity" = Some "1".
Proof.
  destruct (cards_hidden_until_seen homePage [(10, true)] eq_refl)
    as (p1 & p2 & H1 & H2 & Hcards & _).
  exists p1, p2. split; [exact H1 |]. split; [exact H2 |].
  destruct (Hcards 10) as (-> & _ & -> & _); [by vm_compute; apply list_elem_of_here |].
  by vm_compute.
Defined.

Lemma data_theme_follows_preference_homePage :
  exists p',
    initializeDarkModeDetection homePage = (p', Normal tt)
    /\ attribute p' 0 "data-theme" = Some "dark".
Proof.
  assert (is_Some (elems homePage !! documentElement (env homePage))) as Hroot.
  { vm_compute. by eexists. }
  destruct (data_theme_follows_preference homePage Hroot) as (_ & Hinit & _).
  destruct (Hinit eq_refl) as (p' & Heq & _ & Htheme).
  exists p'. split; [exact Heq |]. exact Htheme.
Defined.

Lemma initializeAccessibility_adds_skip_link_homePage :
  exists p',
    initializeAccessibility homePage = (p', Normal tt)
    /\ elems p' !! 13 = Some (skipLinkElement [1; 0])
    /\ order p' = [0; 1; 13; 2; 3; 4; 5; 6; 7; 9; 11; 12; 8; 10]
    /\ attribute p' 6 "aria-current" = Some "page".
Proof.
  assert (is_Some (elems homePage !! 1)) as Hbody by (vm_compute; by eexists).
  destruct (initializeAccessibility_adds_skip_link homePage 1 eq_refl Hbody)
    as (p' & Heq & _ & Hskip & Horder & _ & Helems).
  exists p'. split; [exact Heq |].
  split; [exact Hskip |]. split; [by rewrite Horder |].
  unfold attribute. erewrite Helems by (by vm_compute). by vm_compute.
Defined.

End HomePage.

End SiteFacts.

(** ** The added properties at sample pages *)


Lemma onSubmit_failed_idempotent_partlyFilled :
  passes (subject (fieldsOf partlyFilledPage)) partlyFilledPage = Ok false
  /\ onSubmit "contactForm" (fieldsOf partlyFilledPage)
       (fst (onSubmit "contactForm" (fieldsOf partlyFilledPage) partlyFilledPage))
     = onSubmit "contactForm" (fieldsOf partlyFilledPage) partlyFilledPage.
Proof.
  split; [done |].
  exact (onSubmit_failed_idempotent partlyFilledPage "subject"
           (subject (fieldsOf partlyFilledPage)) (subject_entry _) eq_refl).
Defined.

Lemma second_submit_hidden_by_first_timer_submitted :
  timers submittedPage = [Timer 2000 (HideSuccess (Some "successMessage"))]
  /\ el_display <$> document submittedPage !! "successMessage" = Some "block"
  /\ el_display
       <$> document (fst (elapse 2000
                            (fst (onSubmit "contactForm" (fieldsOf submittedPage)
                                    submittedPage))))
           !! "successMessage"
     = Some "none".
Proof.
  assert (Htimers : timers submittedPage
                    = [Timer 2000 (HideSuccess (Some "successMessage"))]).
  { by vm_compute. }
  split; [exact Htimers |]. split; [by vm_compute |].
  assert (Hwf : wellFormed submittedPage).
  { unfold wellFormed, textControl.
    repeat split; eexists; try (split; [by vm_compute | by right]); by vm_compute. }
  assert (Hall : forall fieldId fd, (fieldId, fd) ∈ entries (fieldsOf submittedPage) ->
                                    passes fd submittedPage = Ok true).
  { apply (entries_cases _ (fun _ fd => passes fd submittedPage = Ok true));
      by vm_compute. }
  assert (Hsm : is_Some (document submittedPage !! "successMessage")).
  { vm_compute. by eexists. }
  assert (Hd : 2000 < 5000) by lia.
  pose proof (second_submit_hidden_by_first_timer submittedPage 2000 Hwf Hall Hsm
                Htimers Hd) as (_ & Hhidden & _).
  exact Hhidden.
Defined.
